(** * Sudoku engine of [useSudokuGame]: a shallow embedding and its properties

    The development follows the composable [useSudokuGame] (constraint
    checker, backtracking solver, generator, invalid-cell scan, hints and
    cell updates) and the tables of [types/sudoku]. *)

From Stdlib Require Import ZArith String Ascii Floats Lia ZifyNat.
From Stdlib Require Import DecimalString DecimalFacts DecimalNat.
From stdpp Require Import base list gmap.

Local Open Scope nat_scope.

(* [lia] on [/ 3] and [mod 3] *)
Ltac Zify.zify_post_hook ::= Z.to_euclidean_division_equations.

(** ** Data model *)

(** The numbers a cell can hold.  A cell receives its number from the digit
    loops (1..9) or from [parseInt], which yields an integer or NaN. *)
Inductive number : Type :=
| NaN
| Int (z : Z).

(** [CellValue = number | null]; [None] is [null]. *)
Abbreviation CellValue := (option number).
(** [SudokuGrid = CellValue[][]]. *)
Abbreviation SudokuGrid := (list (list CellValue)).

(** [a === b] on numbers: NaN is equal to nothing, not even itself. *)
Definition strictEq (a b : number) : bool :=
  match a, b with
  | Int x, Int y => Z.eqb x y
  | _, _ => false
  end.

(** [Set<number>] compares with SameValueZero, under which NaN equals NaN:
    on [number] that is plain equality, so a [Set<number>] is a [gset]. *)
#[global] Instance number_eq_dec : EqDecision number.
Proof. solve_decision. Defined.

#[global] Instance number_countable : Countable number.
Proof.
  refine (inj_countable'
            (fun n => match n with NaN => None | Int z => Some z end)
            (fun o => match o with None => NaN | Some z => Int z end) _).
  by intros [].
Defined.

(** [grid[row][col]].  [None] stands for an index outside the arrays (where
    a column outside its row reads [undefined] and a row outside the grid
    raises a TypeError); every caller stays inside the 9x9 range, and the
    statements below are made for grids of that shape. *)
Definition cellAt (grid : SudokuGrid) (row col : nat) : option CellValue :=
  match grid !! row with
  | Some r => r !! col
  | None => None
  end.

(** [grid[row][col] === num] *)
Definition cellEq (grid : SudokuGrid) (row col : nat) (num : number) : bool :=
  match cellAt grid row col with
  | Some (Some v) => strictEq v num
  | _ => false
  end.

(** [grid[row][col] === null] *)
Definition cellNull (grid : SudokuGrid) (row col : nat) : bool :=
  match cellAt grid row col with
  | Some None => true
  | _ => false
  end.

(** [grid[row][col] = v] *)
Definition setCell (grid : SudokuGrid) (row col : nat) (v : CellValue) : SudokuGrid :=
  alter (fun r => <[col := v]> r) row grid.

(** [Array(9).fill(null).map(() => Array(9).fill(null))] *)
Definition emptyGrid : SudokuGrid := replicate 9 (replicate 9 None).

(** The shape every grid of the program has. *)
Definition is9x9 (grid : SudokuGrid) : Prop :=
  length grid = 9 ∧ Forall (fun r => length r = 9) grid.

(** ** Constraint checker *)

Definition isValidMove (grid : SudokuGrid) (row col : nat) (num : number) : bool :=
  if existsb (fun x => cellEq grid row x num) (seq 0 9) then false
  else if existsb (fun x => cellEq grid x col num) (seq 0 9) then false
  else
    let startRow := row / 3 * 3 in
    let startCol := col / 3 * 3 in
    if existsb (fun i =>
         existsb (fun j => cellEq grid (startRow + i) (startCol + j) num) (seq 0 3))
         (seq 0 3)
    then false
    else true.

(** ** The unit relation *)

(** Two cells share a unit: same row, same column or same 3x3 box. *)
Definition sameUnit (r c r' c' : nat) : Prop :=
  r = r' ∨ c = c' ∨ (r / 3 = r' / 3 ∧ c / 3 = c' / 3).

(** ** Backtracking solver *)

(** The digits tried in ascending order: [for (num = 1; num <= 9; num++)]. *)
Definition digits : list Z := [1; 2; 3; 4; 5; 6; 7; 8; 9]%Z.

(** The cells in the order of the nested [row]/[col] loops. *)
Definition allCells : list (nat * nat) :=
  flat_map (fun row => map (fun col => (row, col)) (seq 0 9)) (seq 0 9).

(** The cell at which the nested loops first meet [grid[row][col] === null]. *)
Definition firstEmpty (grid : SudokuGrid) : option (nat * nat) :=
  find (fun '(row, col) => cellNull grid row col) allCells.

Section TryDigits.
(** The recursive call [solveGrid(grid)], and the cell being filled. *)
Variable recur : SudokuGrid → option (bool * SudokuGrid).
Variables row col : nat.

(** The digit loop at the first empty cell.  The grid is threaded through:
    a failed recursive call hands back the grid it worked on, and the cell
    is then reset to [null]. *)
Fixpoint tryDigits (nums : list Z) (grid : SudokuGrid) : option (bool * SudokuGrid) :=
  match nums with
  | [] => Some (false, grid)
  | num :: rest =>
      if isValidMove grid row col (Int num) then
        match recur (setCell grid row col (Some (Int num))) with
        | None => None
        | Some (true, grid') => Some (true, grid')
        | Some (false, grid') => tryDigits rest (setCell grid' row col None)
        end
      else tryDigits rest grid
  end.
End TryDigits.

(** [solveGrid] mutates the grid in place and returns a boolean; here it
    returns the boolean with the grid it leaves behind.  The recursion is on
    the number of empty cells, given as [fuel]; [None] means the fuel ran
    out. *)
Fixpoint solveGrid (fuel : nat) (grid : SudokuGrid) : option (bool * SudokuGrid) :=
  match fuel with
  | O => None
  | S fuel' =>
      match firstEmpty grid with
      | Some (row, col) => tryDigits (solveGrid fuel') row col digits grid
      | None => Some (true, grid)
      end
  end.

(** 81 cells bound the recursion depth, so 82 units of fuel always suffice
    (lemma [solveGrid_fuel] below). *)
Definition solveFuel : nat := 82.

(** ** What a solution of a grid is *)

(** No cell of the 9x9 range is [null]. *)
Definition full (grid : SudokuGrid) : Prop :=
  ∀ r c, r < 9 → c < 9 → cellNull grid r c = false.

(** [Placed grid grid']: [grid'] is reached from [grid] by placing digits
    into empty cells one after the other, in any cell order, each placement
    accepted by [isValidMove] on the grid as it stands at that moment. *)
Inductive Placed : SudokuGrid → SudokuGrid → Prop :=
| Placed_refl grid : Placed grid grid
| Placed_step grid row col num grid' :
    row < 9 → col < 9 →
    cellNull grid row col = true →
    In num digits →
    isValidMove grid row col (Int num) = true →
    Placed (setCell grid row col (Some (Int num))) grid' →
    Placed grid grid'.

(** A completion consistent with the constraint checker. *)
Definition Completes (grid solved : SudokuGrid) : Prop :=
  Placed grid solved ∧ full solved.

(** The same notion without the order of placement: [h] is full, keeps the
    filled cells of [g], and every cell that is empty in [g] holds a digit
    that no other cell of its units holds in [h]. *)
Definition Fits (g h : SudokuGrid) : Prop :=
  is9x9 h ∧ full h ∧
  (∀ r c v, r < 9 → c < 9 →
     cellAt g r c = Some (Some v) → cellAt h r c = Some (Some v)) ∧
  (∀ r c, r < 9 → c < 9 → cellNull g r c = true →
     ∃ n, In n digits ∧ cellAt h r c = Some (Some (Int n)) ∧
       ∀ r' c', r' < 9 → c' < 9 → (r', c') ≠ (r, c) →
         sameUnit r c r' c' → cellEq h r' c' (Int n) = false).

(** The number of empty cells, the measure of the recursion. *)
Definition empties (grid : SudokuGrid) : nat :=
  length (List.filter (fun '(row, col) => cellNull grid row col) allCells).

(** What a call of [solveGrid] on [g] may return. *)
Definition solvePost (g : SudokuGrid) (res : option (bool * SudokuGrid)) : Prop :=
  (∃ g', res = Some (true, g') ∧ Completes g g') ∨
  (res = Some (false, g) ∧ ∀ h, ¬ Fits g h).

(** ** Example grids *)

(** A grid from rows of integers, 0 standing for an empty cell. *)
Definition ofRows (rows : list (list Z)) : SudokuGrid :=
  map (map (fun z => if (z =? 0)%Z then None else Some (Int z))) rows.

(** The solved grid of the test-suite ([createValidSolvedGrid]). *)
Definition solvedExample : SudokuGrid := ofRows
  [[5;3;4;6;7;8;9;1;2]; [6;7;2;1;9;5;3;4;8]; [1;9;8;3;4;2;5;6;7];
   [8;5;9;7;6;1;4;2;3]; [4;2;6;8;5;3;7;9;1]; [7;1;3;9;2;4;8;5;6];
   [9;6;1;5;3;7;2;8;4]; [2;8;7;4;1;9;6;3;5]; [3;4;5;2;8;6;1;7;9]]%Z.

(** The same grid with cell (0,0) blanked ([createIncompleteGrid]). *)
Definition incompleteExample : SudokuGrid := setCell solvedExample 0 0 None.

(** ** Invalid-cell scan *)

(** [String(n)] for a natural number. *)
Definition showNat (n : nat) : string := NilZero.string_of_uint (Nat.to_uint n).

(** The key [`${row}-${col}`] under which a cell is reported. *)
Definition cellKey (row col : nat) : string :=
  String.append (showNat row) (String "-" (showNat col)).

Section ScanUnit.
(** The board, and the cells of the unit being scanned, in loop order. *)
Variable board : SudokuGrid.
Variable unit : list (nat * nat).

(** The marking loop: the key of every cell of the unit with
    [board[r][c] === value] is pushed, in loop order. *)
Definition markAll (value : number) : list string :=
  map (fun '(r, c) => cellKey r c)
      (List.filter (fun '(r, c) => cellEq board r c value) unit).

(** The loop over the unit, with its [seen] set and the [invalid] array. *)
Fixpoint scanCells (cells : list (nat * nat)) (seen : gset number)
    (invalid : list string) : list string :=
  match cells with
  | [] => invalid
  | (r, c) :: rest =>
      match cellAt board r c with
      | Some (Some value) =>
          if decide (value ∈ seen)
          then scanCells rest seen (invalid ++ markAll value)
          else scanCells rest ({[value]} ∪ seen) invalid
      | _ => scanCells rest seen invalid
      end
  end.

Definition scanUnit (invalid : list string) : list string :=
  scanCells unit ∅ invalid.
End ScanUnit.

Definition rowCells (row : nat) : list (nat * nat) :=
  map (fun col => (row, col)) (seq 0 9).

Definition colCells (col : nat) : list (nat * nat) :=
  map (fun row => (row, col)) (seq 0 9).

Definition boxCells (boxRow boxCol : nat) : list (nat * nat) :=
  flat_map (fun r => map (fun c => (r, c)) (seq (boxCol * 3) 3)) (seq (boxRow * 3) 3).

(** The boxes in the order of the [boxRow]/[boxCol] loops. *)
Definition allBoxes : list (nat * nat) :=
  flat_map (fun boxRow => map (fun boxCol => (boxRow, boxCol)) (seq 0 3)) (seq 0 3).

(** [Array.from(new Set(invalid))]: first occurrences, in insertion order. *)
Definition dedupe (l : list string) : list string :=
  fold_left (fun acc x => if decide (x ∈ acc) then acc else acc ++ [x]) l [].

(** [getInvalidCells], as a function of the board it reads. *)
Definition getInvalidCells (board : SudokuGrid) : list string :=
  let invalid := [] in
  let invalid :=
    fold_left (fun inv row => scanUnit board (rowCells row) inv) (seq 0 9) invalid in
  let invalid :=
    fold_left (fun inv col => scanUnit board (colCells col) inv) (seq 0 9) invalid in
  let invalid :=
    fold_left (fun inv '(boxRow, boxCol) => scanUnit board (boxCells boxRow boxCol) inv)
      allBoxes invalid in
  dedupe invalid.

(** [triggers cells seen v]: scanning [cells] with the set [seen] meets a
    cell whose value [v] is already in the set, so that the marking loop
    runs for [v]. *)
Fixpoint triggers (board : SudokuGrid) (cells : list (nat * nat))
    (seen : gset number) (v : number) : Prop :=
  match cells with
  | [] => False
  | (r, c) :: rest =>
      match cellAt board r c with
      | Some (Some v0) =>
          (v0 = v ∧ v ∈ seen) ∨ triggers board rest ({[v0]} ∪ seen) v
      | _ => triggers board rest seen v
      end
  end.

(** What one unit contributes: the keys of its cells that share their value
    with another cell of the unit. *)
Definition unitFlags (board : SudokuGrid) (unit : list (nat * nat)) (key : string) : Prop :=
  ∃ r c, In (r, c) unit ∧ key = cellKey r c ∧
    ∃ r' c', In (r', c') unit ∧ (r', c') ≠ (r, c) ∧
      ∃ v, cellAt board r c = Some (Some v) ∧ cellEq board r' c' v = true.

(** A cell in conflict: some other cell of its row, column or box holds the
    same value (in the sense of [===]). *)
Definition conflicting (board : SudokuGrid) (r c : nat) : Prop :=
  ∃ r' c', r' < 9 ∧ c' < 9 ∧ (r', c') ≠ (r, c) ∧ sameUnit r c r' c' ∧
    ∃ v, cellAt board r c = Some (Some v) ∧ cellEq board r' c' v = true.

(** The grid of the test-suite with cell (0,0) forced to 1
    ([createInvalidGrid]). *)
Definition invalidExample : SudokuGrid := setCell solvedExample 0 0 (Some (Int 1)).

(** ** Configuration tables of [types/sudoku] *)

Inductive Difficulty : Type := beginner | intermediate | hard | expert.

Record DifficultyConfig : Type := {
  name : Difficulty;
  minVisible : Z;
  maxVisible : Z;
  label : string
}.

Definition DIFFICULTY_CONFIGS (d : Difficulty) : DifficultyConfig :=
  match d with
  | beginner =>
      {| name := beginner; minVisible := 36; maxVisible := 40; label := "Beginner" |}
  | intermediate =>
      {| name := intermediate; minVisible := 32; maxVisible := 36; label := "Intermediate" |}
  | hard =>
      {| name := hard; minVisible := 28; maxVisible := 32; label := "Hard" |}
  | expert =>
      {| name := expert; minVisible := 24; maxVisible := 28; label := "Expert" |}
  end.

Record ScoringConfig : Type := {
  correctCell : Z;
  baseHintPenalty : Z;
  hintPenaltyIncrement : Z;
  errorPenalty : Z;
  timeBonus : Z;
  maxHints : Z
}.

Definition SCORING_CONFIG : ScoringConfig :=
  {| correctCell := 5;
     baseHintPenalty := 3;
     hintPenaltyIncrement := 1;
     errorPenalty := 1;
     timeBonus := 500;
     maxHints := 10 |}.

(** ** Game state *)

(** The fields of [GameState].  The flags [isComplete] and [isCorrect] of the
    record are named [isCompleteFlag] and [isCorrectFlag], to keep them apart
    from the computed properties of the same names.  Times are milliseconds;
    scores and counts stay far below 2^53, where the arithmetic of doubles on
    integers is exact, and are integers here. *)
Record GameState : Type := mkGameState {
  puzzle : SudokuGrid;
  board : SudokuGrid;
  difficulty : Difficulty;
  score : Z;
  hintsUsed : Z;
  startTime : option Z;
  endTime : option Z;
  isCompleteFlag : bool;
  isCorrectFlag : bool;
  isLoading : bool;
  error : option string;
  isPaused : bool;
  pauseStartTime : option Z
}.

Definition setBoard (b : SudokuGrid) (s : GameState) : GameState :=
  mkGameState (puzzle s) b (difficulty s) (score s) (hintsUsed s) (startTime s)
    (endTime s) (isCompleteFlag s) (isCorrectFlag s) (isLoading s) (error s)
    (isPaused s) (pauseStartTime s).

Definition setScore (z : Z) (s : GameState) : GameState :=
  mkGameState (puzzle s) (board s) (difficulty s) z (hintsUsed s) (startTime s)
    (endTime s) (isCompleteFlag s) (isCorrectFlag s) (isLoading s) (error s)
    (isPaused s) (pauseStartTime s).

Definition setHintsUsed (z : Z) (s : GameState) : GameState :=
  mkGameState (puzzle s) (board s) (difficulty s) (score s) z (startTime s)
    (endTime s) (isCompleteFlag s) (isCorrectFlag s) (isLoading s) (error s)
    (isPaused s) (pauseStartTime s).

(** [Hint = { row, col, value }] *)
Module Hint.
Record t : Type := mk { row : nat; col : nat; value : number }.
End Hint.

(** The initial value of the [gameState] ref. *)
Definition initialState : GameState :=
  mkGameState emptyGrid emptyGrid beginner 0 0 None None false false false None false None.

(** ** Computed properties *)

Definition isComplete (s : GameState) : bool :=
  forallb (fun '(row, col) => negb (cellNull (board s) row col)) allCells.

Definition isCorrect (s : GameState) : bool :=
  if negb (isComplete s) then false
  else Nat.eqb (length (getInvalidCells (board s))) 0.

(** [elapsedTime]; [now] is the value of [Date.now()].  [!startTime] holds
    for [null] and for 0, and [endTime || Date.now()] takes the clock for
    [null] and for 0. *)
Definition elapsedTime (now : Z) (s : GameState) : Z :=
  match startTime s with
  | None => 0
  | Some st =>
      if (st =? 0)%Z then 0%Z
      else
        let end_ := match endTime s with
                    | Some e => if (e =? 0)%Z then now else e
                    | None => now
                    end in
        ((end_ - st) / 1000)%Z
  end.

(** ** [parseInt] *)

(** The builtin [parseInt(string)] with no radix: leading white space is
    skipped, a sign is read, a [0x]/[0X] prefix selects radix 16, and the
    longest prefix of digits is converted; with no digit the result is NaN.
    White space is the ASCII white space; the integer is not rounded to a
    double (an integer beyond 2^53 compares with 1 and 9 as its rounding
    does). *)
Definition isWhite (a : ascii) : bool :=
  let n := nat_of_ascii a in
  (n =? 32) || ((9 <=? n) && (n <=? 13)).

Fixpoint skipWhite (s : string) : string :=
  match s with
  | String a rest => if isWhite a then skipWhite rest else s
  | EmptyString => s
  end.

Definition digitOf (a : ascii) : option Z :=
  let n := Z.of_nat (nat_of_ascii a) in
  if ((48 <=? n) && (n <=? 57))%Z then Some (n - 48)%Z
  else if ((97 <=? n) && (n <=? 122))%Z then Some (n - 87)%Z
  else if ((65 <=? n) && (n <=? 90))%Z then Some (n - 55)%Z
  else None.

Fixpoint parseDigits (radix : Z) (s : string) (acc : option Z) : option Z :=
  match s with
  | String a rest =>
      match digitOf a with
      | Some d =>
          if (d <? radix)%Z
          then parseDigits radix rest (Some (default 0 acc * radix + d))%Z
          else acc
      | None => acc
      end
  | EmptyString => acc
  end.

Definition parseInt (s : string) : number :=
  let s1 := skipWhite s in
  let '(negative, s2) :=
    match s1 with
    | String "-" rest => (true, rest)
    | String "+" rest => (false, rest)
    | _ => (false, s1)
    end in
  let '(radix, s3) :=
    match s2 with
    | String "0" (String "x" rest) => (16%Z, rest)
    | String "0" (String "X" rest) => (16%Z, rest)
    | _ => (10%Z, s2)
    end in
  match parseDigits radix s3 None with
  | Some n => Int (if negative then - n else n)%Z
  | None => NaN
  end.

(** [n < k] and [n > k] on numbers: both are false for NaN. *)
Definition numLt (n : number) (k : Z) : bool :=
  match n with Int z => (z <? k)%Z | NaN => false end.

Definition numGt (n : number) (k : Z) : bool :=
  match n with Int z => (k <? z)%Z | NaN => false end.

(** [a !== b] on cell values. *)
Definition cellNotEq (a b : CellValue) : bool :=
  match a, b with
  | None, None => false
  | Some x, Some y => negb (strictEq x y)
  | _, _ => true
  end.

(** ** Session operations *)

Definition isOriginalCell (s : GameState) (row col : nat) : bool :=
  negb (cellNull (puzzle s) row col).

(** The part of [completeGame] that runs before its first [await]: the rest
    talks to the leaderboard and does not touch the game state. *)
Definition completeGame (now : Z) (s : GameState) : GameState :=
  let s :=
    mkGameState (puzzle s) (board s) (difficulty s) (score s) (hintsUsed s)
      (startTime s) (Some now) true true (isLoading s) (error s) (isPaused s)
      (pauseStartTime s) in
  let bonus := (timeBonus SCORING_CONFIG - elapsedTime now s)%Z in
  setScore (score s + bonus)%Z s.

(** [if (isComplete.value && isCorrect.value) completeGame()] *)
Definition completeIfDone (now : Z) (s : GameState) : GameState :=
  if isComplete s && isCorrect s then completeGame now s else s.

(** [updateCell(row, col, value)].  [saveGameState] writes the state to the
    local storage and leaves it as it is; it is not part of the model. *)
Definition updateCell (now : Z) (row col : nat) (value : string) (s : GameState)
    : GameState :=
  if isOriginalCell s row col then s
  else
    let numValue : CellValue :=
      if String.eqb value EmptyString then None else Some (parseInt value) in
    if match numValue with
       | Some n => numLt n 1 || numGt n 9
       | None => false
       end
    then s
    else
      let oldValue : CellValue := default None (cellAt (board s) row col) in
      let wasOldValid :=
        match oldValue with
        | Some old =>
            let tempBoard := setCell (board s) row col None in
            isValidMove tempBoard row col old
        | None => false
        end in
      let isNowValid :=
        match numValue with
        | None => true
        | Some n => isValidMove (board s) row col n
        end in
      let s := setBoard (setCell (board s) row col numValue) s in
      let s :=
        if match oldValue with Some _ => true | None => false end
           && wasOldValid && cellNotEq numValue oldValue
        then setScore (score s - correctCell SCORING_CONFIG)%Z s
        else s in
      let s :=
        match numValue with
        | Some _ =>
            if isNowValid
            then setScore (score s + correctCell SCORING_CONFIG)%Z s
            else setScore (score s - errorPenalty SCORING_CONFIG)%Z s
        | None => s
        end in
      completeIfDone now s.

(** [solveGrid] as its callers use it: the boolean, and the grid left. *)
Definition runSolveGrid (grid : SudokuGrid) : bool * SudokuGrid :=
  match solveGrid solveFuel grid with
  | Some res => res
  | None => (false, grid)
  end.

Section HintDigits.
(** The empty cell a hint is sought for. *)
Variables row col : nat.

(** The digit loop of [getHint] on [boardCopy]: a digit that passes the
    checker is written into [boardCopy] and stays there when the solver
    fails on the further copy [tempBoard]. *)
Fixpoint hintDigits (nums : list Z) (boardCopy : SudokuGrid) : option Z :=
  match nums with
  | [] => None
  | num :: rest =>
      if isValidMove boardCopy row col (Int num) then
        let boardCopy := setCell boardCopy row col (Some (Int num)) in
        let tempBoard := boardCopy in
        if (runSolveGrid tempBoard).1 then Some num
        else hintDigits rest boardCopy
      else hintDigits rest boardCopy
  end.
End HintDigits.

(** The [row]/[col] loops of [getHint]: every empty cell is tried in turn
    until some digit is found. *)
Fixpoint hintScan (board : SudokuGrid) (cells : list (nat * nat)) : option Hint.t :=
  match cells with
  | [] => None
  | (row, col) :: rest =>
      if cellNull board row col then
        let boardCopy := board in
        match hintDigits row col digits boardCopy with
        | Some num => Some (Hint.mk row col (Int num))
        | None => hintScan board rest
        end
      else hintScan board rest
  end.

Definition getHint (s : GameState) : option Hint.t * GameState :=
  if (maxHints SCORING_CONFIG <=? hintsUsed s)%Z then (None, s)
  else
    match hintScan (board s) allCells with
    | Some hint =>
        let penalty :=
          (baseHintPenalty SCORING_CONFIG
           + hintsUsed s * hintPenaltyIncrement SCORING_CONFIG)%Z in
        let s := setScore (score s - penalty)%Z s in
        let s := setHintsUsed (hintsUsed s + 1)%Z s in
        (Some hint, s)
    | None => (None, s)
    end.

Definition applyHint (now : Z) (hint : Hint.t) (s : GameState) : GameState :=
  let s :=
    setBoard (setCell (board s) (Hint.row hint) (Hint.col hint)
                (Some (Hint.value hint))) s in
  completeIfDone now s.

Definition solveBoard (s : GameState) : GameState :=
  let boardCopy := board s in
  match runSolveGrid boardCopy with
  | (true, solved) => setBoard solved s
  | (false, _) => s
  end.

Definition resetBoard (now : Z) (s : GameState) : GameState :=
  mkGameState (puzzle s) (puzzle s) (difficulty s) 0 0 (Some now) None false false
    (isLoading s) (error s) false None.

Definition pauseGame (now : Z) (s : GameState) : GameState :=
  let started := match startTime s with Some st => negb (st =? 0)%Z | None => false end in
  let ended := match endTime s with Some e => negb (e =? 0)%Z | None => false end in
  if negb (isPaused s) && started && negb ended
  then mkGameState (puzzle s) (board s) (difficulty s) (score s) (hintsUsed s)
         (startTime s) (endTime s) (isCompleteFlag s) (isCorrectFlag s) (isLoading s)
         (error s) true (Some now)
  else s.

Definition continueGame (now : Z) (s : GameState) : GameState :=
  if isPaused s then
    let start' :=
      match pauseStartTime s with
      | Some p =>
          if (p =? 0)%Z then startTime s
          else Some (default 0%Z (startTime s) + (now - p))%Z
      | None => startTime s
      end in
    mkGameState (puzzle s) (board s) (difficulty s) (score s) (hintsUsed s)
      start' (endTime s) (isCompleteFlag s) (isCorrectFlag s) (isLoading s)
      (error s) false None
  else s.

(** ** A session *)

(** What the player can do between two (re)starts of the game. *)
Inductive Action : Type :=
| UpdateCell (now : Z) (row col : nat) (value : string)
| GetHint
| ApplyHint (now : Z) (hint : Hint.t)
| SolveBoard
| PauseGame (now : Z)
| ContinueGame (now : Z).

Definition step (a : Action) (s : GameState) : GameState :=
  match a with
  | UpdateCell now row col value => updateCell now row col value s
  | GetHint => (getHint s).2
  | ApplyHint now hint => applyHint now hint s
  | SolveBoard => solveBoard s
  | PauseGame now => pauseGame now s
  | ContinueGame now => continueGame now s
  end.

Definition play (acts : list Action) (s : GameState) : GameState :=
  fold_left (fun s a => step a s) acts s.

(** The number of [getHint] calls of a session that returned a hint. *)
Fixpoint hintsGiven (acts : list Action) (s : GameState) : Z :=
  match acts with
  | [] => 0
  | a :: rest =>
      (match a with
       | GetHint => match (getHint s).1 with Some _ => 1 | None => 0 end
       | _ => 0
       end + hintsGiven rest (step a s))%Z
  end.

(** The board agrees with the puzzle on every original cell. *)
Definition boardKeepsPuzzle (s : GameState) : Prop :=
  ∀ r c v, r < 9 → c < 9 →
    cellAt (puzzle s) r c = Some (Some v) → cellAt (board s) r c = Some (Some v).

(** The first empty cell of the row-major scan, spelled out. *)
Definition isFirstEmpty (grid : SudokuGrid) (r c : nat) : Prop :=
  r < 9 ∧ c < 9 ∧ cellNull grid r c = true ∧
  ∀ r' c', r' < 9 → c' < 9 → (r' < r ∨ (r' = r ∧ c' < c)) → cellNull grid r' c' = false.

(** A digit that [getHint] accepts at a cell: it passes the checker on the
    board, and the solver completes the board on which it is placed. *)
Definition hintable (board : SudokuGrid) (row col : nat) (n : Z) : bool :=
  isValidMove board row col (Int n)
  && (runSolveGrid (setCell board row col (Some (Int n)))).1.

(** The solved example with the cells (0,0) and (8,8) blanked, and a fresh
    session on it. *)
Definition twoBlanksExample : SudokuGrid := setCell incompleteExample 8 8 None.

Definition exampleState : GameState :=
  mkGameState twoBlanksExample twoBlanksExample beginner 0 0 (Some 1000%Z) None
    false false false None false None.

(** A session on it: a first hint is asked for and applied. *)
Definition exampleSession : list Action :=
  [GetHint; ApplyHint 3000 (Hint.mk 0 0 (Int 5))].

(** ** Random numbers and the arithmetic of doubles *)

(** [Math.random()] returns a double of [0, 1).  The results of the
    successive calls of a run are given ahead, as a stream; the functions
    below take the position in the stream and return the next one. *)
Abbreviation Random := (nat → float).

(** An integer below 2^53 as a double. *)
Definition floatOfZ (z : Z) : float := of_uint63 (Uint63.of_Z z).

(** [Math.floor] of a finite double, as an integer (zero for NaN and the
    infinities, which [Math.random() * n + k] never yields). *)
Definition Math_floor (x : float) : Z :=
  match Prim2SF x with
  | S754_finite negative m e =>
      let v := if negative then Z.neg m else Z.pos m in
      if (0 <=? e)%Z then (v * 2 ^ e)%Z else (v / 2 ^ (- e))%Z
  | _ => 0%Z
  end.

(** ** Puzzle generator *)

(** The two loops of [fillBox] over the cells of the box; [numbers] shrinks
    by [splice].  For a [randomIndex] outside [numbers] the cell would get
    [undefined]; it is left without a number here (no double of [0, 1)
    leads there). *)
Fixpoint fillCells (rnd : Random) (k : nat) (cells : list (nat * nat))
    (numbers : list Z) (grid : SudokuGrid) : SudokuGrid * nat :=
  match cells with
  | [] => (grid, k)
  | (r, c) :: rest =>
      let randomIndex :=
        Z.to_nat (Math_floor (rnd k * floatOfZ (Z.of_nat (length numbers)))) in
      let grid := setCell grid r c (Int <$> numbers !! randomIndex) in
      fillCells rnd (S k) rest (delete randomIndex numbers) grid
  end.

Definition fillBox (rnd : Random) (k : nat) (grid : SudokuGrid)
    (startRow startCol : nat) : SudokuGrid * nat :=
  fillCells rnd k
    (flat_map (fun i => map (fun j => (startRow * 3 + i, startCol * 3 + j)) (seq 0 3))
       (seq 0 3))
    digits grid.

(** [generateSolvedGrid]: the three diagonal boxes are filled
    ([i = 0, 4, 8]), then [solveGrid] runs on the grid and its boolean is
    dropped. *)
Definition generateSolvedGrid (rnd : Random) (k : nat) : SudokuGrid * nat :=
  let grid := emptyGrid in
  let '(grid, k) :=
    fold_left (fun '(grid, k) i => fillBox rnd k grid (i / 3) (i mod 3))
      [0; 4; 8] (grid, k) in
  ((runSolveGrid grid).2, k).

(** [[positions[i], positions[j]] = [positions[j], positions[i]]] *)
Definition swap {A} (l : list A) (i j : nat) : list A :=
  match l !! i, l !! j with
  | Some a, Some b => <[j := a]> (<[i := b]> l)
  | _, _ => l
  end.

(** The Fisher-Yates loop, [i] running down the list [idx]. *)
Fixpoint shuffle (rnd : Random) (k : nat) (idx : list nat)
    (positions : list (nat * nat)) : list (nat * nat) * nat :=
  match idx with
  | [] => (positions, k)
  | i :: rest =>
      let j := Z.to_nat (Math_floor (rnd k * floatOfZ (Z.of_nat (i + 1)))) in
      shuffle rnd (S k) rest (swap positions i j)
  end.

(** The removal loop: [puzzle[row][col] = null] for the positions given. *)
Definition blankCells (positions : list (nat * nat)) (puzzle : SudokuGrid) : SudokuGrid :=
  fold_left (fun puzzle '(row, col) => setCell puzzle row col None) positions puzzle.

Definition generateSudokuPuzzle (difficulty : Difficulty) (rnd : Random) (k : nat)
    : SudokuGrid * nat :=
  let '(solvedGrid, k) := generateSolvedGrid rnd k in
  let config := DIFFICULTY_CONFIGS difficulty in
  let cellsToRemove :=
    (81 - Math_floor (rnd k * floatOfZ (maxVisible config - minVisible config + 1)
                      + floatOfZ (minVisible config)))%Z in
  let k := S k in
  let puzzle := solvedGrid in
  let positions := allCells in
  let '(positions, k) := shuffle rnd k (rev (seq 1 80)) positions in
  let puzzle := blankCells (take (Z.to_nat cellsToRemove) positions) puzzle in
  (puzzle, k).

Definition startNewGame (now : Z) (difficulty : Difficulty) (rnd : Random) (k : nat)
    (s : GameState) : GameState * nat :=
  let '(puzzle, k) := generateSudokuPuzzle difficulty rnd k in
  (mkGameState puzzle puzzle difficulty 0 0 (Some now) None false false
     (isLoading s) None false None, k).

(** The number of non-empty cells:
    [grid.flat().filter(cell => cell !== null).length]. *)
Definition countFilledCells (grid : SudokuGrid) : nat :=
  length (List.filter (fun cell : CellValue => match cell with Some _ => true | None => false end)
            (concat grid)).

(** A solved grid: every cell of the 9x9 range holds a digit of 1..9 that no
    other cell of its row, column or box holds. *)
Definition validSolution (grid : SudokuGrid) : Prop :=
  is9x9 grid ∧
  ∀ r c, r < 9 → c < 9 →
    ∃ n, In n digits ∧ cellAt grid r c = Some (Some (Int n)) ∧
      ∀ r' c', r' < 9 → c' < 9 → (r', c') ≠ (r, c) →
        sameUnit r c r' c' → cellEq grid r' c' (Int n) = false.

(** A run of [Math.random()]: 0.5 at every call but the 28th, the one that
    draws the visible count, which returns the double next below 1. *)
Definition nearOneRun : Random :=
  fun k => if Nat.eqb k 27 then 0x1.fffffffffffffp-1%float else 0.5%float.

(** * Further parts of the composable, the views and the leaderboard *)

(** ** [handleHint] of [App.vue]: ask for a hint and apply it *)

Definition handleHint (now : Z) (s : GameState) : GameState :=
  match getHint s with
  | (Some hint, s') => applyHint now hint s'
  | (None, s') => s'
  end.

(** ** [validateBoard] *)

Record ValidationResult : Type := {
  valid : bool;
  message : string;
  invalidCells : list string
}.

Definition validateBoard (s : GameState) : ValidationResult :=
  let invalid := getInvalidCells (board s) in
  if 0 <? length invalid then
    {| valid := false; message := "There are errors in the puzzle";
       invalidCells := invalid |}
  else if negb (isComplete s) then
    {| valid := false; message := "Puzzle is not complete"; invalidCells := [] |}
  else
    {| valid := true; message := "Puzzle solved correctly!"; invalidCells := [] |}.

(** The cell holds a digit of 1..9. *)
Definition digitCell (grid : SudokuGrid) (r c : nat) : bool :=
  match cellAt grid r c with
  | Some (Some (Int n)) => (1 <=? n)%Z && (n <=? 9)%Z
  | _ => false
  end.

(** Every cell of the 9x9 range is empty or holds a digit of 1..9. *)
Definition digitBoard (grid : SudokuGrid) : Prop :=
  ∀ r c, r < 9 → c < 9 → cellNull grid r c = true ∨ digitCell grid r c = true.

(** The example session after the player has filled in the two blanks. *)
Definition solvedState : GameState := setBoard solvedExample exampleState.

(** ** The handlers of [App.vue] and the pause buttons *)

(** What the player can do in the page: type into a cell
    ([handleUpdateCell]), and press Hint ([handleHint]), Solve
    ([handleSolve]), Reset ([handleReset]), New Game or a difficulty
    ([handleNewGame], [handleDifficultyChange]), Pause and Continue.  The
    messages the handlers show are not part of the game state. *)
Inductive UiEvent : Type :=
| EvUpdateCell (now : Z) (row col : nat) (value : string)
| EvHint (now : Z)
| EvSolve
| EvReset (now : Z)
| EvNewGame (now : Z) (difficulty : Difficulty)
| EvPause (now : Z)
| EvContinue (now : Z).

(** One event; the state comes with the position in the run of
    [Math.random()]. *)
Definition handle (rnd : Random) (ev : UiEvent) (sk : GameState * nat)
    : GameState * nat :=
  let '(s, k) := sk in
  match ev with
  | EvUpdateCell now row col value => (updateCell now row col value s, k)
  | EvHint now => (handleHint now s, k)
  | EvSolve => (solveBoard s, k)
  | EvReset now => (resetBoard now s, k)
  | EvNewGame now difficulty => startNewGame now difficulty rnd k s
  | EvPause now => (pauseGame now s, k)
  | EvContinue now => (continueGame now s, k)
  end.

Definition session (rnd : Random) (evs : list UiEvent) (sk : GameState * nat)
    : GameState * nat :=
  fold_left (fun sk ev => handle rnd ev sk) evs sk.

Definition isNewGame (ev : UiEvent) : bool :=
  match ev with EvNewGame _ _ => true | _ => false end.

(** The puzzle and the board are 9x9 and the board holds every original
    cell of the puzzle. *)
Definition wfSession (s : GameState) : Prop :=
  is9x9 (puzzle s) ∧ is9x9 (board s) ∧ boardKeepsPuzzle s.

(** ** [availableDigits] *)

(** [counts.get(value)! + 1]: for a key that is missing [get] gives
    [undefined], and [undefined + 1] is NaN, as is [NaN + 1]. *)
Definition countUp (o : option number) : number :=
  match o with
  | Some (Int z) => Int (z + 1)
  | _ => NaN
  end.

(** The [Map<number, number>] of [availableDigits]: the keys 1..9 are set to
    0, then every non-null cell of the nested [row]/[col] loops counts up
    the entry of its value.  (A [Map] compares keys with SameValueZero, so
    NaN is a key like another.  On a board that is not 9x9 a cell can be
    [undefined], a key that [number] does not have; such a cell is passed
    over here.) *)
Definition availableDigits (s : GameState) : gmap number number :=
  let counts : gmap number number :=
    fold_left (fun counts i => <[Int i := Int 0]> counts) digits ∅ in
  fold_left
    (fun counts '(row, col) =>
       match cellAt (board s) row col with
       | Some (Some value) => <[value := countUp (counts !! value)]> counts
       | _ => counts
       end)
    allCells counts.

(** The number of cells of the board that hold the digit. *)
Definition occurrences (grid : SudokuGrid) (d : Z) : nat :=
  length (List.filter (fun '(r, c) => cellEq grid r c (Int d)) allCells).

(** The digit a cell holds (0 for a cell without one). *)
Definition digitAt (grid : SudokuGrid) (r c : nat) : Z :=
  match cellAt grid r c with
  | Some (Some (Int n)) => n
  | _ => 0%Z
  end.

(** * The leaderboard server *)

(** [String(z)] for an integer. *)
Definition showZ (z : Z) : string :=
  if (z <? 0)%Z then String "-" (showNat (Z.to_nat (- z))) else showNat (Z.to_nat z).

(** A stored record.  [ref] is the identity of the object, which
    [Array.prototype.includes] compares; it is no field of the object.
    [date] is the instant that [toISOString] renders. *)
Module Rec.
Record t : Type := mk {
  ref : nat;
  id : string;
  difficulty : string;
  score : number;
  time : number;
  date : Z;
  hintsUsed : number
}.
End Rec.

(** The values a field of the request body takes here: missing
    ([undefined]), an integer, or a string. *)
Inductive Json : Type :=
| JUndefined
| JNumber (z : Z)
| JString (s : string).

Module Body.
Record t : Type := mk {
  difficulty : Json;
  score : Json;
  time : Json;
  hintsUsed : Json
}.
End Body.

(** [!v] is false *)
Definition truthy (v : Json) : bool :=
  match v with
  | JUndefined => false
  | JNumber z => negb (z =? 0)%Z
  | JString s => negb (String.eqb s EmptyString)
  end.

(** [v === undefined] *)
Definition isUndefined (v : Json) : bool :=
  match v with JUndefined => true | _ => false end.

(** [parseInt(v)]: the argument is turned into a string first. *)
Definition parseIntOf (v : Json) : number :=
  match v with
  | JUndefined => parseInt "undefined"
  | JNumber z => parseInt (showZ z)
  | JString s => parseInt s
  end.

Definition validDifficulties : list string :=
  ["beginner"; "intermediate"; "hard"; "expert"]%string.

(** [validDifficulties.includes(difficulty)], with the string found. *)
Definition validDifficulty (v : Json) : option string :=
  match v with
  | JString s => if existsb (String.eqb s) validDifficulties then Some s else None
  | _ => None
  end.

(** The comparator [(a, b) => b.score - a.score] gives a positive number:
    [b] goes before [a].  With a NaN score the difference is NaN, which
    [sort] takes for 0. *)
Definition scoreGt (b a : Rec.t) : bool :=
  match Rec.score b, Rec.score a with
  | Int x, Int y => (y <? x)%Z
  | _, _ => false
  end.

(** [records.sort((a, b) => b.score - a.score)].  [sort] is stable; for
    scores that are numbers the comparator is a consistent ordering, and
    the result is the one stable arrangement by descending score, computed
    here by insertion from the right.  (With a NaN among the scores the
    comparator is not consistent and the order is left to the engine; the
    statements that speak of the order are made for integer scores.) *)
Fixpoint insertRecord (a : Rec.t) (sorted : list Rec.t) : list Rec.t :=
  match sorted with
  | [] => [a]
  | b :: rest => if scoreGt b a then b :: insertRecord a rest else a :: sorted
  end.

Definition sortByScore (records : list Rec.t) : list Rec.t :=
  foldr insertRecord [] records.

(** [records.filter(record => record.difficulty === difficulty)] *)
Definition ofDifficulty (difficulty : string) (records : list Rec.t) : list Rec.t :=
  List.filter (fun record => String.eqb (Rec.difficulty record) difficulty) records.

(** [recordsToRemove.includes(r)] *)
Definition includes (records : list Rec.t) (r : Rec.t) : bool :=
  existsb (fun x => Nat.eqb (Rec.ref x) (Rec.ref r)) records.

(** The module state: the array [leaderboardRecords], and the number of
    record objects created so far. *)
Record Server : Type := {
  leaderboardRecords : list Rec.t;
  allocated : nat
}.

Definition emptyServer : Server := {| leaderboardRecords := []; allocated := 0 |}.

(** The responses: status 200 and 201 with their [data], status 400 with
    its [error]. *)
Inductive Response : Type :=
| Ok (data : list Rec.t)
| Created (data : Rec.t)
| BadRequest (error : string).

(** [GET /api/leaderboard] *)
Definition getLeaderboard (difficulty : option string) (srv : Server) : Response :=
  let records := leaderboardRecords srv in
  let records :=
    match difficulty with
    | Some d => if String.eqb d EmptyString then records else ofDifficulty d records
    | None => records
    end in
  Ok (sortByScore records).

(** The lines of the POST handler after the push: the records of the
    difficulty are sorted, and those past the third are filtered out of
    [leaderboardRecords]. *)
Definition keepTopThree (difficulty : string) (records : list Rec.t) : list Rec.t :=
  let difficultyRecords := sortByScore (ofDifficulty difficulty records) in
  if 3 <? length difficultyRecords then
    let recordsToRemove := drop 3 difficultyRecords in
    List.filter (fun r => negb (includes recordsToRemove r)) records
  else records.

(** [POST /api/leaderboard]; [now] is the clock. *)
Definition postLeaderboard (now : Z) (body : Body.t) (srv : Server)
    : Response * Server :=
  if negb (truthy (Body.difficulty body)) || isUndefined (Body.score body)
     || isUndefined (Body.time body) || isUndefined (Body.hintsUsed body)
  then (BadRequest "Missing required fields: difficulty, score, time, hintsUsed", srv)
  else
    match validDifficulty (Body.difficulty body) with
    | None => (BadRequest "Invalid difficulty level", srv)
    | Some difficulty =>
        let newRecord :=
          Rec.mk (allocated srv) (showZ now) difficulty (parseIntOf (Body.score body))
            (parseIntOf (Body.time body)) now (parseIntOf (Body.hintsUsed body)) in
        let records := leaderboardRecords srv ++ [newRecord] in
        (Created newRecord,
         {| leaderboardRecords := keepTopThree difficulty records;
            allocated := S (allocated srv) |})
    end.

(** [GET /api/leaderboard/top] *)
Definition getLeaderboardTop (difficulty : option string) (srv : Server) : Response :=
  match difficulty with
  | Some d =>
      if String.eqb d EmptyString then BadRequest "Difficulty parameter is required"
      else Ok (take 3 (sortByScore (ofDifficulty d (leaderboardRecords srv))))
  | None => BadRequest "Difficulty parameter is required"
  end.

Inductive Request : Type :=
| GetLeaderboard (difficulty : option string)
| PostLeaderboard (now : Z) (body : Body.t)
| GetLeaderboardTop (difficulty : option string).

Definition serve (req : Request) (srv : Server) : Response * Server :=
  match req with
  | GetLeaderboard difficulty => (getLeaderboard difficulty srv, srv)
  | PostLeaderboard now body => postLeaderboard now body srv
  | GetLeaderboardTop difficulty => (getLeaderboardTop difficulty srv, srv)
  end.

(** The server after a sequence of requests. *)
Definition serveAll (reqs : list Request) (srv : Server) : Server :=
  fold_left (fun srv req => (serve req srv).2) reqs srv.

(** The test of [completeGame] on the answer of [getTopRecords]:
    [topRecords.length < 3 || score > topRecords[topRecords.length - 1].score]. *)
Definition submitsRecord (topRecords : list Rec.t) (score : Z) : bool :=
  (length topRecords <? 3)
  || match last topRecords with
     | Some r => match Rec.score r with Int y => (y <? score)%Z | NaN => false end
     | None => false
     end.

(** What holds of the store at every moment: the record objects are
    distinct and were created earlier, and no difficulty has more than
    three records. *)
Definition storeOk (srv : Server) : Prop :=
  List.NoDup (map Rec.ref (leaderboardRecords srv)) ∧
  (∀ r, In r (leaderboardRecords srv) → Rec.ref r < allocated srv) ∧
  ∀ d, length (ofDifficulty d (leaderboardRecords srv)) ≤ 3.

(** Every stored record has an integer score. *)
Definition integerScores (records : list Rec.t) : Prop :=
  ∀ r, In r records → ∃ z, Rec.score r = Int z.

(** A body as the client sends it. *)
Definition exampleBody (score : Z) : Body.t :=
  Body.mk (JString "beginner") (JNumber score) (JNumber 120) (JNumber 1).

(** A store with three beginner records, of scores 300, 450 and 300. *)
Definition exampleServer : Server :=
  serveAll [PostLeaderboard 1000 (exampleBody 300); PostLeaderboard 2000 (exampleBody 450);
            PostLeaderboard 3000 (exampleBody 300)] emptyServer.

(** The score of a record with an integer score. *)
Definition scoreZ (r : Rec.t) : Z :=
  match Rec.score r with Int z => z | NaN => 0%Z end.

(** No record is followed by one of greater score. *)
Fixpoint descending (records : list Rec.t) : Prop :=
  match records with
  | [] => True
  | a :: rest => (∀ b, In b rest → (scoreZ b ≤ scoreZ a)%Z) ∧ descending rest
  end.

(** The records a query of [GET /api/leaderboard] asks for: all of them
    when [difficulty] is missing or empty. *)
Definition asked (difficulty : option string) (r : Rec.t) : bool :=
  match difficulty with
  | Some d => if String.eqb d EmptyString then true else String.eqb (Rec.difficulty r) d
  | None => true
  end.

(** The record has the integer score [z]. *)
Definition hasScore (z : Z) (r : Rec.t) : bool :=
  match Rec.score r with Int y => (y =? z)%Z | NaN => false end.


(** * The views *)

(** ** [formatTime] of [App.vue], [GameCompleteModal.vue] and
    [Leaderboard.vue] *)

Fixpoint zeros (n : nat) : string :=
  match n with
  | 0 => EmptyString
  | S n => String "0" (zeros n)
  end.

(** [s.padStart(targetLength, '0')] *)
Definition padStart (targetLength : nat) (s : string) : string :=
  String.append (zeros (targetLength - String.length s)) s.

(** [formatTime(seconds)] for an integer number of seconds:
    [Math.floor(seconds / 60)] rounds down and [seconds % 60] has the sign
    of [seconds]. *)
Definition formatTime (seconds : Z) : string :=
  let mins := (seconds / 60)%Z in
  let secs := Z.rem seconds 60 in
  String.append (padStart 2 (showZ mins)) (String ":" (padStart 2 (showZ secs))).

(** ** [SudokuGrid.vue] *)

Section SudokuGridView.
(** The props of the component. *)
Variables (board puzzle : SudokuGrid) (invalidCells : list string).

Definition isCellInvalid (row col : nat) : bool :=
  existsb (String.eqb (cellKey row col)) invalidCells.

Definition isRowComplete (row : nat) : bool :=
  forallb (fun col => negb (cellNull board row col)) (seq 0 9).

Definition isColumnComplete (col : nat) : bool :=
  forallb (fun row => negb (cellNull board row col)) (seq 0 9).

Definition isBoxComplete (row col : nat) : bool :=
  let boxRow := row / 3 * 3 in
  let boxCol := col / 3 * 3 in
  forallb (fun r => forallb (fun c => negb (cellNull board r c)) (seq boxCol 3))
    (seq boxRow 3).

(** [classes.push(...)] under each of the five tests, in their order. *)
Definition getCellClasses (row col : nat) : list string :=
  let classes : list string := [] in
  let classes :=
    if negb (cellNull puzzle row col) then classes ++ ["original-cell"%string]
    else classes in
  let classes :=
    if isCellInvalid row col then classes ++ ["invalid-cell"%string] else classes in
  let classes :=
    if isRowComplete row then classes ++ ["row-complete"%string] else classes in
  let classes :=
    if isColumnComplete col then classes ++ ["column-complete"%string] else classes in
  let classes :=
    if isBoxComplete row col then classes ++ ["box-complete"%string] else classes in
  classes.
End SudokuGridView.

(** The classes of a cell with the props that [App.vue] passes: the board
    and the puzzle of the game state, and the computed [invalidCells]. *)
Definition cellClasses (s : GameState) (row col : nat) : list string :=
  getCellClasses (board s) (puzzle s) (getInvalidCells (board s)) row col.

(** The example session with cell (0,0) filled in: one blank is left. *)
Definition oneBlankState : GameState := setBoard (setCell solvedExample 8 8 None) exampleState.

(** The Hint button pressed at the instants [nows], one after the other. *)
Definition pressHint (nows : list Z) (s : GameState) : GameState :=
  fold_left (fun s now => handleHint now s) nows s.

(** The visible count that [generateSudokuPuzzle] draws: the value of
    [Math.floor(Math.random() * (maxVisible - minVisible + 1) + minVisible)],
    for the call of [Math.random()] that follows those of
    [generateSolvedGrid]. *)
Definition drawnVisible (difficulty : Difficulty) (rnd : Random) (k : nat) : Z :=
  let config := DIFFICULTY_CONFIGS difficulty in
  Math_floor (rnd (generateSolvedGrid rnd k).2
              * floatOfZ (maxVisible config - minVisible config + 1)
              + floatOfZ (minVisible config)).

(** * Properties *)

(** ** Basic facts on grids *)

Section GridFacts.
Context (grid : SudokuGrid).

Lemma row_length row r : is9x9 grid → grid !! row = Some r → length r = 9.
Proof. intros [_ Hrows] E. exact (Forall_lookup_1 _ _ _ _ Hrows E). Qed.

Lemma cellAt_is_Some row col :
  is9x9 grid → row < 9 → col < 9 → ∃ v, cellAt grid row col = Some v.
Proof.
  intros Hwf Hr Hc. unfold cellAt.
  destruct (grid !! row) as [r|] eqn:E.
  - pose proof (row_length _ _ Hwf E) as Hl.
    destruct (r !! col) as [v|] eqn:E2; [eauto|].
    apply lookup_ge_None in E2. lia.
  - apply lookup_ge_None in E. destruct Hwf. lia.
Qed.

Lemma cellAt_setCell_same row col v :
  is9x9 grid → row < 9 → col < 9 →
  cellAt (setCell grid row col v) row col = Some v.
Proof.
  intros Hwf Hr Hc. unfold cellAt, setCell.
  rewrite list_lookup_alter_eq.
  destruct (grid !! row) as [r|] eqn:E; simpl.
  - apply list_lookup_insert_eq.
    rewrite (row_length _ _ Hwf E). lia.
  - apply lookup_ge_None in E. destruct Hwf. lia.
Qed.

Lemma cellAt_setCell_other row col v row' col' :
  (row, col) ≠ (row', col') →
  cellAt (setCell grid row col v) row' col' = cellAt grid row' col'.
Proof.
  intros Hne. unfold cellAt, setCell.
  destruct (decide (row = row')) as [->|Hr].
  - rewrite list_lookup_alter_eq.
    destruct (grid !! row') as [r|]; simpl; [|done].
    apply list_lookup_insert_ne. congruence.
  - by rewrite list_lookup_alter_ne.
Qed.

Lemma is9x9_setCell row col v : is9x9 grid → is9x9 (setCell grid row col v).
Proof.
  intros Hwf. pose proof Hwf as [Hlen Hrows]. unfold setCell. split.
  - by rewrite length_alter.
  - apply Forall_lookup_2. intros i r Hi.
    destruct (decide (row = i)) as [->|Hne].
    + rewrite list_lookup_alter_eq in Hi.
      destruct (grid !! i) as [r0|] eqn:E; simpl in Hi; [|done].
      injection Hi as <-. rewrite length_insert.
      by apply (row_length i).
    + rewrite list_lookup_alter_ne in Hi by done.
      by apply (row_length i).
Qed.

Lemma setCell_setCell row col v w :
  setCell (setCell grid row col v) row col w = setCell grid row col w.
Proof.
  unfold setCell. rewrite list_alter_alter_eq.
  apply list_alter_ext; [|done]. intros r _. simpl.
  apply list_insert_insert_eq.
Qed.

Lemma setCell_id row col v :
  cellAt grid row col = Some v → setCell grid row col v = grid.
Proof.
  unfold cellAt, setCell. intros H.
  destruct (grid !! row) as [r|] eqn:E; [|done].
  apply list_eq. intros i.
  destruct (decide (row = i)) as [->|Hne].
  - rewrite list_lookup_alter_eq, E. simpl. by rewrite list_insert_id.
  - by rewrite list_lookup_alter_ne.
Qed.
End GridFacts.

(** ** The unit relation and the checker's meaning *)

Lemma sameUnit_sym r c r' c' : sameUnit r c r' c' → sameUnit r' c' r c.
Proof. unfold sameUnit. intuition congruence. Qed.

Lemma existsb_seq_false (f : nat → bool) a n :
  existsb f (seq a n) = false ↔ ∀ x, a ≤ x < a + n → f x = false.
Proof.
  split.
  - intros H x Hx. destruct (f x) eqn:E; [|done].
    assert (existsb f (seq a n) = true) as Ht; [|congruence].
    apply existsb_exists. exists x. split; [|done]. apply in_seq. lia.
  - intros H. destruct (existsb f (seq a n)) eqn:E; [|done].
    apply existsb_exists in E as (x & Hin & Hfx).
    apply in_seq in Hin. rewrite H in Hfx by lia. done.
Qed.

Lemma existsb_seq_true (f : nat → bool) a n :
  existsb f (seq a n) = true ↔ ∃ x, a ≤ x < a + n ∧ f x = true.
Proof.
  rewrite existsb_exists. split; intros (x & Hx & Hf); exists x; split; try done;
    apply in_seq; apply Hx || (apply in_seq in Hx; lia).
Qed.

Lemma box_offset r r' : r / 3 = r' / 3 ↔ ∃ i, i < 3 ∧ r' = r / 3 * 3 + i.
Proof.
  split.
  - intros H. exists (r' mod 3). lia.
  - intros (i & Hi & ->). lia.
Qed.

Lemma isValidMove_true grid row col num :
  row < 9 → col < 9 →
  isValidMove grid row col num = true ↔
  ∀ r' c', r' < 9 → c' < 9 → sameUnit row col r' c' → cellEq grid r' c' num = false.
Proof.
  intros Hr Hc. unfold isValidMove. split.
  - intros H r' c' Hr' Hc' Hu.
    destruct (existsb _ (seq 0 9)) eqn:E1; [done|].
    destruct (existsb (fun x => cellEq grid x col num) _) eqn:E2; [done|].
    destruct (existsb _ (seq 0 3)) eqn:E3; [done|].
    rewrite existsb_seq_false in E1, E2, E3.
    destruct Hu as [<-|[<-|[Hb1 Hb2]]].
    + apply E1. lia.
    + apply E2. lia.
    + apply box_offset in Hb1 as (i & Hi & ->).
      apply box_offset in Hb2 as (j & Hj & ->).
      specialize (E3 i ltac:(lia)). rewrite existsb_seq_false in E3.
      apply E3. lia.
  - intros H.
    assert (existsb (fun x => cellEq grid row x num) (seq 0 9) = false) as ->.
    { apply existsb_seq_false. intros x Hx. apply H; [lia..|]. by left. }
    assert (existsb (fun x => cellEq grid x col num) (seq 0 9) = false) as ->.
    { apply existsb_seq_false. intros x Hx. apply H; [lia..|]. right. by left. }
    match goal with |- (if ?b then _ else _) = _ => assert (b = false) as -> end; [|done].
    apply existsb_seq_false. intros i Hi.
    apply existsb_seq_false. intros j Hj.
    apply H; [lia..|]. right. right. split; apply box_offset; eexists; split; try reflexivity; lia.
Qed.

Lemma isValidMove_false grid row col num :
  row < 9 → col < 9 →
  isValidMove grid row col num = false →
  ∃ r' c', r' < 9 ∧ c' < 9 ∧ sameUnit row col r' c' ∧ cellEq grid r' c' num = true.
Proof.
  intros Hr Hc. unfold isValidMove.
  destruct (existsb _ (seq 0 9)) eqn:E1.
  { apply existsb_seq_true in E1 as (x & Hx & Hf). intros _.
    exists row, x. repeat split; [lia..| by left | done]. }
  destruct (existsb (fun x => cellEq grid x col num) _) eqn:E2.
  { apply existsb_seq_true in E2 as (x & Hx & Hf). intros _.
    exists x, col. repeat split; [lia..| right; by left | done]. }
  destruct (existsb _ (seq 0 3)) eqn:E3; [|done].
  apply existsb_seq_true in E3 as (i & Hi & E3).
  apply existsb_seq_true in E3 as (j & Hj & Hf). intros _.
  exists (row / 3 * 3 + i), (col / 3 * 3 + j).
  repeat split; [lia..| | done].
  right. right. split; apply box_offset; eexists; split; try reflexivity; lia.
Qed.

(** A cell that holds [Int v] makes the checker reject [Int v] at that very
    cell: the scans of the row, the column and the box all visit
    [(row, col)] itself. *)
Lemma isValidMove_own_cell grid row col v :
  row < 9 → col < 9 →
  cellAt grid row col = Some (Some (Int v)) →
  isValidMove grid row col (Int v) = false.
Proof.
  intros Hr Hc Hv.
  destruct (isValidMove grid row col (Int v)) eqn:E; [|done].
  rewrite isValidMove_true in E by done.
  specialize (E row col Hr Hc (or_introl eq_refl)).
  unfold cellEq in E. rewrite Hv in E. simpl in E.
  by rewrite Z.eqb_refl in E.
Qed.

(** ** Facts on cells and the scan order *)

Lemma in_allCells r c : In (r, c) allCells ↔ r < 9 ∧ c < 9.
Proof.
  unfold allCells. rewrite in_flat_map. split.
  - intros (x & Hx & Hin). apply in_map_iff in Hin as (y & [= <- <-] & Hy).
    apply in_seq in Hx, Hy. lia.
  - intros [Hr Hc]. exists r. split; [apply in_seq; lia|].
    apply in_map_iff. exists c. split; [done|apply in_seq; lia].
Qed.

Lemma firstEmpty_Some grid r c :
  firstEmpty grid = Some (r, c) → r < 9 ∧ c < 9 ∧ cellNull grid r c = true.
Proof.
  unfold firstEmpty. intros H. apply find_some in H as [Hin Hn].
  apply in_allCells in Hin. tauto.
Qed.

Lemma firstEmpty_None grid : firstEmpty grid = None → full grid.
Proof.
  unfold firstEmpty. intros H r c Hr Hc.
  apply (find_none _ _ H (r, c)). by apply in_allCells.
Qed.

Lemma cellNull_setCell_other grid row col v r c :
  (row, col) ≠ (r, c) → cellNull (setCell grid row col v) r c = cellNull grid r c.
Proof. intros H. unfold cellNull. by rewrite cellAt_setCell_other. Qed.

Lemma cellEq_setCell_other grid row col v r c num :
  (row, col) ≠ (r, c) → cellEq (setCell grid row col v) r c num = cellEq grid r c num.
Proof. intros H. unfold cellEq. by rewrite cellAt_setCell_other. Qed.

Lemma cellNull_true grid r c : cellNull grid r c = true ↔ cellAt grid r c = Some None.
Proof.
  unfold cellNull. destruct (cellAt grid r c) as [[?|]|]; split; congruence.
Qed.

Lemma filter_length_lt {A} (f f' : A → bool) (l : list A) (x0 : A) :
  (∀ x, In x l → f' x = true → f x = true) →
  In x0 l → f x0 = true → f' x0 = false →
  length (List.filter f' l) < length (List.filter f l).
Proof.
  intros Himp Hin Hf Hf'.
  assert (∀ l', (∀ x, In x l' → f' x = true → f x = true) →
            length (List.filter f' l') ≤ length (List.filter f l')) as Hle.
  { induction l' as [|a l' IH]; intros H; simpl; [lia|].
    destruct (f' a) eqn:E.
    - rewrite (H a (or_introl eq_refl) E). simpl.
      apply le_n_S, IH. intros; apply H; auto. by right.
    - destruct (f a); simpl; [apply Nat.le_le_succ_r|]; apply IH; intros; apply H; auto;
        by right. }
  induction l as [|a l IH]; [done|]. simpl.
  destruct Hin as [->|Hin].
  - rewrite Hf, Hf'. simpl. apply Nat.lt_succ_r, Hle.
    intros; apply Himp; auto. by right.
  - assert (length (List.filter f' l) < length (List.filter f l)) as Hlt.
    { apply IH; auto. intros; apply Himp; auto. by right. }
    destruct (f' a) eqn:E.
    + rewrite (Himp a (or_introl eq_refl) E). simpl. lia.
    + destruct (f a); simpl; lia.
Qed.

Lemma empties_setCell grid row col v :
  is9x9 grid → row < 9 → col < 9 → cellNull grid row col = true →
  empties (setCell grid row col (Some v)) < empties grid.
Proof.
  intros Hwf Hr Hc Hn. unfold empties.
  apply (filter_length_lt _ _ _ (row, col)).
  - intros [r c] _. destruct (decide ((row, col) = (r, c))) as [[= <- <-]|Hne].
    + unfold cellNull. by rewrite cellAt_setCell_same.
    + by rewrite cellNull_setCell_other.
  - by apply in_allCells.
  - done.
  - unfold cellNull. by rewrite cellAt_setCell_same.
Qed.

Lemma empties_bound grid : empties grid < solveFuel.
Proof.
  unfold empties, solveFuel.
  pose proof (filter_length_le (fun '(row, col) => cellNull grid row col) allCells) as H.
  change (length allCells) with 81 in H. lia.
Qed.

(** ** Placement order does not matter *)

Lemma Placed_is9x9 g h : Placed g h → is9x9 g → is9x9 h.
Proof. induction 1; auto using is9x9_setCell. Qed.

Lemma Fits_refl h : is9x9 h → full h → Fits h h.
Proof.
  intros Hwf Hfull. split; [done|]. split; [done|]. split; [auto|].
  intros r c Hr Hc Hn. rewrite Hfull in Hn by done. done.
Qed.

Lemma cellEq_true grid r c num :
  cellEq grid r c num = true → ∃ v, cellAt grid r c = Some (Some v) ∧ strictEq v num = true.
Proof.
  unfold cellEq. destruct (cellAt grid r c) as [[v|]|]; try done. eauto.
Qed.

(** Undoing the first placement of a solution keeps it a solution: the
    digit placed first is checked against the later ones when they are
    placed, since sharing a unit is symmetric. *)
Lemma Fits_unplace g row col n h :
  is9x9 g → row < 9 → col < 9 →
  cellNull g row col = true → In n digits →
  isValidMove g row col (Int n) = true →
  Fits (setCell g row col (Some (Int n))) h → Fits g h.
Proof.
  intros Hwf Hr Hc Hnull Hn Hvalid (Hwfh & Hfull & Hkeep & Hnew).
  assert (cellAt h row col = Some (Some (Int n))) as Hh.
  { apply Hkeep; auto. by apply cellAt_setCell_same. }
  split; [done|]. split; [done|]. split.
  - intros r c v Hr' Hc' Hv. apply Hkeep; auto.
    rewrite cellAt_setCell_other; [done|].
    intros [= <- <-]. apply cellNull_true in Hnull. congruence.
  - intros r c Hr' Hc' Hnull'.
    destruct (decide ((row, col) = (r, c))) as [[= <- <-]|Hne].
    + exists n. split; [done|]. split; [done|].
      intros r' c' Hr'' Hc'' Hne Hunit.
      destruct (cellEq h r' c' (Int n)) eqn:E; [|done].
      destruct (cellNull g r' c') eqn:En.
      * destruct (Hnew r' c') as (n' & _ & Hv' & Hfree); auto.
        { rewrite cellNull_setCell_other; [done|congruence]. }
        apply cellEq_true in E as (v & Hv & Heq). rewrite Hv' in Hv.
        injection Hv as <-. simpl in Heq. apply Z.eqb_eq in Heq as ->.
        specialize (Hfree row col Hr Hc ltac:(congruence) (sameUnit_sym _ _ _ _ Hunit)).
        unfold cellEq in Hfree. rewrite Hh in Hfree. simpl in Hfree.
        by rewrite Z.eqb_refl in Hfree.
      * destruct (cellAt_is_Some g r' c' Hwf Hr'' Hc'') as [[v|] Hv].
        -- rewrite isValidMove_true in Hvalid by done.
           specialize (Hvalid r' c' Hr'' Hc'' Hunit).
           assert (cellAt h r' c' = Some (Some v)) as Hhv.
           { apply Hkeep; auto. rewrite cellAt_setCell_other; [done|congruence]. }
           unfold cellEq in *. rewrite Hv in Hvalid. rewrite Hhv in E. congruence.
        -- apply cellNull_true in Hv. congruence.
    + apply Hnew; auto. by rewrite cellNull_setCell_other.
Qed.

Lemma Placed_Fits g h : Placed g h → is9x9 g → full h → Fits g h.
Proof.
  induction 1 as [g|g row col n h Hr Hc Hnull Hn Hvalid Hp IH]; intros Hwf Hfull.
  - by apply Fits_refl.
  - apply (Fits_unplace g row col n); auto. apply IH; auto using is9x9_setCell.
Qed.

(** Conversely, fixing one empty cell to the digit it has in a solution
    leaves a grid of which this is still a solution. *)
Lemma Fits_place g row col n h :
  is9x9 g → row < 9 → col < 9 →
  cellAt h row col = Some (Some (Int n)) →
  Fits g h → Fits (setCell g row col (Some (Int n))) h.
Proof.
  intros Hwf Hr Hc Hh (Hwfh & Hfull & Hkeep & Hnew).
  split; [done|]. split; [done|]. split.
  - intros r c v Hr' Hc' Hv.
    destruct (decide ((row, col) = (r, c))) as [[= <- <-]|Hne].
    + rewrite cellAt_setCell_same in Hv by done. congruence.
    + rewrite cellAt_setCell_other in Hv by done. auto.
  - intros r c Hr' Hc' Hnull'.
    destruct (decide ((row, col) = (r, c))) as [[= <- <-]|Hne].
    + unfold cellNull in Hnull'. by rewrite cellAt_setCell_same in Hnull'.
    + rewrite cellNull_setCell_other in Hnull' by done. auto.
Qed.

(** The digit a solution has at an empty cell passes the checker there. *)
Lemma Fits_valid g row col n h :
  row < 9 → col < 9 → cellNull g row col = true →
  cellAt h row col = Some (Some (Int n)) →
  Fits g h → isValidMove g row col (Int n) = true.
Proof.
  intros Hr Hc Hnull Hh (Hwfh & Hfull & Hkeep & Hnew).
  apply isValidMove_true; auto. intros r' c' Hr' Hc' Hunit.
  destruct (cellEq g r' c' (Int n)) eqn:E; [|done].
  apply cellEq_true in E as (v & Hv & Heq).
  assert ((r', c') ≠ (row, col)) as Hne.
  { intros [= -> ->]. apply cellNull_true in Hnull. congruence. }
  destruct (Hnew row col Hr Hc Hnull) as (n' & _ & Hv' & Hfree).
  rewrite Hh in Hv'. injection Hv' as <-.
  specialize (Hfree r' c' Hr' Hc' Hne Hunit).
  unfold cellEq in Hfree. rewrite (Hkeep r' c' v Hr' Hc' Hv) in Hfree. congruence.
Qed.

(** ** Correctness of the search *)

Lemma tryDigits_spec recur row col g :
  is9x9 g → row < 9 → col < 9 → cellNull g row col = true →
  (∀ g1, is9x9 g1 → empties g1 < empties g → solvePost g1 (recur g1)) →
  ∀ nums, (∀ n, In n nums → In n digits) →
    (∃ g', tryDigits recur row col nums g = Some (true, g') ∧ Completes g g') ∨
    (tryDigits recur row col nums g = Some (false, g) ∧
     ∀ h n, In n nums → Fits g h → cellAt h row col ≠ Some (Some (Int n))).
Proof.
  intros Hwf Hr Hc Hnull Hrec nums.
  induction nums as [|num rest IH]; intros Hsub; simpl.
  - right. split; [done|]. intros h n [].
  - assert (∀ n, In n rest → In n digits) as Hsub' by (intros; apply Hsub; by right).
    destruct (isValidMove g row col (Int num)) eqn:Hvalid.
    + destruct (Hrec (setCell g row col (Some (Int num))))
        as [(g' & -> & Hp & Hfull)|[-> Hno]].
      { by apply is9x9_setCell. }
      { by apply empties_setCell. }
      * left. exists g'. split; [done|]. split; [|done].
        apply (Placed_step g row col num); auto. apply Hsub. by left.
      * rewrite setCell_setCell, (setCell_id g) by (by apply cellNull_true).
        destruct (IH Hsub') as [?|[Heq Hnone]]; [by left|]. right. split; [done|].
        intros h n [<-|Hin] Hfit Hh; [|by apply (Hnone h n)].
        apply (Hno h). by apply Fits_place.
    + destruct (IH Hsub') as [?|[Heq Hnone]]; [by left|]. right. split; [done|].
      intros h n [<-|Hin] Hfit Hh; [|by apply (Hnone h n)].
      rewrite (Fits_valid g row col num h) in Hvalid; done.
Qed.

Lemma solveGrid_spec fuel : ∀ g,
  is9x9 g → empties g < fuel → solvePost g (solveGrid fuel g).
Proof.
  induction fuel as [|fuel IH]; intros g Hwf Hlt; [lia|]. simpl.
  destruct (firstEmpty g) as [[row col]|] eqn:E.
  - apply firstEmpty_Some in E as (Hr & Hc & Hnull).
    destruct (tryDigits_spec (solveGrid fuel) row col g Hwf Hr Hc Hnull) with (nums := digits)
      as [?|[Heq Hnone]].
    + intros g1 Hwf1 Hlt1. apply IH; [done|lia].
    + done.
    + by left.
    + right. split; [done|]. intros h Hfit.
      pose proof Hfit as (_ & _ & _ & Hnew).
      destruct (Hnew row col Hr Hc Hnull) as (n & Hn & Hv & _).
      by apply (Hnone h n).
  - left. exists g. split; [done|]. split; [constructor|by apply firstEmpty_None].
Qed.

(** [solveGrid] always returns within [solveFuel] steps of recursion depth. *)
Lemma solveGrid_fuel grid fuel :
  is9x9 grid → solveFuel ≤ fuel → ∃ b grid', solveGrid fuel grid = Some (b, grid').
Proof.
  intros Hwf Hfuel.
  destruct (solveGrid_spec fuel grid Hwf) as [(g' & -> & _)|[-> _]]; eauto.
  pose proof (empties_bound grid). lia.
Qed.

(** ** Example grids are well formed *)

Lemma is9x9_solvedExample : is9x9 solvedExample.
Proof. split; [reflexivity|]. repeat constructor. Qed.

Lemma is9x9_incompleteExample : is9x9 incompleteExample.
Proof. split; [reflexivity|]. repeat constructor. Qed.

(** ** C1: the checker and a cell's own content *)

(** C1 (as stated, refuted): cell (0,0) of the solved example grid holds 5,
    and [isValidMove] rejects 5 at (0,0): the cell's own content is not
    ignored. *)
Lemma isValidMove_own_value_rejected :
  cellAt solvedExample 0 0 = Some (Some (Int 5)) ∧
  (1 ≤ 5 ≤ 9)%Z ∧
  isValidMove solvedExample 0 0 (Int 5) = false.
Proof. split; [reflexivity|]. split; [lia|reflexivity]. Qed.

(** C1 (amended): for every 9x9 grid and every cell (row, col) holding a
    value v, [isValidMove grid row col v] is false, because the row, column
    and box scans visit the cell itself.  The cell's content is left out of
    the check only once the caller has blanked the cell (as [updateCell]
    does on a copy): on the blanked grid the check is true exactly when no
    other cell of the row, column or box holds v. *)
Theorem isValidMove_own_content grid row col v :
  is9x9 grid → row < 9 → col < 9 →
  cellAt grid row col = Some (Some (Int v)) →
  isValidMove grid row col (Int v) = false ∧
  (isValidMove (setCell grid row col None) row col (Int v) = true ↔
   ∀ r' c', r' < 9 → c' < 9 → (r', c') ≠ (row, col) →
     sameUnit row col r' c' → cellEq grid r' c' (Int v) = false).
Proof.
  intros Hwf Hr Hc Hv. split; [by apply isValidMove_own_cell|].
  rewrite isValidMove_true by done. split.
  - intros H r' c' Hr' Hc' Hne Hu.
    rewrite <- (cellEq_setCell_other grid row col None) by congruence. auto.
  - intros H r' c' Hr' Hc' Hu.
    destruct (decide ((row, col) = (r', c'))) as [[= <- <-]|Hne].
    + unfold cellEq. by rewrite cellAt_setCell_same.
    + rewrite cellEq_setCell_other by done. apply H; auto.
Qed.

Lemma isValidMove_own_content_witness :
  isValidMove solvedExample 0 0 (Int 5) = false ∧
  (isValidMove (setCell solvedExample 0 0 None) 0 0 (Int 5) = true ↔
   ∀ r' c', r' < 9 → c' < 9 → (r', c') ≠ (0, 0) →
     sameUnit 0 0 r' c' → cellEq solvedExample r' c' (Int 5) = false).
Proof.
  apply (isValidMove_own_content solvedExample 0 0 5).
  - split; [reflexivity|repeat constructor].
  - lia.
  - lia.
  - reflexivity.
Defined.

(** ** C3: the solver decides solvability and restores the grid *)

(** C3: given enough fuel for the recursion depth (82 suffices for every
    9x9 grid), [solveGrid] returns false and leaves the grid exactly as
    given when the grid has no completion, and returns true with a
    completion of the grid (every cell filled, each digit placed into an
    empty cell having been accepted by [isValidMove] when it was placed)
    when one exists. *)
Theorem solveGrid_correct grid fuel :
  is9x9 grid → solveFuel ≤ fuel →
  ((¬ ∃ solved, Completes grid solved) →
     solveGrid fuel grid = Some (false, grid)) ∧
  ((∃ solved, Completes grid solved) →
     ∃ grid', solveGrid fuel grid = Some (true, grid') ∧ Completes grid grid').
Proof.
  intros Hwf Hfuel.
  assert (empties grid < fuel) as Hlt by (pose proof (empties_bound grid); lia).
  destruct (solveGrid_spec fuel grid Hwf Hlt) as [(g' & Heq & Hc)|[Heq Hno]].
  - split; [|eauto]. intros Hnone. destruct Hnone. eauto.
  - split; [done|]. intros (h & Hp & Hfull).
    destruct (Hno h). by apply Placed_Fits.
Qed.

Lemma solveGrid_correct_witness :
  ((¬ ∃ solved, Completes incompleteExample solved) →
     solveGrid 82 incompleteExample = Some (false, incompleteExample)) ∧
  ((∃ solved, Completes incompleteExample solved) →
     ∃ grid', solveGrid 82 incompleteExample = Some (true, grid') ∧
              Completes incompleteExample grid').
Proof.
  apply (solveGrid_correct incompleteExample 82).
  - split; [reflexivity|repeat constructor].
  - unfold solveFuel. lia.
Defined.

(** ** The invalid-cell scan *)

Lemma dedupe_fold l : ∀ acc,
  NoDup acc →
  NoDup (fold_left (fun acc x => if decide (x ∈ acc) then acc else acc ++ [x]) l acc) ∧
  ∀ x : string,
    In x (fold_left (fun acc x => if decide (x ∈ acc) then acc else acc ++ [x]) l acc) ↔
    In x acc ∨ In x l.
Proof.
  induction l as [|a l IH]; intros acc Hnd; simpl.
  - split; [done|]. tauto.
  - destruct (decide (a ∈ acc)) as [Hin|Hnin].
    + destruct (IH acc Hnd) as [H1 H2]. split; [done|]. intros x. rewrite H2.
      apply list_elem_of_In in Hin. split; [tauto|]. intros [?|[<-|?]]; tauto.
    + assert (NoDup (acc ++ [a])) as Hnd'.
      { apply NoDup_app. split; [done|]. split; [|apply NoDup_singleton].
        intros x Hx Hxa. apply list_elem_of_singleton in Hxa as ->. done. }
      destruct (IH _ Hnd') as [H1 H2]. split; [done|]. intros x. rewrite H2.
      rewrite in_app_iff. simpl. tauto.
Qed.

Lemma NoDup_dedupe l : NoDup (dedupe l).
Proof. apply dedupe_fold. constructor. Qed.

Lemma In_dedupe l x : In x (dedupe l) ↔ In x l.
Proof.
  unfold dedupe. destruct (dedupe_fold l [] (NoDup_nil_2)) as [_ H].
  rewrite H. simpl. tauto.
Qed.

Lemma In_markAll board unit v key :
  In key (markAll board unit v) ↔
  ∃ r c, In (r, c) unit ∧ key = cellKey r c ∧ cellEq board r c v = true.
Proof.
  unfold markAll. rewrite in_map_iff. split.
  - intros ([r c] & <- & Hin). apply filter_In in Hin as [Hin Heq]. eauto.
  - intros (r & c & Hin & -> & Heq). exists (r, c). split; [done|].
    apply filter_In. done.
Qed.

Lemma scanCells_spec board unit cells : ∀ seen inv key,
  In key (scanCells board unit cells seen inv) ↔
  In key inv ∨ ∃ v, triggers board cells seen v ∧ In key (markAll board unit v).
Proof.
  induction cells as [|[r c] rest IH]; intros seen inv key; simpl.
  - split; [tauto|]. intros [?|(v & [] & _)]; done.
  - destruct (cellAt board r c) as [[v0|]|]; [|apply IH..].
    destruct (decide (v0 ∈ seen)) as [Hin|Hnin]; rewrite IH.
    + rewrite in_app_iff. split.
      * intros [[?|Hm]|(v & Ht & Hm)]; [by left|right..].
        -- exists v0. split; [by left|done].
        -- exists v. split; [right|done].
           by rewrite (subseteq_union_1_L {[v0]} seen) by (by apply singleton_subseteq_l).
      * intros [?|(v & [[-> Hv]|Ht] & Hm)]; [tauto|tauto|].
        right. exists v. split; [|done].
        by rewrite (subseteq_union_1_L {[v0]} seen) in Ht by (by apply singleton_subseteq_l).
    + split.
      * intros [?|(v & Ht & Hm)]; [by left|]. right. exists v. tauto.
      * intros [?|(v & [[-> Hv]|Ht] & Hm)]; [by left|done|]. right. eauto.
Qed.

Lemma triggers_spec board cells :
  NoDup cells → ∀ seen v,
  triggers board cells seen v ↔
  (v ∈ seen ∧ ∃ p, In p cells ∧ cellAt board p.1 p.2 = Some (Some v)) ∨
  (∃ p q, In p cells ∧ In q cells ∧ p ≠ q ∧
     cellAt board p.1 p.2 = Some (Some v) ∧ cellAt board q.1 q.2 = Some (Some v)).
Proof.
  induction 1 as [|[r c] rest Hnin Hnd IH]; intros seen v; simpl.
  - split; [done|]. intros [(_ & p & [] & _)|(p & q & [] & _)].
  - rewrite list_elem_of_In in Hnin.
    destruct (cellAt board r c) as [[v0|]|] eqn:E.
    + rewrite IH. split.
      * intros [[-> Hv]|[[Hv (p & Hp & Hpv)]|(p & q & Hp & Hq & Hne & Hpv & Hqv)]].
        -- left. split; [done|]. exists (r, c). split; [by left|done].
        -- apply elem_of_union in Hv as [Hv|Hv].
           ++ apply elem_of_singleton in Hv as ->. right.
              exists (r, c), p. repeat split; auto.
              intros <-. done.
           ++ left. split; [done|]. exists p. split; [by right|done].
        -- right. exists p, q. repeat split; auto.
      * intros [[Hv (p & [<-|Hp] & Hpv)]|(p & q & [<-|Hp] & [<-|Hq] & Hne & Hpv & Hqv)].
        -- simpl in Hpv. left. split; [congruence|done].
        -- right. left. split; [by apply elem_of_union_r|eauto].
        -- done.
        -- simpl in Hpv. right. left. split; [|eauto].
           assert (v0 = v) as -> by congruence. by apply elem_of_union_l, elem_of_singleton.
        -- simpl in Hqv. right. left. split; [|eauto].
           assert (v0 = v) as -> by congruence. by apply elem_of_union_l, elem_of_singleton.
        -- right. right. exists p, q. repeat split; auto.
    + rewrite IH. split.
      * intros [[Hv (p & Hp & Hpv)]|(p & q & Hp & Hq & Hne & Hpv & Hqv)].
        -- left. split; [done|]. exists p. split; [by right|done].
        -- right. exists p, q. repeat split; auto.
      * intros [[Hv (p & [<-|Hp] & Hpv)]|(p & q & [<-|Hp] & [<-|Hq] & Hne & Hpv & Hqv)];
          simpl in *; try congruence.
        -- left. eauto.
        -- right. exists p, q. repeat split; auto.
    + rewrite IH. split.
      * intros [[Hv (p & Hp & Hpv)]|(p & q & Hp & Hq & Hne & Hpv & Hqv)].
        -- left. split; [done|]. exists p. split; [by right|done].
        -- right. exists p, q. repeat split; auto.
      * intros [[Hv (p & [<-|Hp] & Hpv)]|(p & q & [<-|Hp] & [<-|Hq] & Hne & Hpv & Hqv)];
          simpl in *; try congruence.
        -- left. eauto.
        -- right. exists p, q. repeat split; auto.
Qed.

Lemma scanUnit_spec board unit inv key :
  NoDup unit →
  In key (scanUnit board unit inv) ↔ In key inv ∨ unitFlags board unit key.
Proof.
  intros Hnd. unfold scanUnit. rewrite scanCells_spec.
  apply or_iff_compat_l. unfold unitFlags. split.
  - intros (v & Ht & Hm).
    apply In_markAll in Hm as (r & c & Hin & -> & Heq).
    apply (triggers_spec board unit Hnd) in Ht as [[Hv _]|(p & q & Hp & Hq & Hne & Hpv & Hqv)];
      [by apply not_elem_of_empty in Hv|].
    exists r, c. split; [done|]. split; [done|].
    pose proof Heq as Heq'. apply cellEq_true in Heq' as (w & Hw & Hs).
    assert (w = v) as ->.
    { destruct w, v; simpl in Hs; try done. apply Z.eqb_eq in Hs. by subst. }
    assert (∀ x : nat * nat, cellAt board x.1 x.2 = Some (Some v) →
              cellEq board x.1 x.2 v = true) as Hval.
    { intros x Hx. unfold cellEq in *. rewrite Hx. by rewrite Hw in Heq. }
    destruct (decide (p = (r, c))) as [->|Hpne].
    + destruct q as [r' c']. exists r', c'. split; [done|]. split; [congruence|].
      exists v. split; [done|]. by apply (Hval (r', c')).
    + destruct p as [r' c']. exists r', c'. split; [done|]. split; [done|].
      exists v. split; [done|]. by apply (Hval (r', c')).
  - intros (r & c & Hin & -> & r' & c' & Hin' & Hne & v & Hv & Heq).
    pose proof Heq as Heq'. apply cellEq_true in Heq' as (w & Hw & Hs).
    assert (w = v) as ->.
    { destruct w, v; simpl in Hs; try done. apply Z.eqb_eq in Hs. by subst. }
    exists v. split.
    + apply (triggers_spec board unit Hnd). right.
      exists (r, c), (r', c'). repeat split; auto.
    + apply In_markAll. exists r, c. split; [done|]. split; [done|].
      unfold cellEq in *. rewrite Hv. by rewrite Hw in Heq.
Qed.

Lemma fold_scan_spec {A} (step : list string → A → list string)
    (P : A → string → Prop) (us : list A) :
  (∀ u inv key, In u us → In key (step inv u) ↔ In key inv ∨ P u key) →
  ∀ inv key,
    In key (fold_left step us inv) ↔ In key inv ∨ ∃ u, In u us ∧ P u key.
Proof.
  induction us as [|u us IH]; intros Hstep inv key; simpl.
  - split; [tauto|]. intros [?|(u & [] & _)]; done.
  - rewrite IH by (intros; apply Hstep; by right).
    rewrite Hstep by (by left). split.
    + intros [[?|?]|(u' & Hin & HP)]; [tauto|right; exists u; tauto|right; exists u'; tauto].
    + intros [?|(u' & [<-|Hin] & HP)]; [tauto|tauto|right; exists u'; tauto].
Qed.

Lemma in_rowCells row r c : In (r, c) (rowCells row) ↔ r = row ∧ c < 9.
Proof.
  unfold rowCells. rewrite in_map_iff. split.
  - intros (x & [= <- <-] & Hx). apply in_seq in Hx. lia.
  - intros [-> Hc]. exists c. split; [done|]. apply in_seq. lia.
Qed.

Lemma in_colCells col r c : In (r, c) (colCells col) ↔ c = col ∧ r < 9.
Proof.
  unfold colCells. rewrite in_map_iff. split.
  - intros (x & [= <- <-] & Hx). apply in_seq in Hx. lia.
  - intros [-> Hc]. exists r. split; [done|]. apply in_seq. lia.
Qed.

Lemma in_boxCells boxRow boxCol r c :
  In (r, c) (boxCells boxRow boxCol) ↔ r / 3 = boxRow ∧ c / 3 = boxCol.
Proof.
  unfold boxCells. rewrite in_flat_map. split.
  - intros (x & Hx & Hin). apply in_map_iff in Hin as (y & [= <- <-] & Hy).
    apply in_seq in Hx, Hy. lia.
  - intros [<- <-]. exists r. split; [apply in_seq; lia|].
    apply in_map_iff. exists c. split; [done|]. apply in_seq; lia.
Qed.

Lemma in_allBoxes boxRow boxCol : In (boxRow, boxCol) allBoxes ↔ boxRow < 3 ∧ boxCol < 3.
Proof.
  unfold allBoxes. rewrite in_flat_map. split.
  - intros (x & Hx & Hin). apply in_map_iff in Hin as (y & [= <- <-] & Hy).
    apply in_seq in Hx, Hy. lia.
  - intros [Hr Hc]. exists boxRow. split; [apply in_seq; lia|].
    apply in_map_iff. exists boxCol. split; [done|]. apply in_seq; lia.
Qed.

Lemma NoDup_rowCells row : NoDup (rowCells row).
Proof.
  unfold rowCells. change (NoDup ((fun col => (row, col)) <$> seq 0 9)).
  apply NoDup_fmap_2_strong; [|apply NoDup_seq]. intros x y _ _. congruence.
Qed.

Lemma NoDup_colCells col : NoDup (colCells col).
Proof.
  unfold colCells. change (NoDup ((fun row => (row, col)) <$> seq 0 9)).
  apply NoDup_fmap_2_strong; [|apply NoDup_seq]. intros x y _ _. congruence.
Qed.

Lemma NoDup_boxCells boxRow boxCol :
  boxRow < 3 → boxCol < 3 → NoDup (boxCells boxRow boxCol).
Proof.
  intros Hr Hc.
  destruct boxRow as [|[|[|?]]]; [..|lia];
    (destruct boxCol as [|[|[|?]]]; [..|lia]);
    apply (bool_decide_unpack _); vm_compute; reflexivity.
Qed.

(** The keys of the cells of the 9x9 range are pairwise different. *)
Lemma cellKey_inj r c r' c' :
  r < 9 → c < 9 → r' < 9 → c' < 9 → cellKey r c = cellKey r' c' → r = r' ∧ c = c'.
Proof.
  intros Hr Hc Hr' Hc'.
  assert (∀ n, n < 9 → ∃ a, showNat n = String a EmptyString ∧ n = nat_of_ascii a - 48) as Hd.
  { intros n Hn. do 9 (destruct n as [|n]; [eexists; split; reflexivity|]). lia. }
  destruct (Hd r Hr) as (a & Ha & ->), (Hd c Hc) as (b & Hb & ->).
  destruct (Hd r' Hr') as (a' & Ha' & ->), (Hd c' Hc') as (b' & Hb' & ->).
  unfold cellKey. rewrite Ha, Hb, Ha', Hb'. simpl. intros [= -> ->]. done.
Qed.

(** What [getInvalidCells] reports before the de-duplication. *)
Lemma getInvalidCells_In board key :
  In key (getInvalidCells board) ↔
  ∃ r c, r < 9 ∧ c < 9 ∧ key = cellKey r c ∧ conflicting board r c.
Proof.
  unfold getInvalidCells. rewrite In_dedupe.
  rewrite (fold_scan_spec _ (fun '(br, bc) => unitFlags board (boxCells br bc)));
    [|intros [br bc] inv k Hin; apply in_allBoxes in Hin;
      apply scanUnit_spec, NoDup_boxCells; lia].
  rewrite (fold_scan_spec _ (fun col => unitFlags board (colCells col)));
    [|intros; apply scanUnit_spec, NoDup_colCells].
  rewrite (fold_scan_spec _ (fun row => unitFlags board (rowCells row)));
    [|intros; apply scanUnit_spec, NoDup_rowCells].
  unfold unitFlags, conflicting. split.
  - intros [[[[]|(row & Hrow & r & c & Hin & -> & r' & c' & Hin' & Hne & Hv)]
            |(col & Hcol & r & c & Hin & -> & r' & c' & Hin' & Hne & Hv)]
            |([br bc] & Hb & r & c & Hin & -> & r' & c' & Hin' & Hne & Hv)].
    + apply in_seq in Hrow. apply in_rowCells in Hin as [-> Hc], Hin' as [-> Hc'].
      exists row, c. repeat split; [lia..|].
      exists row, c'. repeat split; [lia..|done|by left|done].
    + apply in_seq in Hcol. apply in_colCells in Hin as [-> Hc], Hin' as [-> Hc'].
      exists r, col. repeat split; [lia..|].
      exists r', col. repeat split; [lia..|done|right; by left|done].
    + apply in_allBoxes in Hb. apply in_boxCells in Hin as [? ?], Hin' as [? ?].
      exists r, c. repeat split; [lia..|].
      exists r', c'. repeat split; [lia..|done|right; right; lia|done].
  - intros (r & c & Hr & Hc & -> & r' & c' & Hr' & Hc' & Hne & [<-|[<-|[Hb1 Hb2]]] & Hv).
    + left. left. right. exists r. split; [apply in_seq; lia|].
      exists r, c. split; [by apply in_rowCells|]. split; [done|].
      exists r, c'. split; [by apply in_rowCells|]. done.
    + left. right. exists c. split; [apply in_seq; lia|].
      exists r, c. split; [by apply in_colCells|]. split; [done|].
      exists r', c. split; [by apply in_colCells|]. done.
    + right. exists (r / 3, c / 3). split; [apply in_allBoxes; lia|].
      exists r, c. split; [by apply in_boxCells|]. split; [done|].
      exists r', c'. split; [apply in_boxCells; lia|]. done.
Qed.

(** The scan on the grids of the test-suite. *)
Example getInvalidCells_invalidExample :
  getInvalidCells invalidExample = ["0-0"; "0-7"; "2-0"]%string.
Proof. vm_compute. reflexivity. Qed.

Example getInvalidCells_solvedExample : getInvalidCells solvedExample = [].
Proof. vm_compute. reflexivity. Qed.

(** ** C6: the invalid-cell scan *)

(** C6: for every board, [getInvalidCells] returns a duplicate-free list
    whose members are exactly the keys of the cells of the 9x9 range that
    share their value with another cell of their row, column or box (all
    holders of a duplicated digit, each once, whatever number of units flag
    them); keys of different cells differ; and when no cell is in such a
    conflict (as on a correctly solved grid) the result is empty. *)
Theorem getInvalidCells_spec board :
  NoDup (getInvalidCells board) ∧
  (∀ key, In key (getInvalidCells board) ↔
     ∃ r c, r < 9 ∧ c < 9 ∧ key = cellKey r c ∧ conflicting board r c) ∧
  (∀ r c r' c', r < 9 → c < 9 → r' < 9 → c' < 9 →
     cellKey r c = cellKey r' c' → r = r' ∧ c = c') ∧
  ((∀ r c, r < 9 → c < 9 → ¬ conflicting board r c) → getInvalidCells board = []).
Proof.
  split; [apply NoDup_dedupe|]. split; [apply getInvalidCells_In|].
  split; [apply cellKey_inj|].
  intros Hnone. destruct (getInvalidCells board) as [|key l] eqn:E; [done|].
  assert (In key (getInvalidCells board)) as Hin by (rewrite E; by left).
  apply getInvalidCells_In in Hin as (r & c & Hr & Hc & _ & Hconf).
  destruct (Hnone r c Hr Hc Hconf).
Qed.

(** ** Frame facts of the session operations *)

Lemma completeIfDone_frame now s :
  puzzle (completeIfDone now s) = puzzle s ∧
  board (completeIfDone now s) = board s ∧
  hintsUsed (completeIfDone now s) = hintsUsed s.
Proof. unfold completeIfDone. by destruct (isComplete s && isCorrect s). Qed.

Lemma updateCell_original now row col value s :
  isOriginalCell s row col = true → updateCell now row col value s = s.
Proof. intros H. unfold updateCell. by rewrite H. Qed.

(** Past its two guards, [updateCell] writes the parsed value into the cell
    and leaves the puzzle, the other cells and the hint count alone. *)
Lemma updateCell_frame now row col value s :
  updateCell now row col value s = s ∨
  (isOriginalCell s row col = false ∧
   puzzle (updateCell now row col value s) = puzzle s ∧
   hintsUsed (updateCell now row col value s) = hintsUsed s ∧
   board (updateCell now row col value s) =
     setCell (board s) row col
       (if String.eqb value EmptyString then None else Some (parseInt value))).
Proof.
  unfold updateCell.
  destruct (isOriginalCell s row col); [by left|].
  set (numValue := if String.eqb value EmptyString then None else Some (parseInt value)).
  destruct (match numValue with Some n => numLt n 1 || numGt n 9 | None => false end);
    [by left|].
  right. split; [done|].
  match goal with |- context [completeIfDone now ?t] =>
    destruct (completeIfDone_frame now t) as (-> & -> & ->) end.
  repeat match goal with
         | |- context [if ?b then _ else _] => destruct b
         | |- context [match ?o with Some _ => _ | None => _ end] => destruct o
         end; done.
Qed.

Lemma getHint_capped s :
  (maxHints SCORING_CONFIG ≤ hintsUsed s)%Z → getHint s = (None, s).
Proof.
  intros H. unfold getHint.
  destruct (Z.leb_spec (maxHints SCORING_CONFIG) (hintsUsed s)); [done|lia].
Qed.

Lemma getHint_Some s h s' :
  getHint s = (Some h, s') →
  (hintsUsed s < maxHints SCORING_CONFIG)%Z ∧
  hintScan (board s) allCells = Some h ∧
  s' = setHintsUsed (hintsUsed s + 1)%Z
         (setScore (score s - (baseHintPenalty SCORING_CONFIG
                               + hintsUsed s * hintPenaltyIncrement SCORING_CONFIG))%Z s).
Proof.
  unfold getHint.
  destruct (Z.leb_spec (maxHints SCORING_CONFIG) (hintsUsed s)); [done|].
  destruct (hintScan (board s) allCells) as [h'|]; [|done].
  intros [= <- <-]. done.
Qed.

Lemma getHint_None s s' : getHint s = (None, s') → s' = s.
Proof.
  unfold getHint.
  destruct (maxHints SCORING_CONFIG <=? hintsUsed s)%Z; [congruence|].
  destruct (hintScan (board s) allCells); [done|congruence].
Qed.

Lemma getHint_board s : board (getHint s).2 = board s ∧ puzzle (getHint s).2 = puzzle s.
Proof.
  destruct (getHint s) as [[h|] s'] eqn:E; simpl.
  - apply getHint_Some in E as (_ & _ & ->). done.
  - by apply getHint_None in E as ->.
Qed.

Lemma solveBoard_hintsUsed s : hintsUsed (solveBoard s) = hintsUsed s.
Proof. unfold solveBoard. by destruct (runSolveGrid (board s)) as [[] ?]. Qed.

Lemma pauseGame_hintsUsed now s : hintsUsed (pauseGame now s) = hintsUsed s.
Proof.
  unfold pauseGame.
  by destruct (negb (isPaused s) && _ && _).
Qed.

Lemma continueGame_hintsUsed now s : hintsUsed (continueGame now s) = hintsUsed s.
Proof. unfold continueGame. by destruct (isPaused s). Qed.

Lemma applyHint_hintsUsed now h s : hintsUsed (applyHint now h s) = hintsUsed s.
Proof. unfold applyHint. by destruct (completeIfDone_frame now (setBoard (setCell (board s) (Hint.row h) (Hint.col h) (Some (Hint.value h))) s)) as (_ & _ & ->). Qed.

Lemma updateCell_hintsUsed now row col value s :
  hintsUsed (updateCell now row col value s) = hintsUsed s.
Proof.
  destruct (updateCell_frame now row col value s) as [->|(_ & _ & -> & _)]; done.
Qed.

(** Only a successful [getHint] moves the hint count, by one. *)
Lemma step_hintsUsed a s :
  hintsUsed (step a s) =
  (hintsUsed s + hintsGiven [a] s)%Z.
Proof.
  destruct a; simpl;
    rewrite ?updateCell_hintsUsed, ?applyHint_hintsUsed, ?solveBoard_hintsUsed,
      ?pauseGame_hintsUsed, ?continueGame_hintsUsed; try lia.
  destruct (getHint s) as [[h|] s'] eqn:E; simpl.
  - apply getHint_Some in E as (_ & _ & ->). simpl. lia.
  - apply getHint_None in E as ->. lia.
Qed.

Lemma play_hintsUsed acts : ∀ s,
  hintsUsed (play acts s) = (hintsUsed s + hintsGiven acts s)%Z.
Proof.
  induction acts as [|a acts IH]; intros s; simpl; [lia|].
  unfold play in IH. rewrite IH, step_hintsUsed. simpl. lia.
Qed.

Lemma step_hint_cap a s :
  (0 ≤ hintsUsed s ≤ maxHints SCORING_CONFIG)%Z →
  (0 ≤ hintsUsed (step a s) ≤ maxHints SCORING_CONFIG)%Z.
Proof.
  intros H. rewrite step_hintsUsed. destruct a; simpl in *; try lia.
  destruct (getHint s) as [[h|] s'] eqn:E; simpl; [|lia].
  apply getHint_Some in E as (Hlt & _). simpl in Hlt. lia.
Qed.

Lemma play_hint_cap acts : ∀ s,
  (0 ≤ hintsUsed s ≤ maxHints SCORING_CONFIG)%Z →
  (0 ≤ hintsUsed (play acts s) ≤ maxHints SCORING_CONFIG)%Z.
Proof.
  induction acts as [|a acts IH]; intros s H; simpl; [done|].
  apply IH. by apply step_hint_cap.
Qed.

(** ** C9: original cells are never written *)

(** C9: a call of [updateCell] on a cell for which the puzzle holds a value
    returns the game state as it was, in every field; and every call of
    [updateCell] keeps the puzzle and the agreement of the board with the
    puzzle on the original cells. *)
Theorem updateCell_respects_puzzle now row col value s :
  (∀ v, cellAt (puzzle s) row col = Some (Some v) →
        updateCell now row col value s = s) ∧
  puzzle (updateCell now row col value s) = puzzle s ∧
  (boardKeepsPuzzle s → boardKeepsPuzzle (updateCell now row col value s)).
Proof.
  split.
  { intros v Hv. apply updateCell_original. unfold isOriginalCell, cellNull.
    by rewrite Hv. }
  destruct (updateCell_frame now row col value s) as [->|(Horig & Hp & _ & Hb)]; [done|].
  split; [done|]. intros Hkeep r c v Hr Hc Hv. rewrite Hp in Hv. rewrite Hb.
  rewrite cellAt_setCell_other; [by apply Hkeep|].
  intros [= -> ->]. unfold isOriginalCell, cellNull in Horig. by rewrite Hv in Horig.
Qed.

(** C9 at work: cell (0,1) of the example session is original (it holds 3),
    and typing 7 into it changes nothing. *)
Lemma updateCell_respects_puzzle_witness :
  cellAt (puzzle exampleState) 0 1 = Some (Some (Int 3)) ∧
  updateCell 2000 0 1 "7" exampleState = exampleState.
Proof.
  split; [reflexivity|].
  apply (proj1 (updateCell_respects_puzzle 2000 0 1 "7" exampleState) (Int 3)).
  reflexivity.
Defined.

(** ** C2: what [updateCell] stores *)

(** C2 (the code at the failing input): in the example session cell (0,0)
    is empty and not original; [parseInt] of the string [a] is NaN, NaN
    passes the range guard, and [updateCell] stores it: the cell is neither
    left unchanged nor empty nor a digit. *)
Theorem updateCell_stores_NaN :
  isOriginalCell exampleState 0 0 = false ∧
  cellAt (board exampleState) 0 0 = Some None ∧
  parseInt "a" = NaN ∧
  cellAt (board (updateCell 2000 0 0 "a" exampleState)) 0 0 = Some (Some NaN).
Proof. repeat split; vm_compute; reflexivity. Qed.

(** The guard does its work for every integer outside 1..9: nothing is
    stored, and the whole state is unchanged. *)
Lemma updateCell_out_of_range now row col value s z :
  value ≠ EmptyString → parseInt value = Int z → (z < 1 ∨ 9 < z)%Z →
  updateCell now row col value s = s.
Proof.
  intros Hne Hp Hz. unfold updateCell.
  destruct (isOriginalCell s row col); [done|].
  destruct (String.eqb_spec value EmptyString) as [|_]; [done|].
  rewrite Hp. simpl.
  destruct (Z.ltb_spec z 1), (Z.ltb_spec 9 z); simpl; try done; lia.
Qed.

(** ** C10: the hint cap *)

(** C10: once [hintsUsed] has reached [maxHints] (10), [getHint] returns no
    hint and leaves the state alone, whatever the board holds; a call that
    returns a hint raises [hintsUsed] by exactly one; and in a session that
    starts with no hint used (as [resetBoard] leaves it), [hintsUsed] stays
    between 0 and 10 whatever the player does. *)
Theorem getHint_enforces_cap :
  maxHints SCORING_CONFIG = 10%Z ∧
  (∀ s, (maxHints SCORING_CONFIG ≤ hintsUsed s)%Z → getHint s = (None, s)) ∧
  (∀ s h s', getHint s = (Some h, s') → hintsUsed s' = (hintsUsed s + 1)%Z) ∧
  (∀ now s, hintsUsed (resetBoard now s) = 0%Z) ∧
  (∀ s0 acts, hintsUsed s0 = 0%Z → (0 ≤ hintsUsed (play acts s0) ≤ 10)%Z).
Proof.
  split; [done|]. split; [apply getHint_capped|]. split.
  { intros s h s' E. apply getHint_Some in E as (_ & _ & ->). done. }
  split; [done|].
  intros s0 acts H0. apply (play_hint_cap acts s0). rewrite H0. simpl. lia.
Qed.

(** ** C8: the price of a hint *)

(** C8: in a session that starts with no hint used, when [getHint] returns
    a hint after [N - 1] earlier successful hints, it takes
    [baseHintPenalty + (N - 1) * hintPenaltyIncrement = 3 + (N - 1) * 1] off
    the score, computed from [hintsUsed] before the increment; the first
    hint costs 3. *)
Theorem getHint_penalty s0 acts hint s' :
  hintsUsed s0 = 0%Z →
  getHint (play acts s0) = (Some hint, s') →
  let s := play acts s0 in
  let N := (hintsGiven acts s0 + 1)%Z in
  hintsUsed s = (N - 1)%Z ∧
  score s' = (score s - (baseHintPenalty SCORING_CONFIG
                         + (N - 1) * hintPenaltyIncrement SCORING_CONFIG))%Z ∧
  score s' = (score s - (3 + (N - 1) * 1))%Z ∧
  hintsUsed s' = N ∧
  (N = 1%Z → score s' = (score s - 3)%Z).
Proof.
  intros H0 E s N.
  assert (hintsUsed s = (N - 1)%Z) as Hn.
  { unfold s, N. rewrite play_hintsUsed, H0. lia. }
  apply getHint_Some in E as (_ & _ & ->). fold s. rewrite Hn. simpl.
  repeat split; try lia.
Qed.

Lemma getHint_penalty_witness :
  hintsUsed (play exampleSession exampleState) = (hintsGiven exampleSession exampleState + 1 - 1)%Z ∧
  (getHint (play exampleSession exampleState)).1 = Some (Hint.mk 8 8 (Int 9)) ∧
  score (getHint (play exampleSession exampleState)).2
  = (score (play exampleSession exampleState) - (3 + (2 - 1) * 1))%Z.
Proof.
  assert (getHint (play exampleSession exampleState)
          = (Some (Hint.mk 8 8 (Int 9)), (getHint (play exampleSession exampleState)).2)) as E
    by (vm_compute; reflexivity).
  destruct (getHint_penalty exampleState exampleSession _ _ eq_refl E)
    as (H1 & _ & H3 & _ & _).
  split; [exact H1|]. split; [by rewrite E|].
  rewrite H3. vm_compute. reflexivity.
Defined.

(** ** The hint search *)

Lemma existsb_ext_seq (f g : nat → bool) a n :
  (∀ x, f x = g x) → existsb f (seq a n) = existsb g (seq a n).
Proof.
  intros H. revert a. induction n as [|n IH]; intros a; simpl; [done|].
  by rewrite H, IH.
Qed.

(** The checker reads the grid only through [grid[r][c] === num]. *)
Lemma isValidMove_ext g h row col num :
  (∀ r c, cellEq g r c num = cellEq h r c num) →
  isValidMove g row col num = isValidMove h row col num.
Proof.
  intros H. unfold isValidMove.
  rewrite (existsb_ext_seq (fun x => cellEq g row x num) (fun x => cellEq h row x num))
    by (intros; apply H).
  rewrite (existsb_ext_seq (fun x => cellEq g x col num) (fun x => cellEq h x col num))
    by (intros; apply H).
  rewrite (existsb_ext_seq
             (fun i => existsb (fun j => cellEq g (row / 3 * 3 + i) (col / 3 * 3 + j) num) (seq 0 3))
             (fun i => existsb (fun j => cellEq h (row / 3 * 3 + i) (col / 3 * 3 + j) num) (seq 0 3)));
    [done|].
  intros i. apply existsb_ext_seq. intros j. apply H.
Qed.

(** A digit left in the cell by an earlier, failed attempt does not disturb
    the check of another digit. *)
Lemma isValidMove_stale board row col k n :
  is9x9 board → row < 9 → col < 9 →
  cellNull board row col = true → k ≠ n →
  isValidMove (setCell board row col (Some (Int k))) row col (Int n)
  = isValidMove board row col (Int n).
Proof.
  intros Hwf Hr Hc Hnull Hkn. apply isValidMove_ext. intros r c.
  destruct (decide ((row, col) = (r, c))) as [[= <- <-]|Hne].
  - unfold cellEq. rewrite cellAt_setCell_same by done.
    apply cellNull_true in Hnull. rewrite Hnull. simpl.
    apply Z.eqb_neq. done.
  - by apply cellEq_setCell_other.
Qed.

Lemma hintDigits_find board row col :
  is9x9 board → row < 9 → col < 9 → cellNull board row col = true →
  ∀ nums boardCopy,
    (boardCopy = board ∨
     ∃ k, ¬ In k nums ∧ boardCopy = setCell board row col (Some (Int k))) →
    NoDup nums →
    hintDigits row col nums boardCopy = find (hintable board row col) nums.
Proof.
  intros Hwf Hr Hc Hnull nums.
  induction nums as [|num rest IH]; intros boardCopy Hcopy Hnd; [done|].
  apply NoDup_cons in Hnd as [Hnin Hnd]. rewrite list_elem_of_In in Hnin.
  simpl. unfold hintable at 1.
  assert (isValidMove boardCopy row col (Int num) = isValidMove board row col (Int num)) as ->.
  { destruct Hcopy as [->|(k & Hk & ->)]; [done|].
    apply isValidMove_stale; auto. intros ->. apply Hk. by left. }
  assert (setCell boardCopy row col (Some (Int num))
          = setCell board row col (Some (Int num))) as ->.
  { destruct Hcopy as [->|(k & Hk & ->)]; [done|]. apply setCell_setCell. }
  destruct (isValidMove board row col (Int num)); simpl.
  - destruct (runSolveGrid (setCell board row col (Some (Int num)))).1; [done|].
    apply IH; [|done]. right. exists num. done.
  - apply IH; [|done]. destruct Hcopy as [->|(k & Hk & ->)]; [by left|].
    right. exists k. split; [|done]. intros Hin. apply Hk. by right.
Qed.

Lemma NoDup_digits : NoDup digits.
Proof. apply (bool_decide_unpack _). vm_compute. reflexivity. Qed.

Lemma find_split {A} (f : A → bool) (l : list A) x :
  find f l = Some x →
  ∃ l1 l2, l = l1 ++ x :: l2 ∧ f x = true ∧ ∀ y, In y l1 → f y = false.
Proof.
  induction l as [|a l IH]; [done|]. simpl.
  destruct (f a) eqn:E.
  - intros [= <-]. exists [], l. split; [done|]. split; [done|]. intros y [].
  - intros H. destruct (IH H) as (l1 & l2 & -> & Hx & Hpre).
    exists (a :: l1), l2. split; [done|]. split; [done|].
    intros y [<-|Hy]; auto.
Qed.

Lemma find_first {A} (f : A → bool) (l : list A) :
  ∀ x, find f l = Some x ↔
         ∃ i, l !! i = Some x ∧ f x = true ∧ ∀ j y, j < i → l !! j = Some y → f y = false.
Proof.
  induction l as [|a l IH]; intros x; simpl.
  - split; [done|]. intros (i & Hi & _). done.
  - destruct (f a) eqn:E.
    + split.
      * intros [= <-]. exists 0. split; [done|]. split; [done|]. intros; lia.
      * intros ([|i] & Hi & Hx & Hpre).
        -- simpl in Hi. congruence.
        -- specialize (Hpre 0 a ltac:(lia) eq_refl). congruence.
    + rewrite IH. split.
      * intros (i & Hi & Hx & Hpre). exists (S i). split; [done|]. split; [done|].
        intros [|j] y Hj Hy; simpl in Hy; [congruence|]. apply (Hpre j); [lia|done].
      * intros ([|i] & Hi & Hx & Hpre).
        -- simpl in Hi. congruence.
        -- exists i. split; [done|]. split; [done|].
           intros j y Hj Hy. apply (Hpre (S j)); [lia|done].
Qed.

Lemma allCells_lookup i r c :
  allCells !! i = Some (r, c) ↔ i < 81 ∧ r = i / 9 ∧ c = i mod 9.
Proof.
  split.
  - intros H. assert (i < 81) as Hi.
    { apply lookup_lt_Some in H. exact H. }
    split; [done|].
    do 81 (destruct i as [|i]; [by injection H as <- <-|]). lia.
  - intros (Hi & -> & ->).
    do 81 (destruct i as [|i]; [reflexivity|]). lia.
Qed.

Lemma firstEmpty_isFirstEmpty grid r c :
  firstEmpty grid = Some (r, c) ↔ isFirstEmpty grid r c.
Proof.
  unfold firstEmpty, isFirstEmpty. rewrite find_first. split.
  - intros (i & Hi & Hn & Hpre). apply allCells_lookup in Hi as (Hi & -> & ->).
    split; [lia|]. split; [lia|]. split; [done|].
    intros r' c' Hr' Hc' Hlt.
    apply (Hpre (r' * 9 + c') (r', c')); [lia|].
    apply allCells_lookup. lia.
  - intros (Hr & Hc & Hn & Hpre). exists (r * 9 + c).
    split; [apply allCells_lookup; lia|]. split; [done|].
    intros j [r' c'] Hj Hy. apply allCells_lookup in Hy as (Hj' & -> & ->).
    apply Hpre; lia.
Qed.

Lemma runSolveGrid_spec g : is9x9 g → solvePost g (Some (runSolveGrid g)).
Proof.
  intros Hwf. pose proof (solveGrid_spec solveFuel g Hwf (empties_bound g)) as H.
  unfold runSolveGrid.
  destruct H as [(g' & E & Hc)|[E Hno]]; rewrite E; [left|right]; eauto.
Qed.

Lemma runSolveGrid_true g :
  is9x9 g → (runSolveGrid g).1 = true → ∃ g', Completes g g'.
Proof.
  intros Hwf H. destruct (runSolveGrid_spec g Hwf) as [(g' & E & Hc)|[E Hno]].
  - eauto.
  - injection E as E. rewrite E in H. done.
Qed.

Lemma runSolveGrid_false g :
  is9x9 g → (runSolveGrid g).1 = false → ∀ h, ¬ Fits g h.
Proof.
  intros Hwf H. destruct (runSolveGrid_spec g Hwf) as [(g' & E & Hc)|[E Hno]].
  - injection E as E. rewrite E in H. done.
  - done.
Qed.

(** When no digit is accepted at one empty cell, the board has no solution
    at all, and no digit is accepted at any other empty cell either. *)
Lemma hintable_nowhere board r0 c0 :
  is9x9 board → r0 < 9 → c0 < 9 → cellNull board r0 c0 = true →
  (∀ n, In n digits → hintable board r0 c0 n = false) →
  ∀ r c n, r < 9 → c < 9 → cellNull board r c = true → In n digits →
    hintable board r c n = false.
Proof.
  intros Hwf Hr0 Hc0 Hn0 Hnone r c n Hr Hc Hn Hin.
  destruct (hintable board r c n) eqn:E; [|done]. exfalso.
  unfold hintable in E. apply andb_prop in E as [Hvalid Hsolve].
  apply runSolveGrid_true in Hsolve as (g' & Hp & Hfull); [|by apply is9x9_setCell].
  assert (Fits board g') as Hfit.
  { apply Placed_Fits; auto. by apply (Placed_step board r c n). }
  pose proof Hfit as (_ & _ & _ & Hnew).
  destruct (Hnew r0 c0 Hr0 Hc0 Hn0) as (n0 & Hin0 & Hv0 & _).
  specialize (Hnone n0 Hin0). unfold hintable in Hnone.
  rewrite (Fits_valid board r0 c0 n0 g') in Hnone by done. simpl in Hnone.
  apply (runSolveGrid_false _ (is9x9_setCell board r0 c0 (Some (Int n0)) Hwf) Hnone g').
  by apply Fits_place.
Qed.

Lemma hintScan_none board cells :
  is9x9 board →
  (∀ r c n, In (r, c) cells → cellNull board r c = true → In n digits →
     hintable board r c n = false) →
  hintScan board cells = None.
Proof.
  intros Hwf. induction cells as [|[r c] rest IH]; intros Hnone; [done|].
  cbn [hintScan].
  assert (hintScan board rest = None) as Hrest.
  { apply IH. intros r' c' n Hin. apply Hnone. by right. }
  destruct (cellNull board r c) eqn:E; [|done].
  destruct (decide (r < 9 ∧ c < 9)) as [[Hr Hc]|Hout].
  - rewrite (hintDigits_find board r c Hwf Hr Hc E) by (auto using NoDup_digits).
    destruct (find (hintable board r c) digits) as [n|] eqn:F; [|done].
    apply find_some in F as [Hin Hh].
    rewrite (Hnone r c n (or_introl eq_refl) E Hin) in Hh. done.
  - exfalso. apply Hout. apply cellNull_true in E. unfold cellAt in E.
    destruct (board !! r) as [rw|] eqn:Er; [|done].
    pose proof (row_length board r rw Hwf Er) as Hl.
    apply lookup_lt_Some in Er, E. destruct Hwf as [Hlen _]. lia.
Qed.

Lemma hintScan_skip board pre cells :
  (∀ r c, In (r, c) pre → cellNull board r c = false) →
  hintScan board (pre ++ cells) = hintScan board cells.
Proof.
  induction pre as [|[r c] pre IH]; intros H; [done|]. cbn [app hintScan].
  rewrite (H r c) by (by left). apply IH. intros r' c' Hin. apply H. by right.
Qed.

(** What the scan of [getHint] finds: the least accepted digit of the first
    empty cell, or nothing when that cell accepts no digit. *)
Lemma hintScan_spec board :
  is9x9 board →
  match firstEmpty board with
  | None => hintScan board allCells = None
  | Some (r, c) =>
      match find (hintable board r c) digits with
      | Some n => hintScan board allCells = Some (Hint.mk r c (Int n))
      | None => hintScan board allCells = None
      end
  end.
Proof.
  intros Hwf. destruct (firstEmpty board) as [[r c]|] eqn:E.
  - pose proof (firstEmpty_Some _ _ _ E) as (Hr & Hc & Hnull).
    destruct (find (hintable board r c) digits) as [n|] eqn:F.
    + unfold firstEmpty in E. apply find_split in E as (l1 & l2 & -> & _ & Hpre).
      rewrite hintScan_skip by (intros r' c' Hin; apply (Hpre (r', c') Hin)).
      cbn [hintScan]. rewrite Hnull.
      rewrite (hintDigits_find board r c Hwf Hr Hc Hnull) by (auto using NoDup_digits).
      by rewrite F.
    + apply hintScan_none; [done|]. intros r' c' n Hin Hn' Hd.
      apply in_allCells in Hin as [Hr' Hc'].
      apply (hintable_nowhere board r c); auto.
      intros m Hm. apply (find_none _ _ F m Hm).
  - apply hintScan_none; [done|]. intros r c n Hin Hn _.
    apply in_allCells in Hin as [Hr Hc].
    rewrite (firstEmpty_None _ E r c Hr Hc) in Hn. done.
Qed.

Lemma digits_range n : In n digits ↔ (1 ≤ n ≤ 9)%Z.
Proof. unfold digits. simpl. lia. Qed.

Lemma find_digits_least (f : Z → bool) :
  match find f digits with
  | Some n => In n digits ∧ f n = true ∧ ∀ m, In m digits → (m < n)%Z → f m = false
  | None => ∀ m, In m digits → f m = false
  end.
Proof.
  unfold digits. cbn [find].
  repeat match goal with
         | |- context [if f ?k then _ else _] => destruct (f k) eqn:?
         end;
    try (split; [simpl; tauto|]; split; [done|]);
    intros m Hin; cbn [In] in Hin;
    repeat match goal with H : _ ∨ _ |- _ => destruct H as [<-|H] end;
    try done; try lia.
Qed.

(** ** C5: the hint *)

(** C5: on a 9x9 board, a hint returned by [getHint] is for the first empty
    cell of the row-major scan, and its value is the least digit of 1..9
    that passes [isValidMove] there and for which [solveGrid] succeeds on a
    copy of the board carrying that digit; when the first empty cell has no
    such digit, [getHint] returns no hint; and the board of the state is
    the same after the call in every case. *)
Theorem getHint_spec s :
  is9x9 (board s) →
  (∀ hint s', getHint s = (Some hint, s') →
     isFirstEmpty (board s) (Hint.row hint) (Hint.col hint) ∧
     ∃ n, Hint.value hint = Int n ∧ (1 ≤ n ≤ 9)%Z ∧
       isValidMove (board s) (Hint.row hint) (Hint.col hint) (Int n) = true ∧
       (runSolveGrid (setCell (board s) (Hint.row hint) (Hint.col hint) (Some (Int n)))).1
         = true ∧
       ∀ m, (1 ≤ m < n)%Z →
         hintable (board s) (Hint.row hint) (Hint.col hint) m = false) ∧
  (∀ r c, isFirstEmpty (board s) r c →
     (∀ n, (1 ≤ n ≤ 9)%Z → hintable (board s) r c n = false) →
     (getHint s).1 = None) ∧
  board (getHint s).2 = board s.
Proof.
  intros Hwf. pose proof (hintScan_spec (board s) Hwf) as Hscan.
  split; [|split; [|apply getHint_board]].
  - intros hint s' E. apply getHint_Some in E as (_ & Hh & _).
    destruct (firstEmpty (board s)) as [[r c]|] eqn:Ef; [|congruence].
    pose proof (find_digits_least (hintable (board s) r c)) as Hleast.
    destruct (find (hintable (board s) r c) digits) as [n|]; [|congruence].
    rewrite Hh in Hscan. injection Hscan as ->. simpl.
    split; [by apply firstEmpty_isFirstEmpty|].
    destruct Hleast as (Hin & Hgood & Hmin).
    apply digits_range in Hin.
    exists n. split; [done|]. split; [done|].
    unfold hintable in Hgood. apply andb_prop in Hgood as [-> ->].
    split; [done|]. split; [done|].
    intros m Hm. apply Hmin; [apply digits_range|]; lia.
  - intros r c Hfirst Hnone. apply firstEmpty_isFirstEmpty in Hfirst.
    rewrite Hfirst in Hscan.
    pose proof (find_digits_least (hintable (board s) r c)) as Hleast.
    destruct (find (hintable (board s) r c) digits) as [n|].
    + destruct Hleast as (Hin & Hgood & _).
      rewrite Hnone in Hgood by (by apply digits_range). done.
    + unfold getHint. rewrite Hscan.
      by destruct (maxHints SCORING_CONFIG <=? hintsUsed s)%Z.
Qed.

(** C5 at work on the example session: the hint is 5 at cell (0,0). *)
Lemma getHint_spec_witness :
  (getHint exampleState).1 = Some (Hint.mk 0 0 (Int 5)) ∧
  isFirstEmpty (board exampleState) 0 0 ∧
  board (getHint exampleState).2 = board exampleState.
Proof.
  assert (is9x9 (board exampleState)) as Hwf
    by (split; [reflexivity|repeat constructor]).
  destruct (getHint_spec exampleState Hwf) as (Hsome & _ & Hboard).
  assert (getHint exampleState = (Some (Hint.mk 0 0 (Int 5)), (getHint exampleState).2)) as E
    by (vm_compute; reflexivity).
  split; [by rewrite E|]. split; [|exact Hboard].
  exact (proj1 (Hsome _ _ E)).
Defined.

(** ** C7: the visible count of a generated puzzle *)

(** C7 (the code at the failing input): every number of the run
    [nearOneRun] is a double of [0, 1), as [Math.random()] returns them; its
    28th number, the one drawn for the visible count, is the double next
    below 1.  In the arithmetic of doubles [r * 5 + 36] is then rounded to
    41, so [Math.floor] yields 41 and only 40 cells are removed: the
    Beginner puzzle shows 41 cells, one more than [maxVisible = 40].  The
    same rounding occurs for the double two steps below 1, and the formula
    overshoots in the same way in every tier. *)
Theorem generateSudokuPuzzle_shows_41 :
  (∀ k, (0 <=? nearOneRun k)%float = true ∧ (nearOneRun k <? 1)%float = true) ∧
  minVisible (DIFFICULTY_CONFIGS beginner) = 36%Z ∧
  maxVisible (DIFFICULTY_CONFIGS beginner) = 40%Z ∧
  Math_floor (nearOneRun 27 * floatOfZ 5 + floatOfZ 36) = 41%Z ∧
  Math_floor (0x1.ffffffffffffep-1 * floatOfZ 5 + floatOfZ 36) = 41%Z ∧
  countFilledCells (generateSudokuPuzzle beginner nearOneRun 0).1 = 41 ∧
  (∀ d, let config := DIFFICULTY_CONFIGS d in
        Math_floor (nearOneRun 27
                    * floatOfZ (maxVisible config - minVisible config + 1)
                    + floatOfZ (minVisible config))
        = (maxVisible config + 1)%Z).
Proof.
  split.
  { intros k. unfold nearOneRun. destruct (Nat.eqb k 27); split; vm_compute; reflexivity. }
  repeat split; try (vm_compute; reflexivity).
  intros []; vm_compute; reflexivity.
Qed.

(** ** Puzzles cut out of a solved grid *)

Lemma is9x9_blankCells positions : ∀ grid,
  is9x9 grid → is9x9 (blankCells positions grid).
Proof.
  induction positions as [|[r c] rest IH]; intros grid Hwf; [done|].
  apply IH. by apply is9x9_setCell.
Qed.

Lemma blankCells_keeps positions : ∀ grid r c v,
  cellAt (blankCells positions grid) r c = Some (Some v) →
  cellAt grid r c = Some (Some v).
Proof.
  induction positions as [|[r0 c0] rest IH]; intros grid r c v H; [done|].
  apply IH in H.
  destruct (decide ((r0, c0) = (r, c))) as [[= -> ->]|Hne].
  - unfold cellAt, setCell in *. rewrite list_lookup_alter_eq in H.
    destruct (grid !! r) as [rw|]; simpl in *; [|done].
    destruct (decide (c < length rw)) as [Hlt|Hge].
    + by rewrite list_lookup_insert_eq in H.
    + by rewrite list_insert_ge in H by lia.
  - by rewrite cellAt_setCell_other in H.
Qed.

(** Whatever cells are blanked in a solved grid, the solver succeeds on the
    result, and leaves a full grid.  (For the generator this settles the
    removal step; that [generateSolvedGrid] always ends with a solved grid
    is the part that rests on every filling of the three diagonal boxes
    having a completion.) *)
Lemma blanked_solution_solvable grid positions :
  validSolution grid →
  ∃ solved, solveGrid solveFuel (blankCells positions grid) = Some (true, solved) ∧
            Completes (blankCells positions grid) solved.
Proof.
  intros [Hwf Hvalid].
  pose proof (is9x9_blankCells positions grid Hwf) as Hwf'.
  destruct (solveGrid_spec solveFuel _ Hwf' (empties_bound _)) as [?|[_ Hno]]; [done|].
  destruct (Hno grid). split; [done|]. split.
  { intros r c Hr Hc. destruct (Hvalid r c Hr Hc) as (n & _ & Hv & _).
    unfold cellNull. by rewrite Hv. }
  split; [intros r c v _ _; apply blankCells_keeps|].
  intros r c Hr Hc _. exact (Hvalid r c Hr Hc).
Qed.

(** * Further properties *)

(** ** Lists *)

Lemma filter_Permutation {A} (f : A → bool) (l l' : list A) :
  Permutation l l' → Permutation (List.filter f l) (List.filter f l').
Proof.
  induction 1 as [|x l l' _ IH|x y l|l l' l'' _ IH1 _ IH2]; simpl.
  - done.
  - destruct (f x); [by constructor|done].
  - destruct (f x), (f y); try done. apply perm_swap.
  - by etrans.
Qed.

Lemma filter_comm {A} (f g : A → bool) (l : list A) :
  List.filter f (List.filter g l) = List.filter g (List.filter f l).
Proof.
  induction l as [|a l IH]; [done|]. simpl.
  destruct (f a) eqn:Ef, (g a) eqn:Eg; simpl; rewrite ?Ef, ?Eg, IH; done.
Qed.

Lemma filter_all {A} (f : A → bool) (l : list A) :
  (∀ x, In x l → f x = true) → List.filter f l = l.
Proof.
  induction l as [|a l IH]; intros H; [done|]. simpl.
  rewrite (H a) by (by left). f_equal. apply IH. intros x Hx. apply H. by right.
Qed.

Lemma filter_none {A} (f : A → bool) (l : list A) :
  (∀ x, In x l → f x = false) → List.filter f l = [].
Proof.
  induction l as [|a l IH]; intros H; [done|]. simpl.
  rewrite (H a) by (by left). apply IH. intros x Hx. apply H. by right.
Qed.

(** ** The solver leaves the given cells alone *)

Lemma Placed_keeps g h :
  Placed g h → ∀ r c v, cellAt g r c = Some (Some v) → cellAt h r c = Some (Some v).
Proof.
  induction 1 as [g|g row col n h Hr Hc Hnull Hn Hvalid Hp IH]; intros r c v Hv; [done|].
  apply IH. rewrite cellAt_setCell_other; [done|].
  intros [= -> ->]. apply cellNull_true in Hnull. congruence.
Qed.

(** X1: [solveGrid] returns within 82 units of fuel on every 9x9 grid; the
    grid it leaves is 9x9 and holds every given (non-empty) cell as it
    was, whether the search succeeded or not; and on success every cell
    that was empty holds a digit of 1..9. *)
Theorem solveGrid_keeps_givens grid fuel :
  is9x9 grid → solveFuel ≤ fuel →
  ∃ b grid', solveGrid fuel grid = Some (b, grid') ∧
    is9x9 grid' ∧
    (∀ r c v, cellAt grid r c = Some (Some v) → cellAt grid' r c = Some (Some v)) ∧
    (b = true → ∀ r c, r < 9 → c < 9 → cellNull grid r c = true →
       ∃ n, (1 ≤ n ≤ 9)%Z ∧ cellAt grid' r c = Some (Some (Int n))).
Proof.
  intros Hwf Hfuel.
  assert (empties grid < fuel) as Hlt by (pose proof (empties_bound grid); lia).
  destruct (solveGrid_spec fuel grid Hwf Hlt) as [(g' & -> & Hp & Hfull)|[-> Hno]].
  - exists true, g'. split; [done|].
    split; [by apply (Placed_is9x9 grid)|]. split; [by apply Placed_keeps|].
    intros _ r c Hr Hc Hnull.
    destruct (Placed_Fits grid g' Hp Hwf Hfull) as (_ & _ & _ & Hnew).
    destruct (Hnew r c Hr Hc Hnull) as (n & Hn & Hv & _).
    exists n. split; [by apply digits_range|done].
  - exists false, grid. split; [done|]. split; [done|]. split; [done|]. done.
Qed.

Lemma solveGrid_keeps_givens_witness :
  ∃ b grid', solveGrid 82 incompleteExample = Some (b, grid') ∧
    is9x9 grid' ∧
    (∀ r c v, cellAt incompleteExample r c = Some (Some v) →
              cellAt grid' r c = Some (Some v)) ∧
    (b = true → ∀ r c, r < 9 → c < 9 → cellNull incompleteExample r c = true →
       ∃ n, (1 ≤ n ≤ 9)%Z ∧ cellAt grid' r c = Some (Some (Int n))).
Proof.
  apply (solveGrid_keeps_givens incompleteExample 82).
  - split; [reflexivity|repeat constructor].
  - unfold solveFuel. lia.
Defined.

(** ** Solving again *)

Lemma grid_ext g h :
  is9x9 g → is9x9 h →
  (∀ r c, r < 9 → c < 9 → cellAt g r c = cellAt h r c) → g = h.
Proof.
  intros Hg Hh Heq. apply list_eq. intros i.
  destruct (decide (i < 9)) as [Hi|Hi].
  - destruct (lookup_lt_is_Some_2 g i) as [rg Eg]; [destruct Hg; lia|].
    destruct (lookup_lt_is_Some_2 h i) as [rh Eh]; [destruct Hh; lia|].
    rewrite Eg, Eh. f_equal. apply list_eq. intros j.
    pose proof (row_length g i rg Hg Eg) as Lg.
    pose proof (row_length h i rh Hh Eh) as Lh.
    destruct (decide (j < 9)) as [Hj|Hj].
    + specialize (Heq i j Hi Hj). unfold cellAt in Heq. by rewrite Eg, Eh in Heq.
    + rewrite !lookup_ge_None_2 by lia. done.
  - destruct Hg as [Lg _], Hh as [Lh _]. rewrite !lookup_ge_None_2 by lia. done.
Qed.

(** Nine pairwise different digits of 1..9 are all of them. *)
Lemma nine_digits (f : nat → Z) :
  (∀ i, i < 9 → In (f i) digits) →
  (∀ i j, i < 9 → j < 9 → i ≠ j → f i ≠ f j) →
  ∀ m, In m digits → ∃ i, i < 9 ∧ f i = m.
Proof.
  intros Hin Hinj m Hm.
  assert (NoDup (f <$> seq 0 9)) as Hnd.
  { apply NoDup_fmap_2_strong; [|apply NoDup_seq].
    intros i j Hi Hj Hf. apply elem_of_seq in Hi, Hj.
    destruct (decide (i = j)) as [|Hne]; [done|].
    destruct (Hinj i j ltac:(lia) ltac:(lia) Hne Hf). }
  assert ((f <$> seq 0 9) ⊆+ digits) as Hsub.
  { apply NoDup_submseteq; [done|]. intros x Hx.
    apply list_elem_of_fmap in Hx as (i & -> & Hi). apply elem_of_seq in Hi.
    apply list_elem_of_In, Hin. lia. }
  apply submseteq_length_Permutation in Hsub; [|done].
  apply list_elem_of_In in Hm. rewrite <- Hsub in Hm.
  apply list_elem_of_fmap in Hm as (i & -> & Hi). apply elem_of_seq in Hi.
  exists i. split; [lia|done].
Qed.

Lemma find_all_false {A} (f : A → bool) (l : list A) :
  (∀ x, In x l → f x = false) → find f l = None.
Proof.
  induction l as [|a l IH]; intros H; [done|]. simpl.
  rewrite (H a) by (by left). apply IH. intros x Hx. apply H. by right.
Qed.

Lemma full_firstEmpty grid : full grid → firstEmpty grid = None.
Proof.
  intros Hfull. apply find_all_false. intros [r c] Hin.
  apply in_allCells in Hin as [Hr Hc]. by apply Hfull.
Qed.

(** X2: blanking one cell of a solved grid and solving again gives the
    solved grid back: the completion of a grid with a single empty cell is
    forced. *)
Theorem solveGrid_restores_cell grid row col fuel :
  validSolution grid → row < 9 → col < 9 → solveFuel ≤ fuel →
  solveGrid fuel (setCell grid row col None) = Some (true, grid).
Proof.
  intros [Hwf Hvalid] Hr Hc Hfuel.
  set (blank := setCell grid row col None).
  assert (is9x9 blank) as Hwfb by (by apply is9x9_setCell).
  assert (empties blank < fuel) as Hlt by (pose proof (empties_bound blank); lia).
  assert (Fits blank grid) as Hfit.
  { split; [done|]. split.
    { intros r c Hr' Hc'. destruct (Hvalid r c Hr' Hc') as (n & _ & Hv & _).
      unfold cellNull. by rewrite Hv. }
    split.
    - intros r c v Hr' Hc' Hv. unfold blank in Hv.
      destruct (decide ((row, col) = (r, c))) as [[= <- <-]|Hne].
      + by rewrite cellAt_setCell_same in Hv.
      + by rewrite cellAt_setCell_other in Hv.
    - intros r c Hr' Hc' _. exact (Hvalid r c Hr' Hc'). }
  destruct (solveGrid_spec fuel blank Hwfb Hlt) as [(g' & -> & Hp & Hfull)|[_ Hno]];
    [|destruct (Hno grid Hfit)].
  do 2 f_equal.
  destruct (Placed_Fits blank g' Hp Hwfb Hfull) as (Hwf' & _ & Hkeep & Hnew).
  assert (∀ r c, r < 9 → c < 9 → (r, c) ≠ (row, col) → cellAt g' r c = cellAt grid r c)
    as Hother.
  { intros r c Hr' Hc' Hne. destruct (Hvalid r c Hr' Hc') as (n & _ & Hv & _).
    rewrite Hv. apply Hkeep; auto. unfold blank.
    rewrite cellAt_setCell_other; [done|congruence]. }
  apply grid_ext; [done..|]. intros r c Hr' Hc'.
  destruct (decide ((r, c) = (row, col))) as [[= -> ->]|Hne]; [|by apply Hother].
  destruct (Hvalid row col Hr Hc) as (n & Hn & Hv & Hfree).
  destruct (Hnew row col Hr Hc) as (m & Hm & Hv' & Hfree').
  { unfold blank, cellNull. by rewrite cellAt_setCell_same. }
  rewrite Hv, Hv'. do 3 f_equal.
  (* the row of the solved grid holds every digit, [m] among them *)
  assert (∃ f : nat → Z, ∀ i, i < 9 → cellAt grid row i = Some (Some (Int (f i)))
                               ∧ In (f i) digits) as [f Hf].
  { exists (fun i => match cellAt grid row i with Some (Some (Int z)) => z | _ => 0%Z end).
    intros i Hi. destruct (Hvalid row i Hr Hi) as (k & Hk & Hvk & _).
    rewrite Hvk. done. }
  destruct (nine_digits f) with (m := m) as (i & Hi & Hfi); [..|done|].
  { intros i Hi. apply Hf, Hi. }
  { intros i j Hi Hj Hij Heq.
    destruct (Hvalid row i Hr Hi) as (k & _ & Hvk & Hfk).
    specialize (Hfk row j Hr Hj ltac:(congruence) (or_introl eq_refl)).
    unfold cellEq in Hfk. rewrite (proj1 (Hf j Hj)) in Hfk.
    rewrite (proj1 (Hf i Hi)) in Hvk. injection Hvk as <-.
    simpl in Hfk. rewrite Heq, Z.eqb_refl in Hfk. done. }
  destruct (decide (i = col)) as [->|Hic].
  - rewrite (proj1 (Hf col Hc)) in Hv. congruence.
  - exfalso. specialize (Hfree' row i Hr Hi ltac:(congruence) (or_introl eq_refl)).
    unfold cellEq in Hfree'. rewrite Hother in Hfree' by (auto; congruence).
    rewrite (proj1 (Hf i Hi)), Hfi in Hfree'. simpl in Hfree'.
    by rewrite Z.eqb_refl in Hfree'.
Qed.

Lemma solveGrid_restores_cell_witness :
  solveGrid 82 (setCell solvedExample 0 0 None) = Some (true, solvedExample).
Proof.
  apply (solveGrid_restores_cell solvedExample 0 0 82); [|lia|lia|unfold solveFuel; lia].
  split; [split; [reflexivity|repeat constructor]|].
  intros r c Hr Hc.
  assert (digitCell solvedExample r c = true) as Hd.
  { do 9 (destruct r as [|r]; [do 9 (destruct c as [|c]; [reflexivity|]); lia|]). lia. }
  unfold digitCell in Hd.
  destruct (cellAt solvedExample r c) as [[[|n]|]|] eqn:E; try done.
  exists n. split; [apply digits_range; lia|]. split; [done|].
  intros r' c' Hr' Hc' Hne Hu.
  destruct (cellEq solvedExample r' c' (Int n)) eqn:Eq; [|done].
  assert (In (cellKey r c) (getInvalidCells solvedExample)) as Hin.
  { apply getInvalidCells_In. exists r, c. repeat split; [done..|].
    exists r', c'. repeat split; [done..|]. eauto. }
  rewrite getInvalidCells_solvedExample in Hin. done.
Defined.

(** X3: on a grid with no empty cell [solveGrid] returns true and leaves
    the grid as it is; so running it again on the grid a successful search
    has left changes nothing. *)
Theorem solveGrid_idempotent grid fuel grid' fuel' :
  is9x9 grid → solveFuel ≤ fuel →
  solveGrid fuel grid = Some (true, grid') →
  solveGrid (S fuel') grid' = Some (true, grid').
Proof.
  intros Hwf Hfuel E.
  assert (empties grid < fuel) as Hlt by (pose proof (empties_bound grid); lia).
  destruct (solveGrid_spec fuel grid Hwf Hlt) as [(g' & E' & _ & Hfull)|[E' _]];
    [|congruence].
  assert (g' = grid') as -> by congruence.
  simpl. by rewrite (full_firstEmpty grid' Hfull).
Qed.

Lemma solveGrid_idempotent_witness :
  solveGrid 1 solvedExample = Some (true, solvedExample).
Proof.
  apply (solveGrid_idempotent incompleteExample 82 solvedExample 0).
  - split; [reflexivity|repeat constructor].
  - unfold solveFuel. lia.
  - vm_compute. reflexivity.
Defined.

(** ** Completion and correctness of the board *)

Lemma isComplete_full s : isComplete s = true ↔ full (board s).
Proof.
  unfold isComplete, full. rewrite forallb_forall. split.
  - intros H r c Hr Hc. specialize (H (r, c)). simpl in H.
    apply negb_true_iff, H, in_allCells. done.
  - intros H [r c] Hin. apply in_allCells in Hin as [Hr Hc]. by rewrite H.
Qed.

Lemma getInvalidCells_nil board :
  getInvalidCells board = [] ↔ ∀ r c, r < 9 → c < 9 → ¬ conflicting board r c.
Proof.
  split.
  - intros E r c Hr Hc Hconf.
    assert (In (cellKey r c) (getInvalidCells board)) as Hin.
    { apply getInvalidCells_In. by exists r, c. }
    rewrite E in Hin. done.
  - intros H. destruct (getInvalidCells board) as [|key l] eqn:E; [done|].
    assert (In key (getInvalidCells board)) as Hin by (rewrite E; by left).
    apply getInvalidCells_In in Hin as (r & c & Hr & Hc & _ & Hconf).
    destruct (H r c Hr Hc Hconf).
Qed.

Lemma isCorrect_true s :
  isCorrect s = true ↔
  full (board s) ∧ ∀ r c, r < 9 → c < 9 → ¬ conflicting (board s) r c.
Proof.
  unfold isCorrect. rewrite <- isComplete_full, <- getInvalidCells_nil.
  destruct (isComplete s); simpl.
  - rewrite Nat.eqb_eq, length_zero_iff_nil. tauto.
  - split; [done|]. by intros [? _].
Qed.

Lemma validSolution_iff grid :
  is9x9 grid → digitBoard grid →
  validSolution grid ↔
  full grid ∧ ∀ r c, r < 9 → c < 9 → ¬ conflicting grid r c.
Proof.
  intros Hwf Hdig. split.
  - intros [_ Hvalid]. split.
    + intros r c Hr Hc. destruct (Hvalid r c Hr Hc) as (n & _ & Hv & _).
      unfold cellNull. by rewrite Hv.
    + intros r c Hr Hc (r' & c' & Hr' & Hc' & Hne & Hu & v & Hv & Heq).
      destruct (Hvalid r c Hr Hc) as (n & _ & Hn & Hother).
      assert (v = Int n) as -> by congruence.
      rewrite (Hother r' c' Hr' Hc' Hne Hu) in Heq. done.
  - intros [Hfull Hno]. split; [done|]. intros r c Hr Hc.
    destruct (Hdig r c Hr Hc) as [Hnull|Hd]; [by rewrite Hfull in Hnull|].
    unfold digitCell in Hd.
    destruct (cellAt grid r c) as [[[|n]|]|] eqn:E; try done.
    exists n. split; [apply digits_range; lia|]. split; [done|].
    intros r' c' Hr' Hc' Hne Hu.
    destruct (cellEq grid r' c' (Int n)) eqn:Eq; [|done].
    destruct (Hno r c Hr Hc). exists r', c'. repeat split; [done..|]. eauto.
Qed.

Lemma digitBoard_check grid :
  forallb (fun '(r, c) => cellNull grid r c || digitCell grid r c) allCells = true →
  digitBoard grid.
Proof.
  rewrite forallb_forall. intros H r c Hr Hc.
  specialize (H (r, c)). simpl in H. apply orb_true_iff, H, in_allCells. done.
Qed.

(** X4: on a 9x9 board (of the session) whose cells are empty or digits of
    1..9, [validateBoard] answers valid exactly when the board is a solved
    grid, and its answer is the value of [isCorrect]; a conflict is
    reported first, with the cell among the invalid cells, and a board
    without conflicts that has an empty cell is reported as not complete,
    with no invalid cell. *)
Theorem validateBoard_spec s :
  is9x9 (board s) → digitBoard (board s) →
  (valid (validateBoard s) = true ↔ validSolution (board s)) ∧
  valid (validateBoard s) = isCorrect s ∧
  (∀ r c, r < 9 → c < 9 → conflicting (board s) r c →
     message (validateBoard s) = "There are errors in the puzzle"%string ∧
     In (cellKey r c) (invalidCells (validateBoard s))) ∧
  ((∀ r c, r < 9 → c < 9 → ¬ conflicting (board s) r c) → ¬ full (board s) →
     message (validateBoard s) = "Puzzle is not complete"%string ∧
     invalidCells (validateBoard s) = []).
Proof.
  intros Hwf Hdig.
  assert (valid (validateBoard s) = isCorrect s) as Hv.
  { unfold validateBoard, isCorrect.
    destruct (getInvalidCells (board s)); simpl; by destruct (isComplete s). }
  split; [|split; [done|split]].
  - rewrite Hv, isCorrect_true. symmetry. by apply validSolution_iff.
  - intros r c Hr Hc Hconf.
    assert (In (cellKey r c) (getInvalidCells (board s))) as Hin.
    { apply getInvalidCells_In. by exists r, c. }
    unfold validateBoard. destruct (getInvalidCells (board s)); done.
  - intros Hno Hnf. apply getInvalidCells_nil in Hno.
    unfold validateBoard. rewrite Hno. simpl.
    destruct (isComplete s) eqn:E; [|done].
    apply isComplete_full in E. done.
Qed.

Lemma validateBoard_spec_witness :
  (valid (validateBoard solvedState) = true ↔ validSolution (board solvedState)) ∧
  valid (validateBoard solvedState) = isCorrect solvedState ∧
  (∀ r c, r < 9 → c < 9 → conflicting (board solvedState) r c →
     message (validateBoard solvedState) = "There are errors in the puzzle"%string ∧
     In (cellKey r c) (invalidCells (validateBoard solvedState))) ∧
  ((∀ r c, r < 9 → c < 9 → ¬ conflicting (board solvedState) r c) →
   ¬ full (board solvedState) →
     message (validateBoard solvedState) = "Puzzle is not complete"%string ∧
     invalidCells (validateBoard solvedState) = []).
Proof.
  apply (validateBoard_spec solvedState).
  - split; [reflexivity|repeat constructor].
  - apply digitBoard_check. vm_compute. reflexivity.
Defined.

(** ** The Hint button *)

Lemma cellAt_setCell_set grid row col v w :
  cellAt grid row col = Some w → cellAt (setCell grid row col v) row col = Some v.
Proof.
  unfold cellAt, setCell. intros H. rewrite list_lookup_alter_eq.
  destruct (grid !! row) as [r|]; [|done]. simpl.
  apply list_lookup_insert_eq. by apply lookup_lt_Some in H.
Qed.

Lemma is9x9_in_range grid r c v : is9x9 grid → cellAt grid r c = Some v → r < 9 ∧ c < 9.
Proof.
  intros Hwf H. unfold cellAt in H. destruct (grid !! r) as [rw|] eqn:E; [|done].
  pose proof (row_length grid r rw Hwf E) as L.
  apply lookup_lt_Some in E, H. destruct Hwf as [L9 _]. lia.
Qed.

Lemma runSolveGrid_is9x9 g : is9x9 g → is9x9 (runSolveGrid g).2.
Proof.
  intros Hwf.
  destruct (runSolveGrid_spec g Hwf) as [(g' & [= ->] & Hp & _)|[[= ->] _]]; [|done].
  by apply (Placed_is9x9 g).
Qed.

Lemma runSolveGrid_keeps g r c v :
  is9x9 g → cellAt g r c = Some (Some v) → cellAt (runSolveGrid g).2 r c = Some (Some v).
Proof.
  intros Hwf Hv.
  destruct (runSolveGrid_spec g Hwf) as [(g' & [= ->] & Hp & _)|[[= ->] _]]; [|done].
  by apply (Placed_keeps g).
Qed.

(** The board has a completion exactly when the solver succeeds on it. *)
Lemma runSolveGrid_Fits g :
  is9x9 g → (runSolveGrid g).1 = true ↔ ∃ h, Fits g h.
Proof.
  intros Hwf. split.
  - intros E. destruct (runSolveGrid_true g Hwf E) as (h & Hp & Hfull).
    exists h. by apply Placed_Fits.
  - intros [h Hfit]. destruct ((runSolveGrid g).1) eqn:E; [done|].
    destruct (runSolveGrid_false g Hwf E h Hfit).
Qed.

Lemma runSolveGrid_full g :
  is9x9 g → (runSolveGrid g).1 = true → full (runSolveGrid g).2.
Proof.
  intros Hwf E.
  destruct (runSolveGrid_spec g Hwf) as [(g' & Eq & _ & Hfull)|[Eq _]].
  - injection Eq as ->. done.
  - injection Eq as Eq. rewrite Eq in E. done.
Qed.

(** A board with a completion offers a digit at its first empty cell. *)
Lemma hintable_exists board h r c :
  is9x9 board → Fits board h → firstEmpty board = Some (r, c) →
  ∃ n, find (hintable board r c) digits = Some n.
Proof.
  intros Hwf Hfit Hfirst.
  apply firstEmpty_Some in Hfirst as (Hr & Hc & Hnull).
  pose proof Hfit as (_ & _ & _ & Hnew).
  destruct (Hnew r c Hr Hc Hnull) as (n & Hn & Hv & _).
  assert (hintable board r c n = true) as Hh.
  { unfold hintable. apply andb_true_iff. split.
    - by apply (Fits_valid board r c n h).
    - apply runSolveGrid_Fits; [by apply is9x9_setCell|].
      exists h. by apply Fits_place. }
  destruct (find (hintable board r c) digits) as [m|] eqn:E; [by exists m|].
  by rewrite (find_none _ _ E n Hn) in Hh.
Qed.

(** What the Hint button does to the state. *)
Lemma handleHint_cases now s :
  is9x9 (board s) →
  (handleHint now s = s ∧
   ((maxHints SCORING_CONFIG ≤ hintsUsed s)%Z ∨
    hintScan (board s) allCells = None)) ∨
  ∃ r c n, firstEmpty (board s) = Some (r, c) ∧
    find (hintable (board s) r c) digits = Some n ∧
    (hintsUsed s < maxHints SCORING_CONFIG)%Z ∧
    handleHint now s =
      completeIfDone now
        (setBoard (setCell (board s) r c (Some (Int n)))
           (setHintsUsed (hintsUsed s + 1)%Z
              (setScore (score s - (baseHintPenalty SCORING_CONFIG
                                    + hintsUsed s * hintPenaltyIncrement SCORING_CONFIG))%Z
                 s))).
Proof.
  intros Hwf. unfold handleHint.
  destruct (getHint s) as [[h|] s'] eqn:E.
  - right. apply getHint_Some in E as (Hcap & Hscan & ->).
    pose proof (hintScan_spec (board s) Hwf) as Hspec.
    destruct (firstEmpty (board s)) as [[r c]|]; [|congruence].
    destruct (find (hintable (board s) r c) digits) as [n|] eqn:Ef; [|congruence].
    exists r, c, n. rewrite Hscan in Hspec. injection Hspec as ->. done.
  - left. pose proof (getHint_None s s' E) as ->. split; [done|].
    unfold getHint in E.
    destruct (Z.leb_spec (maxHints SCORING_CONFIG) (hintsUsed s)); [by left|].
    right. by destruct (hintScan (board s) allCells).
Qed.

(** X5: the Hint button ([handleHint]: [getHint], then [applyHint]) on a
    9x9 board.  With hints left, an empty cell and a completion of the
    board, it writes a digit of 1..9 into the first empty cell, the board
    still has a completion afterwards, one more hint is counted and the
    puzzle is as before.  With no hint left, no empty cell or no completion
    it leaves the whole state as it was. *)
Theorem handleHint_spec now s :
  is9x9 (board s) →
  ((hintsUsed s < maxHints SCORING_CONFIG)%Z →
   ¬ full (board s) → (∃ h, Fits (board s) h) →
   ∃ r c n, isFirstEmpty (board s) r c ∧ (1 ≤ n ≤ 9)%Z ∧
     board (handleHint now s) = setCell (board s) r c (Some (Int n)) ∧
     (∃ h', Fits (board (handleHint now s)) h') ∧
     empties (board (handleHint now s)) < empties (board s) ∧
     hintsUsed (handleHint now s) = (hintsUsed s + 1)%Z ∧
     puzzle (handleHint now s) = puzzle s) ∧
  ((maxHints SCORING_CONFIG ≤ hintsUsed s)%Z ∨ full (board s) ∨
   (¬ ∃ h, Fits (board s) h) → handleHint now s = s).
Proof.
  intros Hwf. pose proof (hintScan_spec (board s) Hwf) as Hspec. split.
  - intros Hcap Hnf [h Hfit].
    destruct (handleHint_cases now s Hwf)
      as [[_ [Hle|Hnone]]|(r & c & n & Hfirst & Hfind & _ & ->)].
    + lia.
    + destruct (firstEmpty (board s)) as [[r c]|] eqn:Ef.
      * destruct (hintable_exists (board s) h r c Hwf Hfit Ef) as [n En].
        rewrite En in Hspec. congruence.
      * destruct Hnf. by apply firstEmpty_None.
    + exists r, c, n.
      apply find_some in Hfind as [Hn Hh].
      apply andb_true_iff in Hh as [_ Hsolve].
      pose proof Hfirst as (Hr & Hc & Hnull)%firstEmpty_Some.
      match goal with |- context [completeIfDone now ?t] =>
        destruct (completeIfDone_frame now t) as (-> & -> & ->) end.
      simpl. split; [by apply firstEmpty_isFirstEmpty|].
      split; [by apply digits_range|]. split; [done|].
      split; [apply runSolveGrid_Fits; [by apply is9x9_setCell|done]|].
      split; [by apply empties_setCell|done].
  - intros Hcase.
    destruct (handleHint_cases now s Hwf)
      as [[-> _]|(r & c & n & Hfirst & Hfind & Hlt & _)]; [done|].
    destruct Hcase as [Hle|[Hfull|Hno]].
    + lia.
    + rewrite (full_firstEmpty _ Hfull) in Hfirst. done.
    + destruct Hno.
      apply find_some in Hfind as [Hn Hh].
      apply andb_true_iff in Hh as [Hvalid Hsolve].
      apply firstEmpty_Some in Hfirst as (Hr & Hc & Hnull).
      apply runSolveGrid_Fits in Hsolve as [h Hfit]; [|by apply is9x9_setCell].
      exists h. by apply (Fits_unplace (board s) r c n).
Qed.

Lemma handleHint_spec_witness :
  ∃ r c n, isFirstEmpty (board exampleState) r c ∧ (1 ≤ n ≤ 9)%Z ∧
    board (handleHint 3000 exampleState)
      = setCell (board exampleState) r c (Some (Int n)) ∧
    (∃ h', Fits (board (handleHint 3000 exampleState)) h') ∧
    empties (board (handleHint 3000 exampleState)) < empties (board exampleState) ∧
    hintsUsed (handleHint 3000 exampleState) = (hintsUsed exampleState + 1)%Z ∧
    puzzle (handleHint 3000 exampleState) = puzzle exampleState.
Proof.
  assert (is9x9 (board exampleState)) as Hwf by (split; [reflexivity|repeat constructor]).
  destruct (handleHint_spec 3000 exampleState Hwf) as [Hgives _].
  apply Hgives.
  - simpl. lia.
  - intros Hfull. specialize (Hfull 0 0). vm_compute in Hfull.
    assert (0 < 9) as H9 by lia. specialize (Hfull H9 H9). discriminate.
  - apply runSolveGrid_Fits; [done|]. vm_compute. reflexivity.
Defined.

(** ** Hints to the end *)

Lemma empties_zero_full grid : empties grid = 0 → full grid.
Proof.
  unfold empties. intros H r c Hr Hc.
  destruct (cellNull grid r c) eqn:E; [|done].
  assert (In (r, c) (List.filter (λ '(row, col), cellNull grid row col) allCells)) as Hin.
  { apply filter_In. split; [by apply in_allCells|done]. }
  apply length_zero_iff_nil in H. rewrite H in Hin. done.
Qed.

Lemma handleHint_step now s r c :
  is9x9 (board s) → (hintsUsed s < maxHints SCORING_CONFIG)%Z →
  firstEmpty (board s) = Some (r, c) → (∃ h, Fits (board s) h) →
  ∃ n, In n digits ∧ isValidMove (board s) r c (Int n) = true ∧
    (∃ h, Fits (setCell (board s) r c (Some (Int n))) h) ∧
    board (handleHint now s) = setCell (board s) r c (Some (Int n)) ∧
    puzzle (handleHint now s) = puzzle s ∧
    hintsUsed (handleHint now s) = (hintsUsed s + 1)%Z.
Proof.
  intros Hwf Hcap Hfirst [h Hfit].
  pose proof (hintScan_spec (board s) Hwf) as Hspec. rewrite Hfirst in Hspec.
  destruct (hintable_exists (board s) h r c Hwf Hfit Hfirst) as [n En].
  rewrite En in Hspec.
  destruct (handleHint_cases now s Hwf)
    as [[_ [Hle|Hnone]]|(r' & c' & n' & Hfirst' & Hfind & _ & E)]; [lia|congruence|].
  rewrite Hfirst in Hfirst'. injection Hfirst' as <- <-.
  rewrite En in Hfind. injection Hfind as <-.
  apply find_some in En as [Hn Hh]. apply andb_true_iff in Hh as [Hvalid Hsolve].
  exists n. split; [done|]. split; [done|].
  split; [apply runSolveGrid_Fits; [by apply is9x9_setCell|done]|].
  rewrite E.
  match goal with |- context [completeIfDone now ?t] =>
    destruct (completeIfDone_frame now t) as (-> & -> & ->) end.
  done.
Qed.

(** X18: on a 9x9 board that has a completion, with no more empty cells
    than presses and enough hints left for the presses, pressing the Hint
    button again and again fills the board: the board at the end is full,
    it is a completion of the board at the start (every cell that was
    filled is as it was), and the puzzle is untouched. *)
Theorem pressHint_finishes nows s :
  is9x9 (board s) → (∃ h, Fits (board s) h) →
  empties (board s) ≤ length nows →
  (hintsUsed s + Z.of_nat (length nows) ≤ maxHints SCORING_CONFIG)%Z →
  full (board (pressHint nows s)) ∧
  Fits (board s) (board (pressHint nows s)) ∧
  puzzle (pressHint nows s) = puzzle s.
Proof.
  revert s. induction nows as [|now nows IH]; intros s Hwf Hsol Hemp Hcap.
  { assert (full (board s)) as Hfull by (apply empties_zero_full; simpl in Hemp; lia).
    split; [done|]. split; [by apply Fits_refl|done]. }
  cbn [pressHint fold_left]. fold (pressHint nows (handleHint now s)).
  cbn [length] in Hemp, Hcap.
  destruct (firstEmpty (board s)) as [[r c]|] eqn:Hfirst.
  - destruct (handleHint_step now s r c Hwf ltac:(lia) Hfirst Hsol)
      as (n & Hn & Hvalid & Hsol' & Eb & Ep & Eh).
    pose proof Hfirst as (Hr & Hc & Hnull)%firstEmpty_Some.
    destruct (IH (handleHint now s)) as (Hfull & Hfit & Hp).
    + rewrite Eb. by apply is9x9_setCell.
    + by rewrite Eb.
    + rewrite Eb. pose proof (empties_setCell (board s) r c (Int n) Hwf Hr Hc Hnull). lia.
    + rewrite Eh. lia.
    + split; [done|]. split; [|by rewrite Hp].
      rewrite Eb in Hfit. by apply (Fits_unplace (board s) r c n).
  - assert (handleHint now s = s) as ->.
    { destruct (handleHint_cases now s Hwf)
        as [[-> _]|(r & c & n & Hfirst' & _)]; [done|congruence]. }
    assert (empties (board s) = 0) as Hzero.
    { unfold empties. rewrite filter_none; [done|]. intros [r c] Hin.
      apply in_allCells in Hin as [Hr Hc]. by apply firstEmpty_None. }
    apply IH; [done..|lia|lia].
Qed.

Lemma pressHint_finishes_witness :
  full (board (pressHint [3000; 4000]%Z exampleState)) ∧
  Fits (board exampleState) (board (pressHint [3000; 4000]%Z exampleState)) ∧
  puzzle (pressHint [3000; 4000]%Z exampleState) = puzzle exampleState.
Proof.
  apply (pressHint_finishes [3000; 4000]%Z exampleState).
  - split; [reflexivity|repeat constructor].
  - apply runSolveGrid_Fits; [split; [reflexivity|repeat constructor]|].
    vm_compute. reflexivity.
  - vm_compute. lia.
  - vm_compute. discriminate.
Defined.

(** ** The Solve button *)

(** X6: [solveBoard] on a 9x9 board.  The board is full afterwards exactly
    when it had a completion; without one the state is left as it was.
    Every filled cell keeps its value, and only the board changes: the
    puzzle, the score, the hint count, the end time and the completion
    flag are as before, so solving never completes the game. *)
Theorem solveBoard_spec s :
  is9x9 (board s) →
  (full (board (solveBoard s)) ↔ ∃ h, Fits (board s) h) ∧
  ((¬ ∃ h, Fits (board s) h) → solveBoard s = s) ∧
  is9x9 (board (solveBoard s)) ∧
  (∀ r c v, cellAt (board s) r c = Some (Some v) →
            cellAt (board (solveBoard s)) r c = Some (Some v)) ∧
  puzzle (solveBoard s) = puzzle s ∧
  score (solveBoard s) = score s ∧
  hintsUsed (solveBoard s) = hintsUsed s ∧
  endTime (solveBoard s) = endTime s ∧
  isCompleteFlag (solveBoard s) = isCompleteFlag s.
Proof.
  intros Hwf.
  pose proof (runSolveGrid_Fits (board s) Hwf) as Hiff.
  pose proof (runSolveGrid_full (board s) Hwf) as Hfull.
  pose proof (runSolveGrid_is9x9 (board s) Hwf) as Hwf'.
  pose proof (λ r c v, runSolveGrid_keeps (board s) r c v Hwf) as Hkeep.
  unfold solveBoard.
  destruct (runSolveGrid (board s)) as [[] solved]; simpl in *.
  - split; [split; [intros _; by apply Hiff|intros _; by apply Hfull]|].
    split; [intros Hno; destruct Hno; by apply Hiff|]. done.
  - split.
    { split; [|intros Hfit; by apply Hiff in Hfit].
      intros Hf. exists (board s). by apply Fits_refl. }
    done.
Qed.

Lemma solveBoard_spec_witness :
  (full (board (solveBoard exampleState)) ↔ ∃ h, Fits (board exampleState) h) ∧
  ((¬ ∃ h, Fits (board exampleState) h) → solveBoard exampleState = exampleState) ∧
  is9x9 (board (solveBoard exampleState)) ∧
  (∀ r c v, cellAt (board exampleState) r c = Some (Some v) →
            cellAt (board (solveBoard exampleState)) r c = Some (Some v)) ∧
  puzzle (solveBoard exampleState) = puzzle exampleState ∧
  score (solveBoard exampleState) = score exampleState ∧
  hintsUsed (solveBoard exampleState) = hintsUsed exampleState ∧
  endTime (solveBoard exampleState) = endTime exampleState ∧
  isCompleteFlag (solveBoard exampleState) = isCompleteFlag exampleState.
Proof.
  apply (solveBoard_spec exampleState).
  split; [reflexivity|repeat constructor].
Defined.

(** ** The original cells over a whole session *)

Lemma is9x9_emptyGrid : is9x9 emptyGrid.
Proof. split; [reflexivity|repeat constructor]. Qed.

Lemma is9x9_fillCells rnd cells : ∀ k numbers grid,
  is9x9 grid → is9x9 (fillCells rnd k cells numbers grid).1.
Proof.
  induction cells as [|[r c] rest IH]; intros k numbers grid Hwf; [done|].
  cbn [fillCells]. apply IH. by apply is9x9_setCell.
Qed.

Lemma is9x9_generateSolvedGrid rnd k : is9x9 (generateSolvedGrid rnd k).1.
Proof.
  unfold generateSolvedGrid. cbn [fold_left].
  unfold fillBox.
  repeat match goal with
         | |- context [fillCells rnd ?k ?cells ?nums ?g] =>
             let H := fresh "H" in
             let g' := fresh "g" in
             let k' := fresh "k" in
             assert (is9x9 g → is9x9 (fillCells rnd k cells nums g).1) as H
               by apply is9x9_fillCells;
             destruct (fillCells rnd k cells nums g) as [g' k'];
             cbn [fst] in H
         end.
  cbn [fst]. apply runSolveGrid_is9x9. auto using is9x9_emptyGrid.
Qed.

Lemma is9x9_generateSudokuPuzzle difficulty rnd k :
  is9x9 (generateSudokuPuzzle difficulty rnd k).1.
Proof.
  unfold generateSudokuPuzzle.
  pose proof (is9x9_generateSolvedGrid rnd k) as Hwf.
  destruct (generateSolvedGrid rnd k) as [solved k1]. cbn [fst] in Hwf.
  destruct (shuffle rnd (S k1) (rev (seq 1 80)) allCells) as [positions k2].
  cbn [fst]. by apply is9x9_blankCells.
Qed.

Lemma wfSession_fresh puzzle' s :
  is9x9 puzzle' → puzzle s = puzzle' → board s = puzzle' → wfSession s.
Proof.
  intros Hwf Hp Hb. unfold wfSession, boardKeepsPuzzle. rewrite Hp, Hb. done.
Qed.

Lemma wfSession_setCell s s' row col v :
  wfSession s → cellNull (puzzle s) row col = true →
  puzzle s' = puzzle s → board s' = setCell (board s) row col v →
  wfSession s'.
Proof.
  intros (Hp & Hb & Hkeep) Hnull Ep Eb. unfold wfSession, boardKeepsPuzzle.
  rewrite Ep, Eb. split; [done|]. split; [by apply is9x9_setCell|].
  intros r c w Hr Hc Hw. rewrite cellAt_setCell_other; [by apply Hkeep|].
  intros [= -> ->]. apply cellNull_true in Hnull. congruence.
Qed.

Lemma handle_wfSession rnd ev s k :
  wfSession s → wfSession (handle rnd ev (s, k)).1.
Proof.
  intros Hs. pose proof Hs as (Hp & Hb & Hkeep).
  destruct ev as [now row col value|now| |now|now difficulty|now|now];
    cbn [handle fst].
  - destruct (updateCell_frame now row col value s) as [->|(Horig & Ep & _ & Eb)];
      [done|].
    unfold isOriginalCell in Horig. apply negb_false_iff in Horig.
    by eapply (wfSession_setCell s _ row col).
  - destruct (handleHint_cases now s Hb)
      as [[-> _]|(r & c & n & Hfirst & _ & _ & E)]; [done|].
    apply firstEmpty_Some in Hfirst as (Hr & Hc & Hnull).
    match type of E with context [completeIfDone now ?t] =>
      destruct (completeIfDone_frame now t) as (Ep & Eb & _) end.
    rewrite <- E in Ep, Eb. simpl in Ep, Eb.
    apply (wfSession_setCell s _ r c (Some (Int n))); [done| |done|done].
    destruct (cellAt_is_Some (puzzle s) r c Hp Hr Hc) as [[v|] Hv];
      [|by apply cellNull_true].
    apply Hkeep in Hv; [|done..]. apply cellNull_true in Hnull. congruence.
  - split; [|split].
    + unfold solveBoard. by destruct (runSolveGrid (board s)) as [[] ?].
    + unfold solveBoard.
      pose proof (runSolveGrid_is9x9 (board s) Hb).
      by destruct (runSolveGrid (board s)) as [[] ?].
    + intros r c v Hr Hc Hv.
      assert (puzzle (solveBoard s) = puzzle s) as Ep.
      { unfold solveBoard. by destruct (runSolveGrid (board s)) as [[] ?]. }
      rewrite Ep in Hv. apply Hkeep in Hv; [|done..].
      pose proof (runSolveGrid_keeps (board s) r c v Hb Hv).
      unfold solveBoard. by destruct (runSolveGrid (board s)) as [[] ?].
  - by apply (wfSession_fresh (puzzle s)).
  - unfold startNewGame.
    pose proof (is9x9_generateSudokuPuzzle difficulty rnd k) as Hwf.
    destruct (generateSudokuPuzzle difficulty rnd k) as [p k']. cbn [fst] in *.
    by apply (wfSession_fresh p).
  - unfold pauseGame. by destruct (_ && _).
  - unfold continueGame. by destruct (isPaused s).
Qed.

Lemma handle_puzzle rnd ev s k :
  isNewGame ev = false → puzzle (handle rnd ev (s, k)).1 = puzzle s.
Proof.
  destruct ev as [now row col value|now| |now|now difficulty|now|now];
    cbn [handle fst isNewGame]; intros Hnew; try done.
  - by destruct (updateCell_frame now row col value s) as [->|(_ & Ep & _)].
  - unfold handleHint. pose proof (getHint_board s) as [_ Ep].
    destruct (getHint s) as [[h|] s']; simpl in Ep; [|done].
    unfold applyHint.
    match goal with |- context [completeIfDone now ?t] =>
      destruct (completeIfDone_frame now t) as (-> & _ & _) end. done.
  - unfold solveBoard. by destruct (runSolveGrid (board s)) as [[] ?].
  - unfold pauseGame. by destruct (_ && _).
  - unfold continueGame. by destruct (isPaused s).
Qed.

(** X7: whatever the player does in the page (typing into cells, Hint,
    Solve, Reset, New Game, Pause, Continue, in any order and with any
    outcome of [Math.random()]), the puzzle and the board stay 9x9 and the
    board holds every original cell of the puzzle with its value; and as
    long as no new game is started, the puzzle is the one the session
    began with. *)
Theorem session_keeps_puzzle rnd evs s k :
  wfSession s →
  wfSession (session rnd evs (s, k)).1 ∧
  (forallb (fun ev => negb (isNewGame ev)) evs = true →
   puzzle (session rnd evs (s, k)).1 = puzzle s).
Proof.
  revert s k. induction evs as [|ev evs IH]; intros s k Hs; [done|].
  unfold session. cbn [fold_left]. fold (session rnd evs (handle rnd ev (s, k))).
  pose proof (handle_wfSession rnd ev s k Hs) as Hs'.
  pose proof (handle_puzzle rnd ev s k) as Hp.
  destruct (handle rnd ev (s, k)) as [s' k']. cbn [fst] in *.
  destruct (IH s' k' Hs') as [Hwf Hpz]. split; [done|].
  cbn [forallb]. intros [Hev Hrest]%andb_true_iff.
  rewrite (Hpz Hrest). apply Hp. by apply negb_true_iff.
Qed.

Lemma session_keeps_puzzle_witness :
  wfSession
    (session nearOneRun
       [EvUpdateCell 2000 0 0 "7"; EvHint 3000; EvPause 4000; EvContinue 5000; EvSolve]
       (exampleState, 0)).1 ∧
  (forallb (fun ev => negb (isNewGame ev))
     [EvUpdateCell 2000 0 0 "7"; EvHint 3000; EvPause 4000; EvContinue 5000; EvSolve]
   = true →
   puzzle
     (session nearOneRun
        [EvUpdateCell 2000 0 0 "7"; EvHint 3000; EvPause 4000; EvContinue 5000; EvSolve]
        (exampleState, 0)).1 = puzzle exampleState).
Proof.
  apply (session_keeps_puzzle nearOneRun _ exampleState 0).
  apply (wfSession_fresh twoBlanksExample); [|reflexivity..].
  split; [reflexivity|repeat constructor].
Defined.

(** ** Scoring of cell edits *)

Lemma completeIfDone_not_full now s : ¬ full (board s) → completeIfDone now s = s.
Proof.
  intros H. unfold completeIfDone. destruct (isComplete s) eqn:E; [|done].
  apply isComplete_full in E. done.
Qed.

Lemma parseInt_nonempty value n :
  parseInt value = Int n → String.eqb value EmptyString = false.
Proof.
  intros H. destruct (String.eqb_spec value EmptyString) as [->|]; [|done].
  vm_compute in H. discriminate.
Qed.

Lemma digit_guard n : (1 ≤ n ≤ 9)%Z → numLt (Int n) 1 || numGt (Int n) 9 = false.
Proof.
  intros Hn. unfold numLt, numGt.
  destruct (Z.ltb_spec n 1), (Z.ltb_spec 9 n); simpl; try done; lia.
Qed.

(** Typing a digit into an empty cell that is not original, while another
    cell stays empty. *)
Lemma updateCell_enter now row col value n s :
  isOriginalCell s row col = false →
  cellNull (board s) row col = true →
  parseInt value = Int n → (1 ≤ n ≤ 9)%Z →
  (∃ r' c', r' < 9 ∧ c' < 9 ∧ (r', c') ≠ (row, col) ∧ cellNull (board s) r' c' = true) →
  updateCell now row col value s =
    setScore (if isValidMove (board s) row col (Int n)
              then score s + correctCell SCORING_CONFIG
              else score s - errorPenalty SCORING_CONFIG)%Z
      (setBoard (setCell (board s) row col (Some (Int n))) s).
Proof.
  intros Horig Hnull Hparse Hn (r' & c' & Hr' & Hc' & Hne & Hnull').
  pose proof (parseInt_nonempty value n Hparse) as Hstr.
  pose proof Hnull as Hcell%cellNull_true.
  unfold updateCell. rewrite Horig, Hstr, Hparse, (digit_guard n Hn), Hcell.
  cbn [from_option id andb].
  destruct (isValidMove (board s) row col (Int n));
    (rewrite completeIfDone_not_full; [done|]);
    intros Hfull; specialize (Hfull r' c' Hr' Hc');
    unfold setScore, setBoard in Hfull; cbn [board] in Hfull;
    rewrite cellNull_setCell_other in Hfull by congruence; congruence.
Qed.

(** X8: a digit typed into an empty cell and cleared again (some other
    cell being empty, so that the game does not end in between).  When the
    digit passed the checker the whole state is as it was before: the
    points credited are taken back.  When it did not, the board is as
    before and the error penalty stays. *)
Theorem updateCell_enter_clear now now' row col value n s :
  isOriginalCell s row col = false →
  cellNull (board s) row col = true →
  parseInt value = Int n → (1 ≤ n ≤ 9)%Z →
  (∃ r' c', r' < 9 ∧ c' < 9 ∧ (r', c') ≠ (row, col) ∧ cellNull (board s) r' c' = true) →
  updateCell now' row col EmptyString (updateCell now row col value s) =
    if isValidMove (board s) row col (Int n) then s
    else setScore (score s - errorPenalty SCORING_CONFIG)%Z s.
Proof.
  intros Horig Hnull Hparse Hn Hother.
  rewrite (updateCell_enter now row col value n s Horig Hnull Hparse Hn Hother).
  pose proof Hnull as Hcell%cellNull_true.
  assert (setCell (setCell (board s) row col (Some (Int n))) row col None = board s) as Hback.
  { rewrite setCell_setCell. by apply setCell_id. }
  unfold updateCell at 1. unfold isOriginalCell in *.
  cbn [puzzle board setScore setBoard]. rewrite Horig.
  cbn [String.eqb]. cbv iota.
  rewrite (cellAt_setCell_set (board s) row col _ _ Hcell). cbn [from_option id].
  rewrite Hback.
  assert (¬ full (board s)) as Hnf.
  { intros Hfull. apply cellNull_true in Hcell.
    destruct Hother as (r' & c' & Hr' & Hc' & _ & Hnull').
    by rewrite (Hfull r' c' Hr' Hc') in Hnull'. }
  destruct (isValidMove (board s) row col (Int n)); cbn [andb cellNotEq score];
    (rewrite completeIfDone_not_full; [|done]);
    destruct s; unfold setScore, setBoard; cbn; f_equal; lia.
Qed.

Lemma updateCell_enter_clear_witness :
  updateCell 3000 0 0 EmptyString (updateCell 2000 0 0 "5" exampleState) =
    if isValidMove (board exampleState) 0 0 (Int 5) then exampleState
    else setScore (score exampleState - errorPenalty SCORING_CONFIG)%Z exampleState.
Proof.
  apply (updateCell_enter_clear 2000 3000 0 0 "5" 5 exampleState); try reflexivity.
  - lia.
  - exists 8, 8. repeat split; try lia; done.
Defined.

(** X9: typing into a cell, not original, the digit it already holds
    leaves the board as it is and takes the error penalty off the score,
    also when the digit is right there: the checker meets the cell's own
    content.  The completion test runs afterwards as after every edit, so
    on a board that is complete and correct the game is completed
    (again), with [now] as its end time. *)
Theorem updateCell_same_digit now row col value n s :
  row < 9 → col < 9 →
  isOriginalCell s row col = false →
  cellAt (board s) row col = Some (Some (Int n)) →
  parseInt value = Int n → (1 ≤ n ≤ 9)%Z →
  updateCell now row col value s =
    completeIfDone now (setScore (score s - errorPenalty SCORING_CONFIG)%Z s) ∧
  board (updateCell now row col value s) = board s ∧
  (isCorrect s = false →
   updateCell now row col value s = setScore (score s - errorPenalty SCORING_CONFIG)%Z s) ∧
  (isCorrect s = true →
   isCompleteFlag (updateCell now row col value s) = true ∧
   endTime (updateCell now row col value s) = Some now).
Proof.
  intros Hr Hc Horig Hcell Hparse Hn.
  pose proof (parseInt_nonempty value n Hparse) as Hstr.
  assert (updateCell now row col value s =
            completeIfDone now (setScore (score s - errorPenalty SCORING_CONFIG)%Z s)) as E.
  { unfold updateCell. rewrite Horig, Hstr, Hparse, (digit_guard n Hn), Hcell.
    cbn [from_option id andb cellNotEq strictEq].
    rewrite (isValidMove_own_cell (board s) row col n Hr Hc Hcell).
    rewrite Z.eqb_refl. cbn [negb]. rewrite andb_false_r.
    rewrite (setCell_id (board s) row col _ Hcell). reflexivity. }
  split; [done|]. rewrite E.
  match goal with |- context [completeIfDone now ?t] =>
    destruct (completeIfDone_frame now t) as (_ & Eb & _) end.
  split; [done|]. unfold completeIfDone.
  assert (isComplete (setScore (score s - errorPenalty SCORING_CONFIG)%Z s) = isComplete s)
    as -> by done.
  assert (isCorrect (setScore (score s - errorPenalty SCORING_CONFIG)%Z s) = isCorrect s)
    as -> by done.
  split; intros Hcorr; rewrite Hcorr.
  - by rewrite andb_false_r.
  - unfold isCorrect in Hcorr. destruct (isComplete s); [done|discriminate].
Qed.

Lemma updateCell_same_digit_witness :
  updateCell 9000 0 0 "5" solvedState =
    completeIfDone 9000 (setScore (score solvedState - errorPenalty SCORING_CONFIG)%Z solvedState) ∧
  board (updateCell 9000 0 0 "5" solvedState) = board solvedState ∧
  (isCorrect solvedState = false →
   updateCell 9000 0 0 "5" solvedState
     = setScore (score solvedState - errorPenalty SCORING_CONFIG)%Z solvedState) ∧
  (isCorrect solvedState = true →
   isCompleteFlag (updateCell 9000 0 0 "5" solvedState) = true ∧
   endTime (updateCell 9000 0 0 "5" solvedState) = Some 9000%Z).
Proof.
  apply (updateCell_same_digit 9000 0 0 "5" 5 solvedState); try reflexivity; lia.
Defined.

(** X17: the edit that ends the game.  When a digit typed into an empty,
    non-original cell makes the board a solved grid, [updateCell] credits
    the cell (5 points), stamps the end time, sets both completion flags
    and adds the time bonus, 500 minus the whole seconds since the start,
    which is negative for a game of more than 500 seconds. *)
Theorem updateCell_completes_game now row col value n st s :
  isOriginalCell s row col = false →
  cellNull (board s) row col = true →
  parseInt value = Int n → (1 ≤ n ≤ 9)%Z →
  validSolution (setCell (board s) row col (Some (Int n))) →
  startTime s = Some st → st ≠ 0%Z → now ≠ 0%Z →
  let s' := updateCell now row col value s in
  board s' = setCell (board s) row col (Some (Int n)) ∧
  isCompleteFlag s' = true ∧ isCorrectFlag s' = true ∧ endTime s' = Some now ∧
  score s' = (score s + correctCell SCORING_CONFIG
              + (timeBonus SCORING_CONFIG - (now - st) / 1000))%Z ∧
  (score s' < score s + correctCell SCORING_CONFIG ↔ 501000 ≤ now - st)%Z.
Proof.
  intros Horig Hnull Hparse Hn Hsol Hst Hst0 Hnow0 s'.
  pose proof (parseInt_nonempty value n Hparse) as Hstr.
  pose proof Hnull as Hcell%cellNull_true.
  pose proof Hsol as [Hwf' Hvalid].
  assert (row < 9 ∧ col < 9) as [Hr Hc].
  { destruct (decide (row < 9)) as [Hr|Hr], (decide (col < 9)) as [Hc|Hc]; [done|..];
      exfalso; unfold cellAt in Hcell;
      destruct (board s !! row) as [rw|] eqn:Erow; try done;
      destruct Hwf' as [Hlen Hrows]; unfold setCell in Hlen, Hrows;
      rewrite length_alter in Hlen; apply lookup_lt_Some in Erow as Hlt; try lia;
      apply lookup_lt_Some in Hcell;
      pose proof (Forall_lookup_1 _ _ row (<[col:=Some (Int n)]> rw) Hrows) as Hl;
      rewrite list_lookup_alter_eq, Erow in Hl; specialize (Hl eq_refl);
      rewrite length_insert in Hl; lia. }
  assert (is9x9 (board s)) as Hwf.
  { rewrite <- (setCell_id (board s) row col None Hcell).
    rewrite <- (setCell_setCell (board s) row col (Some (Int n)) None).
    by apply is9x9_setCell. }
  assert (isValidMove (board s) row col (Int n) = true) as Hmove.
  { apply isValidMove_true; [done..|]. intros r' c' Hr' Hc' Hu.
    destruct (decide ((r', c') = (row, col))) as [[= -> ->]|Hne].
    - unfold cellEq. by rewrite Hcell.
    - destruct (Hvalid row col Hr Hc) as (m & _ & Hm & Hother).
      rewrite cellAt_setCell_same in Hm by done. injection Hm as <-.
      rewrite <- (Hother r' c' Hr' Hc' Hne Hu).
      symmetry. apply cellEq_setCell_other. congruence. }
  assert (s' = completeGame now
                 (setScore (score s + correctCell SCORING_CONFIG)%Z
                    (setBoard (setCell (board s) row col (Some (Int n))) s))) as E.
  { unfold s', updateCell. rewrite Horig, Hstr, Hparse, (digit_guard n Hn), Hcell, Hmove.
    cbn [from_option id andb]. unfold completeIfDone.
    set (t := setScore _ _).
    assert (isCorrect t = true) as Hcorr.
    { apply isCorrect_true. unfold t, setScore, setBoard. cbn [board].
      split.
      - intros r c Hr' Hc'. destruct (Hvalid r c Hr' Hc') as (m & _ & Hm & _).
        unfold cellNull. by rewrite Hm.
      - intros r c Hr' Hc' (r' & c' & Hr'' & Hc'' & Hne & Hu & v & Hv & Heq).
        destruct (Hvalid r c Hr' Hc') as (m & _ & Hm & Hother).
        assert (v = Int m) as -> by congruence.
        by rewrite (Hother r' c' Hr'' Hc'' Hne Hu) in Heq. }
    rewrite Hcorr. unfold isCorrect in Hcorr.
    destruct (isComplete t); [done|discriminate]. }
  assert (score s' = (score s + correctCell SCORING_CONFIG
                      + (timeBonus SCORING_CONFIG - (now - st) / 1000))%Z) as Hscore.
  { rewrite E. unfold completeGame, elapsedTime, setScore, setBoard.
    cbn [score startTime endTime]. rewrite Hst.
    destruct (Z.eqb_spec st 0); [done|]. destruct (Z.eqb_spec now 0); [done|]. done. }
  split; [by rewrite E|]. split; [by rewrite E|]. split; [by rewrite E|].
  split; [by rewrite E|]. split; [done|].
  rewrite Hscore. simpl. lia.
Qed.

Lemma updateCell_completes_game_witness :
  let s' := updateCell 125000 8 8 "9" oneBlankState in
  board s' = setCell (board oneBlankState) 8 8 (Some (Int 9)) ∧
  isCompleteFlag s' = true ∧ isCorrectFlag s' = true ∧ endTime s' = Some 125000%Z ∧
  score s' = (score oneBlankState + correctCell SCORING_CONFIG
              + (timeBonus SCORING_CONFIG - (125000 - 1000) / 1000))%Z ∧
  (score s' < score oneBlankState + correctCell SCORING_CONFIG
   ↔ 501000 ≤ 125000 - 1000)%Z.
Proof.
  apply (updateCell_completes_game 125000 8 8 "9" 9 1000 oneBlankState);
    try reflexivity; try lia; try done.
  replace (setCell (board oneBlankState) 8 8 (Some (Int 9))) with solvedExample
    by (vm_compute; reflexivity).
  apply validSolution_iff.
  - split; [reflexivity|repeat constructor].
  - apply digitBoard_check. vm_compute. reflexivity.
  - split.
    + apply (isComplete_full solvedState). vm_compute. reflexivity.
    + apply getInvalidCells_nil, getInvalidCells_solvedExample.
Defined.

(** ** Pausing *)

(** X10: a running game that is paused at [t1] and continued at [t2] has
    its start time moved by the length of the pause: at every later
    instant [t] the elapsed time is what it would have been, without the
    pause, at [t - (t2 - t1)].  Pausing a paused game and continuing a
    running one change nothing. *)
Theorem continueGame_excludes_pause t1 t2 t st s :
  startTime s = Some st → endTime s = None → isPaused s = false →
  (0 < st)%Z → (0 < t1 ≤ t2)%Z →
  elapsedTime t (continueGame t2 (pauseGame t1 s)) = elapsedTime (t - (t2 - t1)) s ∧
  pauseGame t2 (pauseGame t1 s) = pauseGame t1 s ∧
  continueGame t2 s = s ∧
  isPaused (continueGame t2 (pauseGame t1 s)) = false.
Proof.
  intros Hst Hend Hp Hpos Ht.
  assert (pauseGame t1 s =
            mkGameState (puzzle s) (board s) (difficulty s) (score s) (hintsUsed s)
              (startTime s) (endTime s) (isCompleteFlag s) (isCorrectFlag s)
              (isLoading s) (error s) true (Some t1)) as Epause.
  { unfold pauseGame. rewrite Hst, Hend, Hp.
    destruct (Z.eqb_spec st 0) as [|_]; [lia|]. done. }
  rewrite Epause. split; [|split; [done|split]].
  - unfold continueGame, elapsedTime. cbn [isPaused pauseStartTime startTime endTime].
    rewrite Hst, Hend. cbn [from_option id].
    destruct (Z.eqb_spec t1 0) as [|_]; [lia|].
    destruct (Z.eqb_spec (st + (t2 - t1)) 0) as [|_]; [lia|].
    destruct (Z.eqb_spec st 0) as [|_]; [lia|].
    f_equal. lia.
  - unfold continueGame. by rewrite Hp.
  - done.
Qed.

Lemma continueGame_excludes_pause_witness :
  elapsedTime 9000 (continueGame 5000 (pauseGame 4000 exampleState))
    = elapsedTime (9000 - (5000 - 4000)) exampleState ∧
  pauseGame 5000 (pauseGame 4000 exampleState) = pauseGame 4000 exampleState ∧
  continueGame 5000 exampleState = exampleState ∧
  isPaused (continueGame 5000 (pauseGame 4000 exampleState)) = false.
Proof.
  apply (continueGame_excludes_pause 4000 5000 9000 1000 exampleState);
    try reflexivity; lia.
Defined.

(** ** The digit counts *)

Lemma availableDigits_fold board d cells : ∀ (counts : gmap number number) k,
  counts !! Int d = Some (Int (Z.of_nat k)) →
  fold_left
    (fun counts '(row, col) =>
       match cellAt board row col with
       | Some (Some value) => <[value := countUp (counts !! value)]> counts
       | _ => counts
       end) cells counts !! Int d
  = Some (Int (Z.of_nat
       (k + length (List.filter (fun '(r, c) => cellEq board r c (Int d)) cells)))).
Proof.
  induction cells as [|[r c] rest IH]; intros counts k Hk.
  { simpl. rewrite Hk. do 3 f_equal. lia. }
  cbn [fold_left List.filter].
  assert (cellEq board r c (Int d)
          = match cellAt board r c with Some (Some v) => strictEq v (Int d) | _ => false end)
    as -> by done.
  destruct (cellAt board r c) as [[v|]|] eqn:E.
  - destruct (decide (v = Int d)) as [->|Hne].
    + cbn [strictEq]. rewrite Z.eqb_refl. cbn [length].
      rewrite (IH _ (S k)).
      * do 3 f_equal. lia.
      * rewrite lookup_insert_eq, Hk. simpl. do 2 f_equal. lia.
    + assert (strictEq v (Int d) = false) as ->.
      { destruct v as [|z]; [done|]. simpl. apply Z.eqb_neq. congruence. }
      apply IH. by rewrite lookup_insert_ne.
  - by apply IH.
  - by apply IH.
Qed.

Lemma One_in_filter {A} (f : A → bool) (l : list A) x :
  List.NoDup l → In x l → f x = true →
  (∀ y, In y l → f y = true → y = x) →
  length (List.filter f l) = 1.
Proof.
  induction l as [|a l IH]; intros Hnd Hin Hfx Huniq; [done|].
  apply List.NoDup_cons_iff in Hnd as [Hna Hnd]. simpl.
  destruct Hin as [->|Hin].
  - rewrite Hfx. simpl. f_equal. apply length_zero_iff_nil.
    destruct (List.filter f l) as [|y l'] eqn:E; [done|].
    assert (In y (List.filter f l)) as Hy by (rewrite E; by left).
    apply filter_In in Hy as [Hy Hfy].
    assert (y = x) as -> by (apply Huniq; [by right|done]). done.
  - destruct (f a) eqn:Efa.
    + assert (a = x) as -> by (apply Huniq; [by left|done]). done.
    + apply IH; [done..|]. intros y Hy. apply Huniq. by right.
Qed.

Lemma filter_flat_map_ones {A B} (f : B → bool) (g : A → list B) (l : list A) :
  (∀ a, In a l → length (List.filter f (g a)) = 1) →
  length (List.filter f (flat_map g l)) = length l.
Proof.
  induction l as [|a l IH]; intros H; [done|].
  cbn [flat_map]. rewrite List.filter_app, length_app.
  rewrite (H a) by (by left). rewrite IH; [done|].
  intros b Hb. apply H. by right.
Qed.

(** In a solved grid every digit occurs once in every row, nine times in
    all. *)
Lemma validSolution_occurrences grid d :
  validSolution grid → (1 ≤ d ≤ 9)%Z → occurrences grid d = 9.
Proof.
  intros [Hwf Hvalid] Hd. unfold occurrences, allCells.
  rewrite filter_flat_map_ones; [done|].
  intros r Hr. apply in_seq in Hr.
  assert (∀ c, c < 9 → cellAt grid r c = Some (Some (Int (digitAt grid r c)))
                      ∧ In (digitAt grid r c) digits) as Hdig.
  { intros c Hc. destruct (Hvalid r c ltac:(lia) Hc) as (n & Hn & Hv & _).
    unfold digitAt. rewrite Hv. done. }
  assert (∃ c, c < 9 ∧ digitAt grid r c = d) as (c & Hc & Hcd).
  { apply (nine_digits (digitAt grid r)); [| |by apply digits_range].
    - intros c Hc. by apply Hdig.
    - intros c c' Hc Hc' Hne Heq.
      destruct (Hvalid r c ltac:(lia) Hc) as (n & _ & Hv & Hother).
      specialize (Hother r c' ltac:(lia) Hc').
      assert (cellEq grid r c' (Int n) = false) as Hf.
      { apply Hother; [congruence|by left]. }
      destruct (Hdig c Hc) as [Hv1 _]. destruct (Hdig c' Hc') as [Hv2 _].
      unfold cellEq in Hf. rewrite Hv2, <- Heq in Hf.
      assert (n = digitAt grid r c) as -> by congruence.
      simpl in Hf. by rewrite Z.eqb_refl in Hf. }
  apply (One_in_filter _ _ (r, c)).
  - apply Finite.Injective_map_NoDup; [|apply List.seq_NoDup].
    by intros x y [= ->].
  - apply in_map_iff. exists c. split; [done|]. apply in_seq. lia.
  - unfold cellEq. destruct (Hdig c Hc) as [-> _]. rewrite Hcd. simpl.
    apply Z.eqb_refl.
  - intros [r' c'] Hin Heq.
    apply in_map_iff in Hin as (c0 & [= <- <-] & Hc0). apply in_seq in Hc0.
    destruct (decide (c0 = c)) as [->|Hne]; [done|].
    destruct (Hvalid r c ltac:(lia) Hc) as (n & _ & Hv & Hother).
    destruct (Hdig c Hc) as [Hv1 _].
    assert (n = d) as -> by congruence.
    rewrite (Hother r c0) in Heq; [done|lia|lia|congruence|by left].
Qed.

(** X11: on a 9x9 board (of the session), for every digit of 1..9 the
    entry of [availableDigits] is the number of cells that hold the digit;
    the digit is marked complete ([get(digit) === 9]) exactly when that
    number is 9, and on a solved grid this is so for every digit. *)
Theorem availableDigits_counts s d :
  is9x9 (board s) → (1 ≤ d ≤ 9)%Z →
  availableDigits s !! Int d = Some (Int (Z.of_nat (occurrences (board s) d))) ∧
  (availableDigits s !! Int d = Some (Int 9) ↔ occurrences (board s) d = 9) ∧
  (validSolution (board s) → availableDigits s !! Int d = Some (Int 9)).
Proof.
  intros _ Hd.
  assert (availableDigits s !! Int d = Some (Int (Z.of_nat (occurrences (board s) d))))
    as E.
  { unfold availableDigits, occurrences.
    rewrite (availableDigits_fold (board s) d allCells _ 0); [done|].
    apply digits_range in Hd. cbn [fold_left digits].
    simpl in Hd.
    repeat (destruct Hd as [<-|Hd]; [by vm_compute|]). done. }
  rewrite E. split; [done|]. split.
  - split; [intros [= H]; lia|intros ->; done].
  - intros Hsol. by rewrite validSolution_occurrences.
Qed.

Lemma availableDigits_counts_witness :
  availableDigits solvedState !! Int 5
    = Some (Int (Z.of_nat (occurrences (board solvedState) 5))) ∧
  (availableDigits solvedState !! Int 5 = Some (Int 9)
   ↔ occurrences (board solvedState) 5 = 9) ∧
  (validSolution (board solvedState) →
   availableDigits solvedState !! Int 5 = Some (Int 9)).
Proof.
  apply (availableDigits_counts solvedState 5); [|lia].
  split; [reflexivity|repeat constructor].
Defined.

(** * The leaderboard server *)

(** ** Sorting by score *)

Lemma insertRecord_Permutation a l : Permutation (insertRecord a l) (a :: l).
Proof.
  induction l as [|b l IH]; simpl; [done|].
  destruct (scoreGt b a); [|done]. rewrite IH. apply perm_swap.
Qed.

Lemma sortByScore_Permutation l : Permutation (sortByScore l) l.
Proof.
  induction l as [|a l IH]; simpl; [done|].
  rewrite insertRecord_Permutation. by constructor.
Qed.

Lemma In_sortByScore l r : In r (sortByScore l) ↔ In r l.
Proof.
  split; apply Permutation_in; [|symmetry]; apply sortByScore_Permutation.
Qed.

Lemma In_insertRecord a l r : In r (insertRecord a l) ↔ a = r ∨ In r l.
Proof.
  change (a = r ∨ In r l) with (In r (a :: l)).
  split; apply Permutation_in; [|symmetry]; apply insertRecord_Permutation.
Qed.

Lemma length_sortByScore l : length (sortByScore l) = length l.
Proof. apply Permutation_length, sortByScore_Permutation. Qed.

Lemma integerScores_cons a l :
  integerScores (a :: l) ↔ (∃ z, Rec.score a = Int z) ∧ integerScores l.
Proof.
  unfold integerScores. split.
  - intros H. split; [apply H; by left|]. intros r Hr. apply H. by right.
  - intros [Ha Hl] r [<-|Hr]; [done|by apply Hl].
Qed.

Lemma integerScores_app l1 l2 :
  integerScores (l1 ++ l2) ↔ integerScores l1 ∧ integerScores l2.
Proof.
  unfold integerScores. split.
  - intros H. split; intros r Hr; apply H, in_or_app; [by left|by right].
  - intros [H1 H2] r Hr. apply in_app_or in Hr as [Hr|Hr]; [by apply H1|by apply H2].
Qed.

Lemma integerScores_filter f l : integerScores l → integerScores (List.filter f l).
Proof. intros H r Hr. apply filter_In in Hr as [Hr _]. by apply H. Qed.

Lemma scoreGt_Z a b :
  (∃ z, Rec.score a = Int z) → (∃ z, Rec.score b = Int z) →
  scoreGt b a = (scoreZ a <? scoreZ b)%Z.
Proof. intros [x Ha] [y Hb]. unfold scoreGt, scoreZ. by rewrite Ha, Hb. Qed.

Lemma insertRecord_descending a l :
  integerScores (a :: l) → descending l → descending (insertRecord a l).
Proof.
  induction l as [|b l IH]; intros Hint Hdesc; [done|].
  apply integerScores_cons in Hint as [Ha Hint].
  pose proof Hint as [Hb Hl]%integerScores_cons.
  destruct Hdesc as [Hle Hdesc]. cbn [insertRecord].
  rewrite (scoreGt_Z a b Ha Hb). destruct (Z.ltb_spec (scoreZ a) (scoreZ b)) as [Hlt|Hge].
  - split.
    + intros y Hy. apply In_insertRecord in Hy as [<-|Hy]; [lia|by apply Hle].
    + apply IH; [|done]. by apply integerScores_cons.
  - split; [|done]. intros y [<-|Hy]; [done|]. specialize (Hle y Hy). lia.
Qed.

Lemma sortByScore_descending l : integerScores l → descending (sortByScore l).
Proof.
  induction l as [|a l IH]; intros Hint; [done|].
  pose proof Hint as [Ha Hl]%integerScores_cons.
  cbn [sortByScore foldr]. apply insertRecord_descending; [|by apply IH].
  apply integerScores_cons. split; [done|].
  intros r Hr. apply Hl. by apply In_sortByScore.
Qed.

(** A record that no record of the list exceeds goes to the front. *)
Lemma insertRecord_front a l :
  integerScores (a :: l) → (∀ b, In b l → (scoreZ b ≤ scoreZ a)%Z) →
  insertRecord a l = a :: l.
Proof.
  destruct l as [|b l]; [done|]. intros [Ha [Hb _]%integerScores_cons]%integerScores_cons Hle.
  cbn [insertRecord]. rewrite (scoreGt_Z a b Ha Hb).
  specialize (Hle b (or_introl eq_refl)).
  destruct (Z.ltb_spec (scoreZ a) (scoreZ b)); [lia|done].
Qed.

Lemma filter_insertRecord_false (f : Rec.t → bool) a l :
  f a = false → List.filter f (insertRecord a l) = List.filter f l.
Proof.
  intros Hf. induction l as [|b l IH]; cbn [insertRecord].
  - cbn [List.filter]. by rewrite Hf.
  - destruct (scoreGt b a); cbn [List.filter]; [by rewrite IH|by rewrite Hf].
Qed.

Lemma filter_insertRecord_true (f : Rec.t → bool) a l :
  f a = true → integerScores (a :: l) → descending l →
  List.filter f (insertRecord a l) = insertRecord a (List.filter f l).
Proof.
  intros Hf. induction l as [|b l IH]; intros Hint Hdesc.
  { cbn. by rewrite Hf. }
  pose proof Hint as [Ha [Hb Hl]%integerScores_cons]%integerScores_cons.
  destruct Hdesc as [Hle Hdesc]. cbn [insertRecord].
  destruct (scoreGt b a) eqn:Egt.
  - cbn [List.filter]. rewrite IH; [|by apply integerScores_cons|done].
    destruct (f b); [|done]. cbn [insertRecord]. by rewrite Egt.
  - rewrite (scoreGt_Z a b Ha Hb) in Egt. apply Z.ltb_ge in Egt.
    change (List.filter f (a :: b :: l)) with
      (if f a then a :: List.filter f (b :: l) else List.filter f (b :: l)).
    rewrite Hf. symmetry. apply insertRecord_front.
    + apply integerScores_cons. split; [done|].
      apply integerScores_filter. by apply integerScores_cons.
    + intros y Hy. apply filter_In in Hy as [[<-|Hy] _]; [done|].
      specialize (Hle y Hy). lia.
Qed.

(** Sorting by score and filtering commute: the sort is stable. *)
Lemma sortByScore_filter (f : Rec.t → bool) l :
  integerScores l → sortByScore (List.filter f l) = List.filter f (sortByScore l).
Proof.
  induction l as [|a l IH]; intros Hint; [done|].
  pose proof Hint as [Ha Hl]%integerScores_cons.
  cbn [sortByScore foldr List.filter]. fold (sortByScore l).
  destruct (f a) eqn:Hf.
  - cbn [foldr]. fold (sortByScore (List.filter f l)). rewrite (IH Hl).
    symmetry. apply filter_insertRecord_true; [done| |by apply sortByScore_descending].
    apply integerScores_cons. split; [done|].
    intros r Hr. apply Hl. by apply In_sortByScore.
  - fold (sortByScore (List.filter f l)). rewrite (IH Hl).
    symmetry. by apply filter_insertRecord_false.
Qed.

(** Where the record pushed last ends up: behind every record that is not
    of lesser score. *)
Lemma insertRecord_around a new z pre : ∀ post,
  Rec.score new = Int z →
  integerScores (a :: pre ++ post) →
  (∀ b, In b pre → (z ≤ scoreZ b)%Z) →
  (∀ b, In b post → (scoreZ b < z)%Z) →
  ∃ pre' post',
    insertRecord a (pre ++ new :: post) = pre' ++ new :: post' ∧
    insertRecord a (pre ++ post) = pre' ++ post' ∧
    (∀ b, In b pre' → (z ≤ scoreZ b)%Z) ∧
    (∀ b, In b post' → (scoreZ b < z)%Z).
Proof.
  intros post Hnew.
  assert (scoreZ new = z) as Hz by (unfold scoreZ; by rewrite Hnew).
  induction pre as [|b pre IH]; intros Hint Hpre Hpost.
  - pose proof Hint as [Ha Hl]%integerScores_cons. cbn [app insertRecord].
    rewrite (scoreGt_Z a new Ha (ex_intro _ z Hnew)), Hz.
    destruct (Z.ltb_spec (scoreZ a) z) as [Hlt|Hge].
    + exists [], (insertRecord a post). split; [done|]. split; [done|].
      split; [done|]. intros y Hy. apply In_insertRecord in Hy as [<-|Hy]; [done|].
      by apply Hpost.
    + exists [a], post. split; [done|]. split.
      * apply insertRecord_front; [done|]. intros y Hy. specialize (Hpost y Hy). lia.
      * split; [|done]. intros y [<-|[]]. done.
  - pose proof Hint as [Ha [Hb Hl]%integerScores_cons]%integerScores_cons.
    cbn [app insertRecord]. destruct (scoreGt b a) eqn:Egt.
    + destruct IH as (pre' & post' & E1 & E2 & Hpre' & Hpost').
      * by apply integerScores_cons.
      * intros y Hy. apply Hpre. by right.
      * done.
      * exists (b :: pre'), post'. cbn [app]. rewrite E1, E2.
        split; [done|]. split; [done|]. split; [|done].
        intros y [<-|Hy]; [apply Hpre; by left|by apply Hpre'].
    + exists (a :: b :: pre), post. split; [done|]. split; [done|].
      split; [|done].
      rewrite (scoreGt_Z a b Ha Hb) in Egt. apply Z.ltb_ge in Egt.
      intros y [<-|Hy]; [|by apply Hpre].
      specialize (Hpre b (or_introl eq_refl)). lia.
Qed.

Lemma sortByScore_pushed l new z :
  Rec.score new = Int z → integerScores l →
  ∃ pre post,
    sortByScore (l ++ [new]) = pre ++ new :: post ∧
    sortByScore l = pre ++ post ∧
    (∀ b, In b pre → (z ≤ scoreZ b)%Z) ∧
    (∀ b, In b post → (scoreZ b < z)%Z).
Proof.
  intros Hnew. induction l as [|a l IH]; intros Hint.
  { exists [], []. done. }
  pose proof Hint as [Ha Hl]%integerScores_cons.
  destruct (IH Hl) as (pre & post & E1 & E2 & Hpre & Hpost).
  cbn [app sortByScore foldr]. fold (sortByScore (l ++ [new])). fold (sortByScore l).
  rewrite E1, E2. apply insertRecord_around; [done| |done|done].
  apply integerScores_cons. split; [done|]. rewrite <- E2.
  intros r Hr. apply Hl. by apply In_sortByScore.
Qed.

(** ** Pruning the store *)

Lemma includes_true R r :
  includes R r = true ↔ ∃ x, In x R ∧ Rec.ref x = Rec.ref r.
Proof.
  unfold includes. rewrite existsb_exists.
  split; intros (x & Hx & E); exists x; (split; [done|]); by apply Nat.eqb_eq.
Qed.

Lemma ref_inj l x y :
  List.NoDup (map Rec.ref l) → In x l → In y l → Rec.ref x = Rec.ref y → x = y.
Proof.
  induction l as [|a l IH]; intros Hnd Hx Hy E; [done|].
  cbn [map] in Hnd. apply List.NoDup_cons_iff in Hnd as [Hna Hnd].
  destruct Hx as [->|Hx], Hy as [->|Hy]; [done| | |by apply IH].
  - destruct Hna. rewrite E. by apply in_map.
  - destruct Hna. rewrite <- E. by apply in_map.
Qed.

Lemma NoDup_map_filter {A B} (g : A → B) (f : A → bool) (l : list A) :
  List.NoDup (map g l) → List.NoDup (map g (List.filter f l)).
Proof.
  induction l as [|a l IH]; intros Hnd; [done|].
  cbn [map] in Hnd. apply List.NoDup_cons_iff in Hnd as [Hna Hnd]. simpl.
  destruct (f a); [|by apply IH]. cbn [map]. apply List.NoDup_cons; [|by apply IH].
  intros Hin. apply Hna. apply in_map_iff in Hin as (x & E & Hx).
  apply filter_In in Hx as [Hx _]. apply in_map_iff. by exists x.
Qed.

Lemma ofDifficulty_In d l r :
  In r (ofDifficulty d l) ↔ In r l ∧ Rec.difficulty r = d.
Proof.
  unfold ofDifficulty. rewrite filter_In.
  split; intros [? E]; (split; [done|]); by apply String.eqb_eq.
Qed.

Lemma keepTopThree_In d l r : In r (keepTopThree d l) → In r l.
Proof.
  unfold keepTopThree. destruct (3 <? _); [|done]. intros H.
  by apply filter_In in H as [? _].
Qed.

Lemma keepTopThree_NoDup d l :
  List.NoDup (map Rec.ref l) → List.NoDup (map Rec.ref (keepTopThree d l)).
Proof.
  unfold keepTopThree. destruct (3 <? _); [|done]. apply NoDup_map_filter.
Qed.

(** After the pruning no more than three records of the difficulty are
    left, and no other difficulty has gained a record. *)
Lemma keepTopThree_count d l d' :
  length (ofDifficulty d (keepTopThree d l)) ≤ 3 ∧
  length (ofDifficulty d' (keepTopThree d l)) ≤ length (ofDifficulty d' l).
Proof.
  unfold keepTopThree.
  set (sorted := sortByScore (ofDifficulty d l)).
  destruct (Nat.ltb_spec 3 (length sorted)) as [Hgt|Hle].
  - split.
    + unfold ofDifficulty at 1. rewrite filter_comm. fold (ofDifficulty d l).
      rewrite <- (Permutation_length
                   (filter_Permutation _ _ _ (sortByScore_Permutation (ofDifficulty d l)))).
      fold sorted. set (keep := λ r, negb (includes (drop 3 sorted) r)).
      assert (sorted = take 3 sorted ++ drop 3 sorted) as Hsplit
        by (symmetry; apply take_drop).
      rewrite Hsplit, List.filter_app, length_app.
      rewrite (filter_none keep (drop 3 sorted)).
      * pose proof (List.filter_length_le keep (take 3 sorted)) as Hf.
        rewrite length_take in Hf. simpl. lia.
      * intros x Hx. apply negb_false_iff, includes_true. by exists x.
    + unfold ofDifficulty. rewrite filter_comm. apply List.filter_length_le.
  - split; [|done]. unfold sorted in Hle. by rewrite length_sortByScore in Hle.
Qed.

(** With distinct record objects and integer scores: what is left of the
    difficulty are its three best records, in their order of arrival. *)
Lemma keepTopThree_best d l :
  List.NoDup (map Rec.ref l) → integerScores (ofDifficulty d l) →
  sortByScore (ofDifficulty d (keepTopThree d l))
  = take 3 (sortByScore (ofDifficulty d l)).
Proof.
  intros Hnd Hint. unfold keepTopThree.
  set (sorted := sortByScore (ofDifficulty d l)).
  destruct (Nat.ltb_spec 3 (length sorted)) as [Hgt|Hle].
  - unfold ofDifficulty at 1. rewrite filter_comm. fold (ofDifficulty d l).
    rewrite (sortByScore_filter _ _ Hint). fold sorted.
    assert (List.NoDup (map Rec.ref (take 3 sorted ++ drop 3 sorted))) as Hnd'.
    { rewrite take_drop. unfold sorted.
      apply (Permutation_NoDup (l := map Rec.ref (ofDifficulty d l))).
      - apply Permutation_map. symmetry. apply sortByScore_Permutation.
      - by apply NoDup_map_filter. }
    set (keep := λ r, negb (includes (drop 3 sorted) r)).
    assert (sorted = take 3 sorted ++ drop 3 sorted) as Hsplit
      by (symmetry; apply take_drop).
    rewrite Hsplit at 1. rewrite List.filter_app.
    rewrite (filter_none keep (drop 3 sorted)), app_nil_r.
    + apply filter_all. intros x Hx. apply negb_true_iff.
      destruct (includes (drop 3 sorted) x) eqn:E; [|done].
      apply includes_true in E as (y & Hy & Eref).
      assert (y = x) as ->.
      { apply (ref_inj _ _ _ Hnd'); [apply in_or_app; by right|apply in_or_app; by left|done]. }
      rewrite map_app in Hnd'. apply List.NoDup_app_remove_l in Hnd' as Hd.
      exfalso. clear -Hnd' Hx Hy.
      induction (take 3 sorted) as [|a t IH]; [done|].
      cbn [map app] in Hnd'. apply List.NoDup_cons_iff in Hnd' as [Hna Hnd'].
      destruct Hx as [->|Hx]; [|by apply IH].
      apply Hna, in_or_app. right. by apply in_map.
    + intros x Hx. apply negb_false_iff, includes_true. by exists x.
  - by rewrite take_ge by lia.
Qed.

Lemma keepTopThree_others d l d' :
  List.NoDup (map Rec.ref l) → d' ≠ d →
  ofDifficulty d' (keepTopThree d l) = ofDifficulty d' l.
Proof.
  intros Hnd Hne. unfold keepTopThree.
  set (sorted := sortByScore (ofDifficulty d l)).
  destruct (3 <? length sorted); [|done].
  unfold ofDifficulty at 1. rewrite filter_comm. fold (ofDifficulty d' l).
  apply filter_all. intros x Hx. apply ofDifficulty_In in Hx as [Hx Hd].
  apply negb_true_iff. destruct (includes (drop 3 sorted) x) eqn:E; [|done].
  apply includes_true in E as (y & Hy & Eref).
  assert (In y sorted) as Hy' by (rewrite <- (take_drop 3 sorted); apply in_or_app; by right).
  apply In_sortByScore, ofDifficulty_In in Hy' as [Hy' Hdy].
  assert (y = x) as -> by (by apply (ref_inj l)). congruence.
Qed.

(** ** Integers through [String] and [parseInt] *)

Lemma append_cons a s t : String.append (String a s) t = String a (String.append s t).
Proof. reflexivity. Qed.

Lemma append_nil t : String.append EmptyString t = t.
Proof. reflexivity. Qed.

Lemma append_empty s : String.append s EmptyString = s.
Proof. induction s as [|a s IH]; [done|]. by rewrite append_cons, IH. Qed.

(** The digits of a decimal number are read off whatever follows them. *)
Lemma parseDigits_uint_app rest d : ∀ acc,
  parseDigits 10 (String.append (NilEmpty.string_of_uint d) rest) (Some (Z.of_nat acc))
  = parseDigits 10 rest (Some (Z.of_nat (Nat.of_uint_acc d acc))).
Proof.
  induction d; intros acc; cbn [NilEmpty.string_of_uint Nat.of_uint_acc]; [done|..];
    rewrite append_cons, <- IHd; cbn [parseDigits];
    match goal with |- context [digitOf ?c] =>
      let v := eval vm_compute in (digitOf c) in change (digitOf c) with v end;
    cbv iota beta;
    match goal with |- context [(?a <? 10)%Z] =>
      let v := eval vm_compute in (a <? 10)%Z in change (a <? 10)%Z with v end;
    cbv iota beta; cbn [from_option id];
    do 2 f_equal; rewrite Nat.tail_mul_spec; lia.
Qed.

Lemma parseDigits_uint_start rest d :
  d ≠ Decimal.Nil →
  parseDigits 10 (String.append (NilEmpty.string_of_uint d) rest) None
  = parseDigits 10 (String.append (NilEmpty.string_of_uint d) rest) (Some (Z.of_nat 0)).
Proof. destruct d; [done|reflexivity..]. Qed.

(** A decimal number, alone or with a colon behind it, has no sign and no
    radix prefix for [parseInt] to read. *)
Lemma parseInt_decimal d rest :
  d ≠ Decimal.Nil → rest = EmptyString ∨ (∃ t, rest = String ":" t) →
  parseInt (String.append (NilEmpty.string_of_uint d) rest)
  = match parseDigits 10 (String.append (NilEmpty.string_of_uint d) rest) None with
    | Some n => Int n
    | None => NaN
    end ∧
  parseInt (String "-" (String.append (NilEmpty.string_of_uint d) rest))
  = match parseDigits 10 (String.append (NilEmpty.string_of_uint d) rest) None with
    | Some n => Int (- n)
    | None => NaN
    end ∧
  parseInt (String "0" (String.append (NilEmpty.string_of_uint d) rest))
  = match parseDigits 10 (String.append (NilEmpty.string_of_uint d) rest)
            (Some (Z.of_nat 0)) with
    | Some n => Int n
    | None => NaN
    end.
Proof.
  intros Hd Hrest.
  destruct d as [|d|d|d|d|d|d|d|d|d|d]; [done|..]; try (repeat split; reflexivity).
  destruct d; try (repeat split; reflexivity).
  destruct Hrest as [->|[t ->]]; repeat split; reflexivity.
Qed.

Lemma to_uint_nonnil n : Nat.to_uint n ≠ Decimal.Nil.
Proof.
  rewrite <- (DecimalNat.Unsigned.of_to n) at 1.
  rewrite DecimalNat.Unsigned.to_of. apply DecimalFacts.unorm_nonnil.
Qed.

Lemma showNat_decimal n :
  showNat n = NilEmpty.string_of_uint (Nat.to_uint n) ∧
  1 ≤ String.length (showNat n).
Proof.
  unfold showNat. pose proof (to_uint_nonnil n) as Hnn.
  destruct (Nat.to_uint n); [done|..]; (split; [done|simpl; lia]).
Qed.

Lemma parseDigits_showNat n rest :
  rest = EmptyString ∨ (∃ t, rest = String ":" t) →
  parseDigits 10 (String.append (showNat n) rest) (Some (Z.of_nat 0))
  = Some (Z.of_nat n).
Proof.
  intros Hrest. destruct (showNat_decimal n) as [-> _].
  rewrite parseDigits_uint_app.
  change (Nat.of_uint_acc (Nat.to_uint n) 0) with (Nat.of_uint (Nat.to_uint n)).
  rewrite DecimalNat.Unsigned.of_to. by destruct Hrest as [->|[t ->]].
Qed.



(** A padded number reads back as the number, alone or with a colon
    behind it. *)
Lemma parseInt_padStart_app n rest :
  rest = EmptyString ∨ (∃ t, rest = String ":" t) →
  parseInt (String.append (padStart 2 (showNat n)) rest) = Int (Z.of_nat n).
Proof.
  intros Hrest. unfold padStart.
  pose proof (parseDigits_showNat n rest Hrest) as Hdig.
  destruct (parseInt_decimal (Nat.to_uint n) rest (to_uint_nonnil n) Hrest)
    as (H1 & _ & H3).
  rewrite (parseDigits_uint_start _ _ (to_uint_nonnil n)) in H1.
  destruct (showNat_decimal n) as [E Hlen]. rewrite <- E in H1, H3.
  rewrite Hdig in H1, H3.
  destruct (2 - String.length (showNat n)) as [|[|k]] eqn:Ek; [| |lia];
    cbn [zeros]; rewrite ?append_cons, ?append_nil; done.
Qed.

Lemma parseInt_padStart n t :
  parseInt (String.append (padStart 2 (showNat n)) (String ":" t)) = Int (Z.of_nat n) ∧
  parseInt (padStart 2 (showNat n)) = Int (Z.of_nat n).
Proof.
  split; [apply parseInt_padStart_app; right; by exists t|].
  rewrite <- (append_empty (padStart 2 (showNat n))).
  apply parseInt_padStart_app. by left.
Qed.

(** ** The store over the requests *)

Lemma ofDifficulty_pushed d l new :
  ofDifficulty d (l ++ [new])
  = ofDifficulty d l ++ (if String.eqb (Rec.difficulty new) d then [new] else []).
Proof. unfold ofDifficulty. by rewrite List.filter_app. Qed.

Lemma postLeaderboard_storeOk now body srv :
  storeOk srv → storeOk (postLeaderboard now body srv).2.
Proof.
  intros (Hnd & Hlt & Hcount). unfold postLeaderboard.
  destruct (_ || _); [done|].
  destruct (validDifficulty (Body.difficulty body)) as [d|]; [|done].
  cbn [snd]. set (new := Rec.mk _ _ _ _ _ _ _).
  split; [|split]; cbn [leaderboardRecords allocated].
  - apply keepTopThree_NoDup. rewrite map_app.
    apply (Permutation_NoDup (l := Rec.ref new :: map Rec.ref (leaderboardRecords srv))).
    { apply Permutation_cons_append. }
    apply List.NoDup_cons; [|done]. intros Hin.
    apply in_map_iff in Hin as (x & E & Hx). apply Hlt in Hx. simpl in E. lia.
  - intros r Hr. apply keepTopThree_In, in_app_or in Hr as [Hr|[<-|[]]].
    + apply Hlt in Hr. lia.
    + simpl. lia.
  - intros d'. destruct (decide (d' = d)) as [->|Hne].
    + apply (keepTopThree_count d _ d).
    + etrans; [apply (keepTopThree_count d _ d')|].
      rewrite ofDifficulty_pushed. cbn [Rec.difficulty new].
      destruct (String.eqb_spec d d') as [->|_]; [done|].
      rewrite app_nil_r. apply Hcount.
Qed.

Lemma serve_storeOk req srv : storeOk srv → storeOk (serve req srv).2.
Proof. destruct req; [done| |done]. apply postLeaderboard_storeOk. Qed.

Lemma serveAll_storeOk reqs : ∀ srv, storeOk srv → storeOk (serveAll reqs srv).
Proof.
  induction reqs as [|req reqs IH]; intros srv Hok; [done|].
  apply IH. by apply serve_storeOk.
Qed.

Lemma storeOk_emptyServer : storeOk emptyServer.
Proof. split; [constructor|]. split; [done|]. intros d. simpl. lia. Qed.

Lemma getLeaderboardTop_all d srv :
  storeOk srv → String.eqb d EmptyString = false →
  getLeaderboardTop (Some d) srv
  = Ok (sortByScore (ofDifficulty d (leaderboardRecords srv))).
Proof.
  intros (_ & _ & Hcount) Hd. unfold getLeaderboardTop. rewrite Hd.
  rewrite take_ge; [done|]. rewrite length_sortByScore. apply Hcount.
Qed.




(** ** What a POST keeps *)

Lemma validDifficulty_In d :
  In d validDifficulties →
  validDifficulty (JString d) = Some d ∧ String.eqb d EmptyString = false.
Proof.
  unfold validDifficulties. intros H.
  repeat (destruct H as [<-|H]; [done|]). done.
Qed.

Lemma pushed_kept pre post new z :
  length (pre ++ post) ≤ 3 →
  (∀ b, In b pre → b ≠ new ∧ ∃ y, Rec.score b = Int y ∧ (z ≤ y)%Z) →
  (∀ b, In b post → ∃ y, Rec.score b = Int y ∧ (y < z)%Z) →
  In new (take 3 (pre ++ new :: post)) ↔ submitsRecord (pre ++ post) z = true.
Proof.
  intros Hlen Hpre Hpost. unfold submitsRecord.
  destruct pre as [|p1 [|p2 [|p3 [|p4 pre]]]];
    destruct post as [|q1 [|q2 [|q3 [|q4 post]]]];
    cbn [app length] in Hlen; try lia; cbn [app take length last Nat.ltb Nat.leb orb];
    repeat match goal with
           | |- context [Rec.score ?q] =>
               lazymatch goal with
               | H : Rec.score q = _ |- _ => fail
               | _ =>
                   first
                     [ destruct (Hpost q) as (? & ? & ?); [simpl; tauto|]
                     | destruct (Hpre q) as (? & ? & ? & ?); [simpl; tauto|] ]
               end
           end;
    repeat match goal with H : Rec.score _ = _ |- _ => rewrite H end;
    try (split; [intros _|intros _; simpl; tauto];
         first [done | apply Z.ltb_lt; lia]).
  (* three records that the new one does not exceed *)
  split.
  - intros Hin. exfalso. simpl in Hin.
    destruct Hin as [E|[E|[E|[]]]];
      [destruct (Hpre p1) as [Hne _]|destruct (Hpre p2) as [Hne _]
       |destruct (Hpre p3) as [Hne _]]; simpl; tauto.
  - intros E. apply Z.ltb_lt in E. lia.
Qed.

(** X13: a well-formed POST to a store in the state above, with integer
    scores.  It is answered 201 with the new record; afterwards the top
    list of the difficulty is the three best of the old records and the
    new one, a record of equal score going behind the older ones; the
    records of the other difficulties are as before; and the new record is
    in the store afterwards exactly when the client's test in
    [completeGame] on the top list of before says to submit the score
    (fewer than three records, or a score greater than that of the last). *)
Theorem postLeaderboard_keeps_best now body srv d z :
  storeOk srv → integerScores (leaderboardRecords srv) →
  Body.difficulty body = JString d → In d validDifficulties →
  parseIntOf (Body.score body) = Int z →
  isUndefined (Body.time body) = false → isUndefined (Body.hintsUsed body) = false →
  ∃ newRecord srv' top,
    postLeaderboard now body srv = (Created newRecord, srv') ∧
    Rec.difficulty newRecord = d ∧ Rec.score newRecord = Int z ∧
    getLeaderboardTop (Some d) srv = Ok top ∧
    getLeaderboardTop (Some d) srv'
    = Ok (take 3 (sortByScore (ofDifficulty d (leaderboardRecords srv) ++ [newRecord]))) ∧
    (∀ d', d' ≠ d →
       ofDifficulty d' (leaderboardRecords srv')
       = ofDifficulty d' (leaderboardRecords srv)) ∧
    (In newRecord (leaderboardRecords srv') ↔ submitsRecord top z = true).
Proof.
  intros Hok Hint Hd Hvalid Hscore Htime Hhints.
  destruct (validDifficulty_In d Hvalid) as [Hvd Hne].
  pose proof Hok as (Hnd & Hlt & Hcount).
  assert (isUndefined (Body.score body) = false) as Hsc.
  { destruct (Body.score body); [|done..]. vm_compute in Hscore. discriminate. }
  set (new := Rec.mk (allocated srv) (showZ now) d (Int z)
                (parseIntOf (Body.time body)) now (parseIntOf (Body.hintsUsed body))).
  set (store1 := leaderboardRecords srv ++ [new]).
  assert (postLeaderboard now body srv
          = (Created new, {| leaderboardRecords := keepTopThree d store1;
                             allocated := S (allocated srv) |})) as Epost.
  { unfold postLeaderboard. rewrite Hd, Hvd, Hsc, Htime, Hhints, Hscore.
    cbn [truthy]. rewrite Hne. done. }
  pose proof (postLeaderboard_storeOk now body srv Hok) as Hok'.
  rewrite Epost in Hok'. cbn [snd] in Hok'.
  set (old := ofDifficulty d (leaderboardRecords srv)).
  assert (ofDifficulty d store1 = old ++ [new]) as Hd1.
  { unfold store1. rewrite ofDifficulty_pushed. cbn [Rec.difficulty new].
    by rewrite String.eqb_refl. }
  assert (List.NoDup (map Rec.ref store1)) as Hnd1.
  { unfold store1. rewrite map_app.
    apply (Permutation_NoDup (l := Rec.ref new :: map Rec.ref (leaderboardRecords srv))).
    { apply Permutation_cons_append. }
    apply List.NoDup_cons; [|done]. intros Hin.
    apply in_map_iff in Hin as (x & E & Hx). apply Hlt in Hx. simpl in E. lia. }
  assert (integerScores old) as Hold by (by apply integerScores_filter).
  assert (integerScores (ofDifficulty d store1)) as Hint1.
  { rewrite Hd1. apply integerScores_app. split; [done|].
    intros r [<-|[]]. by exists z. }
  pose proof (keepTopThree_best d store1 Hnd1 Hint1) as Hbest. rewrite Hd1 in Hbest.
  exists new, {| leaderboardRecords := keepTopThree d store1;
                 allocated := S (allocated srv) |}, (sortByScore old).
  split; [done|]. split; [done|]. split; [done|].
  split; [by apply getLeaderboardTop_all|].
  split.
  { rewrite (getLeaderboardTop_all d _ Hok' Hne). cbn [leaderboardRecords].
    by rewrite Hbest. }
  split.
  { intros d' Hd'. cbn [leaderboardRecords].
    rewrite (keepTopThree_others d store1 d' Hnd1 Hd').
    unfold store1. rewrite ofDifficulty_pushed. cbn [Rec.difficulty new].
    destruct (String.eqb_spec d d') as [->|_]; [done|]. by rewrite app_nil_r. }
  cbn [leaderboardRecords].
  destruct (sortByScore_pushed old new z eq_refl Hold)
    as (pre & post & E1 & E2 & Hpre & Hpost).
  assert (In new (keepTopThree d store1) ↔ In new (take 3 (pre ++ new :: post))) as ->.
  { rewrite <- E1, <- Hbest, In_sortByScore, ofDifficulty_In. cbn [Rec.difficulty new].
    tauto. }
  rewrite E2. apply pushed_kept.
  - rewrite <- E2, length_sortByScore. apply Hcount.
  - intros b Hb.
    assert (In b old) as Hb'.
    { apply In_sortByScore. rewrite E2. apply in_or_app. by left. }
    split.
    + intros ->. apply ofDifficulty_In in Hb' as [Hb' _]. apply Hlt in Hb'.
      simpl in Hb'. lia.
    + destruct (Hold b Hb') as [y Hy]. exists y. split; [done|].
      specialize (Hpre b Hb). unfold scoreZ in Hpre. by rewrite Hy in Hpre.
  - intros b Hb.
    assert (In b old) as Hb'.
    { apply In_sortByScore. rewrite E2. apply in_or_app. by right. }
    destruct (Hold b Hb') as [y Hy]. exists y. split; [done|].
    specialize (Hpost b Hb). unfold scoreZ in Hpost. by rewrite Hy in Hpost.
Qed.

Lemma integerScores_exampleServer : integerScores (leaderboardRecords exampleServer).
Proof. intros r Hr. vm_compute in Hr. destruct Hr as [<-|[<-|[<-|[]]]]; by eexists. Qed.

Lemma storeOk_exampleServer : storeOk exampleServer.
Proof. apply serveAll_storeOk, storeOk_emptyServer. Qed.

Lemma postLeaderboard_keeps_best_witness :
  ∃ newRecord srv' top,
    postLeaderboard 4000 (exampleBody 301) exampleServer = (Created newRecord, srv') ∧
    Rec.difficulty newRecord = "beginner"%string ∧ Rec.score newRecord = Int 301 ∧
    getLeaderboardTop (Some "beginner"%string) exampleServer = Ok top ∧
    getLeaderboardTop (Some "beginner"%string) srv'
    = Ok (take 3 (sortByScore
                    (ofDifficulty "beginner" (leaderboardRecords exampleServer)
                     ++ [newRecord]))) ∧
    (∀ d', d' ≠ "beginner"%string →
       ofDifficulty d' (leaderboardRecords srv')
       = ofDifficulty d' (leaderboardRecords exampleServer)) ∧
    (In newRecord (leaderboardRecords srv') ↔ submitsRecord top 301 = true).
Proof.
  apply (postLeaderboard_keeps_best 4000 (exampleBody 301) exampleServer "beginner" 301).
  - apply storeOk_exampleServer.
  - apply integerScores_exampleServer.
  - reflexivity.
  - by left.
  - vm_compute. reflexivity.
  - reflexivity.
  - reflexivity.
Defined.

(** ** The order of the answers *)

Lemma sortByScore_ties z l :
  (∀ r, In r l → Rec.score r = Int z) → sortByScore l = l.
Proof.
  induction l as [|a l IH]; intros H; [done|].
  cbn [sortByScore foldr]. fold (sortByScore l).
  rewrite IH by (intros r Hr; apply H; by right).
  apply insertRecord_front.
  - intros r Hr. exists z. by apply H.
  - intros b Hb. unfold scoreZ. rewrite (H a) by (by left).
    rewrite (H b) by (by right). done.
Qed.

(** X14: with integer scores in the store, [GET /api/leaderboard] answers
    with the records asked for (those of the difficulty, or all of them
    when no difficulty or an empty one is given), each once, arranged so
    that no record is followed by one of greater score, the records of
    equal score in their order in the store. *)
Theorem getLeaderboard_sorted difficulty srv :
  integerScores (leaderboardRecords srv) →
  ∃ data, getLeaderboard difficulty srv = Ok data ∧
    Permutation data (List.filter (asked difficulty) (leaderboardRecords srv)) ∧
    descending data ∧
    ∀ z, List.filter (hasScore z) data
         = List.filter (hasScore z)
             (List.filter (asked difficulty) (leaderboardRecords srv)).
Proof.
  intros Hint.
  set (sel := List.filter (asked difficulty) (leaderboardRecords srv)).
  assert (getLeaderboard difficulty srv = Ok (sortByScore sel)) as E.
  { unfold getLeaderboard, sel, asked. destruct difficulty as [d|].
    - destruct (String.eqb d EmptyString); [|done].
      by rewrite filter_all.
    - by rewrite filter_all. }
  assert (integerScores sel) as Hsel by (by apply integerScores_filter).
  exists (sortByScore sel). split; [done|].
  split; [apply sortByScore_Permutation|].
  split; [by apply sortByScore_descending|].
  intros z. rewrite <- (sortByScore_filter _ _ Hsel).
  apply (sortByScore_ties z). intros r Hr. apply filter_In in Hr as [_ Hr].
  unfold hasScore in Hr. destruct (Rec.score r) as [|y]; [done|].
  apply Z.eqb_eq in Hr. by subst.
Qed.

Lemma getLeaderboard_sorted_witness :
  ∃ data, getLeaderboard (Some "beginner"%string) exampleServer = Ok data ∧
    Permutation data
      (List.filter (asked (Some "beginner"%string)) (leaderboardRecords exampleServer)) ∧
    descending data ∧
    ∀ z, List.filter (hasScore z) data
         = List.filter (hasScore z)
             (List.filter (asked (Some "beginner"%string))
                (leaderboardRecords exampleServer)).
Proof.
  apply (getLeaderboard_sorted (Some "beginner"%string) exampleServer).
  apply integerScores_exampleServer.
Defined.

(** * The views *)

(** ** The clock *)

Lemma append_inj_r (p x y : string) : String.append p x = String.append p y → x = y.
Proof.
  induction p as [|a p IH]; [done|]. rewrite !append_cons. intros [= H]. by apply IH.
Qed.

Lemma formatTime_nonneg seconds :
  (0 ≤ seconds)%Z →
  formatTime seconds =
    String.append (padStart 2 (showNat (Z.to_nat (seconds / 60))))
      (String ":" (padStart 2 (showNat (Z.to_nat (seconds mod 60))))).
Proof.
  intros H. unfold formatTime, showZ. rewrite Z.rem_mod_nonneg by lia.
  destruct (Z.ltb_spec (seconds / 60) 0) as [Hneg|_].
  { pose proof (Z.div_pos seconds 60). lia. }
  destruct (Z.ltb_spec (seconds mod 60) 0) as [Hneg|_]; [|done].
  pose proof (Z.mod_pos_bound seconds 60). lia.
Qed.

(** X15: [formatTime] on a duration of whole seconds, none negative: the
    leading number of the text ([parseInt] of it) is the number of whole
    minutes, which is not cut at 60; and different durations are shown by
    different texts. *)
Theorem formatTime_inj a b :
  (0 ≤ a)%Z → (0 ≤ b)%Z →
  parseInt (formatTime a) = Int (a / 60) ∧
  (formatTime a = formatTime b → a = b).
Proof.
  intros Ha Hb.
  assert (∀ s, (0 ≤ s)%Z → parseInt (formatTime s) = Int (s / 60)) as Hmin.
  { intros s Hs. rewrite (formatTime_nonneg s Hs).
    destruct (parseInt_padStart (Z.to_nat (s / 60))
                (padStart 2 (showNat (Z.to_nat (s mod 60))))) as [-> _].
    f_equal. pose proof (Z.div_pos s 60). lia. }
  split; [by apply Hmin|]. intros E.
  assert (a / 60 = b / 60)%Z as Em.
  { pose proof (Hmin a Ha) as H1. pose proof (Hmin b Hb) as H2.
    rewrite E in H1. congruence. }
  rewrite (formatTime_nonneg a Ha), (formatTime_nonneg b Hb), Em in E.
  apply append_inj_r in E. injection E as E.
  assert (a mod 60 = b mod 60)%Z as Es.
  { destruct (parseInt_padStart (Z.to_nat (a mod 60)) EmptyString) as [_ H1].
    destruct (parseInt_padStart (Z.to_nat (b mod 60)) EmptyString) as [_ H2].
    rewrite E in H1. rewrite H1 in H2.
    pose proof (Z.mod_pos_bound a 60). pose proof (Z.mod_pos_bound b 60).
    injection H2 as H2. lia. }
  rewrite (Z.div_mod a 60), (Z.div_mod b 60) by lia. lia.
Qed.

Lemma formatTime_inj_witness :
  parseInt (formatTime 3725) = Int (3725 / 60) ∧
  (formatTime 3725 = formatTime 3725 → 3725 = 3725)%Z.
Proof. apply (formatTime_inj 3725 3725); lia. Defined.

(** ** The classes of a cell *)

Lemma isRowComplete_spec board row :
  isRowComplete board row = true ↔ ∀ c, c < 9 → cellNull board row c = false.
Proof.
  unfold isRowComplete. rewrite forallb_forall. split.
  - intros H c Hc. apply negb_true_iff, H, in_seq. lia.
  - intros H c Hc. apply in_seq in Hc. apply negb_true_iff, H. lia.
Qed.

Lemma isColumnComplete_spec board col :
  isColumnComplete board col = true ↔ ∀ r, r < 9 → cellNull board r col = false.
Proof.
  unfold isColumnComplete. rewrite forallb_forall. split.
  - intros H r Hr. apply negb_true_iff, H, in_seq. lia.
  - intros H r Hr. apply in_seq in Hr. apply negb_true_iff, H. lia.
Qed.

Lemma isBoxComplete_spec board row col :
  isBoxComplete board row col = true ↔
  ∀ r c, r / 3 = row / 3 → c / 3 = col / 3 → cellNull board r c = false.
Proof.
  unfold isBoxComplete. rewrite forallb_forall. split.
  - intros H r c Hr Hc.
    assert (In r (seq (row / 3 * 3) 3)) as Hin by (apply in_seq; lia).
    specialize (H r Hin). rewrite forallb_forall in H.
    apply negb_true_iff, H, in_seq. lia.
  - intros H r Hr. apply in_seq in Hr. rewrite forallb_forall. intros c Hc.
    apply in_seq in Hc. apply negb_true_iff, H; lia.
Qed.

Lemma getCellClasses_In board puzzle invalid row col :
  let classes := getCellClasses board puzzle invalid row col in
  (In "original-cell"%string classes ↔ cellNull puzzle row col = false) ∧
  (In "invalid-cell"%string classes ↔ isCellInvalid invalid row col = true) ∧
  (In "row-complete"%string classes ↔ isRowComplete board row = true) ∧
  (In "column-complete"%string classes ↔ isColumnComplete board col = true) ∧
  (In "box-complete"%string classes ↔ isBoxComplete board row col = true).
Proof.
  unfold getCellClasses.
  destruct (cellNull puzzle row col), (isCellInvalid invalid row col),
    (isRowComplete board row), (isColumnComplete board col),
    (isBoxComplete board row col); cbn [negb app];
    repeat split; intros H; try done; cbn [In] in *;
    try (repeat (destruct H as [H|H]; try discriminate H); done);
    tauto.
Qed.

(** X16: the classes [SudokuGrid.vue] gives a cell of the 9x9 range, with
    the props that [App.vue] passes.  The cell is marked invalid exactly
    when another cell of its row, column or box holds its value, and
    original exactly when the puzzle holds a value there; and the board is
    complete ([isComplete] of the game) exactly when every cell is marked
    row-complete, exactly when every cell is marked column-complete, and
    exactly when every cell is marked box-complete. *)
Theorem cellClasses_spec s :
  (∀ row col, row < 9 → col < 9 →
     (In "invalid-cell"%string (cellClasses s row col) ↔ conflicting (board s) row col) ∧
     (In "original-cell"%string (cellClasses s row col)
      ↔ isOriginalCell s row col = true)) ∧
  (isComplete s = true ↔
   ∀ row col, row < 9 → col < 9 → In "row-complete"%string (cellClasses s row col)) ∧
  (isComplete s = true ↔
   ∀ row col, row < 9 → col < 9 → In "column-complete"%string (cellClasses s row col)) ∧
  (isComplete s = true ↔
   ∀ row col, row < 9 → col < 9 → In "box-complete"%string (cellClasses s row col)).
Proof.
  unfold cellClasses. split; [|split; [|split]].
  - intros row col Hr Hc.
    destruct (getCellClasses_In (board s) (puzzle s) (getInvalidCells (board s)) row col)
      as (Ho & Hi & _).
    split.
    + rewrite Hi. unfold isCellInvalid. rewrite existsb_exists. split.
      * intros (key & Hin & Heq). apply String.eqb_eq in Heq as <-.
        apply getInvalidCells_In in Hin as (r & c & Hr' & Hc' & Hkey & Hconf).
        apply cellKey_inj in Hkey as [-> ->]; done.
      * intros Hconf. exists (cellKey row col). split; [|apply String.eqb_refl].
        apply getInvalidCells_In. by exists row, col.
    + rewrite Ho. unfold isOriginalCell. by rewrite negb_true_iff.
  - rewrite isComplete_full. split.
    + intros Hfull row col Hr Hc.
      apply (getCellClasses_In (board s) (puzzle s) (getInvalidCells (board s)) row col).
      apply isRowComplete_spec. intros c Hc'. by apply Hfull.
    + intros H row col Hr Hc. specialize (H row col Hr Hc).
      apply (getCellClasses_In (board s) (puzzle s) (getInvalidCells (board s)) row col)
        in H.
      by apply (isRowComplete_spec (board s) row).
  - rewrite isComplete_full. split.
    + intros Hfull row col Hr Hc.
      apply (getCellClasses_In (board s) (puzzle s) (getInvalidCells (board s)) row col).
      apply isColumnComplete_spec. intros r Hr'. by apply Hfull.
    + intros H row col Hr Hc. specialize (H row col Hr Hc).
      apply (getCellClasses_In (board s) (puzzle s) (getInvalidCells (board s)) row col)
        in H.
      by apply (isColumnComplete_spec (board s) col).
  - rewrite isComplete_full. split.
    + intros Hfull row col Hr Hc.
      apply (getCellClasses_In (board s) (puzzle s) (getInvalidCells (board s)) row col).
      apply isBoxComplete_spec. intros r c Hr' Hc'. apply Hfull; lia.
    + intros H row col Hr Hc. specialize (H row col Hr Hc).
      apply (getCellClasses_In (board s) (puzzle s) (getInvalidCells (board s)) row col)
        in H.
      by apply (isBoxComplete_spec (board s) row col).
Qed.

(** * The generator *)

(** ** Cells and counts *)

Lemma NoDup_allCells : List.NoDup allCells.
Proof.
  apply NoDup_ListNoDup, NoDup_alt. intros i j [r c] Hi Hj.
  apply allCells_lookup in Hi as (Hi & Hr & Hc).
  apply allCells_lookup in Hj as (Hj & Hr' & Hc'). lia.
Qed.

Lemma cells_of_9x9 grid :
  is9x9 grid →
  map (λ '(r, c), cellAt grid r c) allCells = map Some (concat grid).
Proof.
  intros [Hlen Hrows].
  do 9 (destruct grid as [|? grid]; [discriminate|]).
  destruct grid; [|discriminate]. clear Hlen.
  repeat match goal with
         | H : Forall _ (_ :: _) |- _ => apply Forall_cons in H as [? H]
         end.
  repeat match goal with
         | H : length ?row = 9 |- _ =>
             do 9 (destruct row as [|? row]; [discriminate|]);
             destruct row; [|discriminate]; clear H
         end.
  reflexivity.
Qed.

Lemma filter_map_length {A B} (f : B → bool) (h : A → B) (l : list A) :
  length (List.filter f (map h l)) = length (List.filter (λ x, f (h x)) l).
Proof.
  induction l as [|a l IH]; [done|]. simpl. destruct (f (h a)); simpl; by rewrite IH.
Qed.

(** The filled and the empty cells of a 9x9 grid are 81 together. *)
Lemma countFilledCells_empties grid :
  is9x9 grid → countFilledCells grid + empties grid = 81.
Proof.
  intros Hwf. unfold countFilledCells, empties.
  pose proof (cells_of_9x9 grid Hwf) as Hcells.
  assert (length (concat grid) = 81) as Hlen.
  { rewrite <- (length_map Some), <- Hcells, length_map. reflexivity. }
  set (isNull := λ o : option CellValue, match o with Some None => true | _ => false end).
  assert (length (List.filter (λ '(row, col), cellNull grid row col) allCells)
          = length (List.filter (λ cell : CellValue, negb match cell with
                                                          | Some _ => true
                                                          | None => false
                                                          end) (concat grid))) as ->.
  { assert (List.filter (λ '(row, col), cellNull grid row col) allCells
            = List.filter (λ p, isNull ((λ '(r, c), cellAt grid r c) p)) allCells) as ->.
    { apply filter_ext. by intros [r c]. }
    rewrite <- (filter_map_length isNull (λ '(r, c), cellAt grid r c) allCells).
    rewrite Hcells, filter_map_length.
    apply (f_equal (@length CellValue)), filter_ext. by intros [v|]. }
  rewrite List.filter_length. done.
Qed.

(** ** Shuffling and blanking *)

Lemma swap_Permutation {A} (l : list A) i j : Permutation (swap l i j) l.
Proof.
  unfold swap. destruct (l !! i) as [a|] eqn:Ei; [|done].
  destruct (l !! j) as [b|] eqn:Ej; [|done]. by apply Permutation_insert_swap.
Qed.

Lemma shuffle_Permutation rnd idx : ∀ k positions,
  Permutation (shuffle rnd k idx positions).1 positions.
Proof.
  induction idx as [|i idx IH]; intros k positions; [done|].
  cbn [shuffle]. rewrite IH. apply swap_Permutation.
Qed.

Lemma blankCells_null positions : ∀ grid r c,
  cellAt grid r c = Some None → cellAt (blankCells positions grid) r c = Some None.
Proof.
  induction positions as [|[r0 c0] rest IH]; intros grid r c H; [done|].
  cbn [blankCells fold_left]. apply IH.
  destruct (decide ((r0, c0) = (r, c))) as [[= -> ->]|Hne].
  - by apply (cellAt_setCell_set grid r c None None).
  - by rewrite cellAt_setCell_other.
Qed.

Lemma blankCells_In positions : ∀ grid r c,
  is9x9 grid → r < 9 → c < 9 → In (r, c) positions →
  cellAt (blankCells positions grid) r c = Some None.
Proof.
  induction positions as [|[r0 c0] rest IH]; intros grid r c Hwf Hr Hc Hin; [done|].
  cbn [blankCells fold_left].
  destruct (decide ((r0, c0) = (r, c))) as [[= -> ->]|Hne].
  - apply blankCells_null. by apply cellAt_setCell_same.
  - destruct Hin as [E|Hin]; [done|]. apply IH; [by apply is9x9_setCell|done..].
Qed.

Lemma blankCells_other positions : ∀ grid r c,
  ¬ In (r, c) positions → cellAt (blankCells positions grid) r c = cellAt grid r c.
Proof.
  induction positions as [|[r0 c0] rest IH]; intros grid r c Hin; [done|].
  cbn [blankCells fold_left]. rewrite IH by (intros H; apply Hin; by right).
  apply cellAt_setCell_other. intros E. apply Hin. by left.
Qed.

(** Blanking distinct cells of a full grid leaves as many empty cells. *)
Lemma empties_blankCells positions grid :
  is9x9 grid → full grid → List.NoDup positions →
  (∀ p, In p positions → In p allCells) →
  empties (blankCells positions grid) = length positions.
Proof.
  intros Hwf Hfull Hnd Hsub. unfold empties.
  apply Permutation_length, Permutation.NoDup_Permutation; [|done|].
  - apply List.NoDup_filter, NoDup_allCells.
  - intros [r c]. rewrite filter_In, in_allCells. split.
    + intros [[Hr Hc] Hnull].
      destruct (decide ((r, c) ∈ positions)) as [Hin|Hnot]; [by apply list_elem_of_In|].
      assert (¬ In (r, c) positions) as Hnot' by (by rewrite <- list_elem_of_In).
      unfold cellNull in Hnull. rewrite (blankCells_other _ _ _ _ Hnot') in Hnull.
      fold (cellNull grid r c) in Hnull. by rewrite Hfull in Hnull.
    + intros Hin. pose proof (Hsub _ Hin) as [Hr Hc]%in_allCells.
      split; [done|]. unfold cellNull. by rewrite blankCells_In.
Qed.

(** X19: the removal step of [generateSudokuPuzzle].  The shuffle leaves
    the 81 positions a permutation of the cells, so the removal loop
    blanks distinct cells: when [generateSolvedGrid] has left a full grid,
    the puzzle shows exactly as many cells as the formula for the visible
    count has drawn (81 less the cells to remove), and every cell it shows
    is the cell of the solved grid. *)
Theorem generateSudokuPuzzle_removes difficulty rnd k :
  full (generateSolvedGrid rnd k).1 →
  countFilledCells (generateSudokuPuzzle difficulty rnd k).1
  = 81 - Z.to_nat (81 - drawnVisible difficulty rnd k) ∧
  ((0 ≤ drawnVisible difficulty rnd k ≤ 81)%Z →
   Z.of_nat (countFilledCells (generateSudokuPuzzle difficulty rnd k).1)
   = drawnVisible difficulty rnd k) ∧
  (∀ r c v,
     cellAt (generateSudokuPuzzle difficulty rnd k).1 r c = Some (Some v) →
     cellAt (generateSolvedGrid rnd k).1 r c = Some (Some v)).
Proof.
  intros Hfull.
  pose proof (is9x9_generateSolvedGrid rnd k) as Hwf.
  unfold drawnVisible, generateSudokuPuzzle.
  destruct (generateSolvedGrid rnd k) as [solved k1]. cbn [fst snd] in *.
  set (visible := Math_floor _).
  pose proof (shuffle_Permutation rnd (rev (seq 1 80)) (S k1) allCells) as Hperm.
  destruct (shuffle rnd (S k1) (rev (seq 1 80)) allCells) as [positions k2].
  cbn [fst] in *.
  set (n := Z.to_nat (81 - visible)).
  assert (empties (blankCells (take n positions) solved) = Nat.min n 81) as Hemp.
  { rewrite empties_blankCells; [|done|done| |].
    - rewrite length_take, (Permutation_length Hperm). reflexivity.
    - apply NoDup_ListNoDup, (sublist_NoDup _ positions); [|apply sublist_take].
      apply NoDup_ListNoDup. apply (Permutation_NoDup (l := allCells));
        [by symmetry|apply NoDup_allCells].
    - intros p Hp. apply (Permutation_in p Hperm).
      apply list_elem_of_In. apply list_elem_of_In in Hp.
      by apply (subseteq_take n positions). }
  pose proof (countFilledCells_empties (blankCells (take n positions) solved)
                (is9x9_blankCells _ _ Hwf)) as Hsum.
  split; [lia|]. split; [lia|]. intros r c v. apply blankCells_keeps.
Qed.

Lemma generateSudokuPuzzle_removes_witness :
  countFilledCells (generateSudokuPuzzle beginner nearOneRun 0).1
  = 81 - Z.to_nat (81 - drawnVisible beginner nearOneRun 0) ∧
  ((0 ≤ drawnVisible beginner nearOneRun 0 ≤ 81)%Z →
   Z.of_nat (countFilledCells (generateSudokuPuzzle beginner nearOneRun 0).1)
   = drawnVisible beginner nearOneRun 0) ∧
  (∀ r c v,
     cellAt (generateSudokuPuzzle beginner nearOneRun 0).1 r c = Some (Some v) →
     cellAt (generateSolvedGrid nearOneRun 0).1 r c = Some (Some v)).
Proof.
  apply (generateSudokuPuzzle_removes beginner nearOneRun 0).
  apply firstEmpty_None. vm_compute. reflexivity.
Defined.
